(** * The 3D carousel script (main.js): hover, click and loader logic

    A shallow embedding of the browser script.  The script keeps all of
    its state in module-level variables and mutates scene objects that
    are shared by reference, so the embedding is an explicit store:

    - a heap of xyz-objects (three.js [Vector3]/[Euler] values and the
      plain [{x, y, z}] object literals the script creates), addressed
      by index;
    - a heap of scene nodes ([Object3D]), addressed by index, whose
      [position], [rotation] and [scale] are addresses into the first
      heap;
    - the module-level variables ([objects], [currentHoveredModel],
      [clickCount], ...).

    The event loop is a step function over timestamped events.  What the
    rendering engine, the model loader and the tween library compute (ray
    intersections, parsed assets, interpolated values) enters as event
    payload.  JavaScript numbers are IEEE binary64 values, here Rocq's
    primitive floats.

    The source text has an unmatched closing brace after [onMouseClick]
    (line 438); the embedding follows the statements of the script on
    both sides of it. *)

From Stdlib Require Import ZArith PrimFloat Lia.
From Stdlib Require FloatOps FloatAxioms SpecFloat.
From stdpp Require Import base option list strings pretty gmap.

Open Scope string_scope.
Open Scope list_scope.

(* Decimal literals such as 1.1 denote the nearest binary64 value, as in
   JavaScript. *)
Set Warnings "-inexact-float,-register-all".

(** ** JavaScript values *)

Module JS.

(** Truthiness of a number: [0], [-0] and [NaN] are falsy. *)
Definition truthy_num (v : float) : bool :=
  negb (PrimFloat.is_zero v || PrimFloat.is_nan v).

(** [a || b] on numbers. *)
Definition or_num (a b : float) : float :=
  if truthy_num a then a else b.

(** Truthiness of a string: only the empty string is falsy. *)
Definition truthy_str (v : string) : bool :=
  negb (bool_decide (v = "")).

(** Truthiness of a possibly undefined string. *)
Definition truthy_ostr (a : option string) : bool :=
  match a with
  | Some v => truthy_str v
  | None => false
  end.

(** [a || b] where [a] is a possibly undefined string. *)
Definition or_str (a : option string) (b : string) : string :=
  match a with
  | Some v => if truthy_str v then v else b
  | None => b
  end.

(** A possibly undefined number used in arithmetic: [undefined] converts
    to [NaN]. *)
Definition to_number (a : option float) : float :=
  match a with
  | Some v => v
  | None => PrimFloat.nan
  end.

(** [String.prototype.toLowerCase], on the ASCII letters. *)
Definition lower_ascii (c : Ascii.ascii) : Ascii.ascii :=
  let n := Ascii.nat_of_ascii c in
  if (65 <=? n)%nat && (n <=? 90)%nat then Ascii.ascii_of_nat (n + 32) else c.

Fixpoint toLowerCase (v : string) : string :=
  match v with
  | EmptyString => EmptyString
  | String c rest => String (lower_ascii c) (toLowerCase rest)
  end.

(** The value of a property read [obj[key]] on an object literal whose
    own properties are strings: an own property, a member inherited from
    [Object.prototype], or [undefined]. *)
Inductive propval :=
| Undefined
| Str (text : string)
| Inherited (key : string).

Definition Object_prototype : list string :=
  [ "constructor"; "hasOwnProperty"; "isPrototypeOf"; "propertyIsEnumerable";
    "toLocaleString"; "toString"; "valueOf"; "__proto__";
    "__defineGetter__"; "__defineSetter__"; "__lookupGetter__"; "__lookupSetter__" ].

Definition get (obj : gmap string string) (key : string) : propval :=
  match obj !! key with
  | Some v => Str v
  | None => if bool_decide (key ∈ Object_prototype) then Inherited key else Undefined
  end.

Definition truthy (v : propval) : bool :=
  match v with
  | Undefined => false
  | Str text => truthy_str text
  | Inherited _ => true
  end.

(** Sparse arrays: an array is a list of slots, a hole is [None].
    [arr[i] = v] overwrites slot [i], or extends the array with holes
    up to [i]. *)
Definition array_get {A} (arr : list (option A)) (i : nat) : option A :=
  mjoin (arr !! i).

Definition array_set {A} (arr : list (option A)) (i : nat) (v : A) : list (option A) :=
  if decide (i < length arr)%nat then <[i := Some v]> arr
  else arr ++ replicate (i - length arr) None ++ [Some v].

End JS.

(** ** Scene data *)

(** An object with numeric fields [x], [y], [z]. *)
Record Vector3 := mkVector3 { vx : float; vy : float; vz : float }.

(** Addresses into the heap of xyz-objects, and indices of scene nodes. *)
Abbreviation addr := nat.
Abbreviation oid := nat.

(** The [userData] keys the script reads and writes. *)
Record UserData := mkUserData {
  userData_name : option string;
  originalScale : option float;
  originalPosition : option addr;
  originalRotation : option addr
}.

Definition no_userData : UserData := mkUserData None None None None.

(** A scene node.  [position], [rotation] and [scale] are the addresses
    of the node's own xyz-objects. *)
Record Object3D := mkObject3D {
  name : string;
  parent : option oid;
  children : list oid;
  position : addr;
  rotation : addr;
  scale : addr;
  userData : UserData
}.

(** A loaded asset ([gltf.scene]): a tree of nodes with their local
    transforms.  Assets carry none of the [userData] keys above. *)
Inductive Template :=
| TObject (t_name : string) (t_position t_rotation t_scale : Vector3)
          (t_children : list Template).

(** An entry of [MODEL_POSITIONS]. *)
Record ModelPosition := mkModelPosition {
  cfg_name : string;
  cfg_position : Vector3;
  cfg_rotation : Vector3;
  cfg_scale : float
}.

Definition MODEL_SCALE : float := 3.0%float.

Definition MODEL_PATHS : list string :=
  [ "./rockbodytest.glb"; "./shintest.glb"; "./kidsynth.glb" ].

Definition MODEL_POSITIONS : list ModelPosition :=
  [ mkModelPosition "rockbody"
      (mkVector3 (-8)%float 0%float 0%float)
      (mkVector3 (-0.5)%float 1.9%float 1.5%float)
      MODEL_SCALE;
    mkModelPosition "shin"
      (mkVector3 3%float 1%float (-7)%float)
      (mkVector3 0.50%float (-0.45)%float 1%float)
      MODEL_SCALE;
    mkModelPosition "kidsynth"
      (mkVector3 7%float 0%float 9%float)
      (mkVector3 0%float 3.8%float 0%float)
      MODEL_SCALE ].

Definition modelPages : gmap string string :=
  {[ "rockbody" := "LI1-new"; "shin" := "Shinkansen-new"; "kidsynth" := "Kid-Synth-new" ]}.

(** [HOVER_SCALE] is declared by the script and read nowhere: the hover
    handler multiplies by the literal [1.1]. *)
Definition HOVER_SCALE : float := 1.1%float.
Definition doubleClickThreshold : Z := 300.

(** A [gsap.to(target, vars)] request: the xyz-object it animates, the end
    values of [x], [y], [z] (possibly undefined), the duration in seconds,
    the easing name when one is given, and whether the [onComplete]
    callback of the mouseout handler is attached. *)
Record Tween := mkTween {
  tw_target : addr;
  tw_x : option float;
  tw_y : option float;
  tw_z : option float;
  tw_duration : float;
  tw_ease : option string;
  tw_onComplete : bool
}.

(** The value assigned to [window.location.href]: the text of
    [`${pageName}.html`].  For a page name that is a built-in member of
    [Object.prototype] the text is the engine's rendering of that member. *)
Inductive Href :=
| HrefText (text : string)
| HrefOfInherited (key : string).

Definition html_of (pageName : JS.propval) : Href :=
  match pageName with
  | JS.Str page => HrefText (page +:+ ".html")
  | JS.Undefined => HrefText "undefined.html"
  | JS.Inherited key => HrefOfInherited key
  end.

(** ** Program state *)

Record State := mkState {
  vecs : list Vector3;  (* the heap of xyz-objects *)
  objs : list Object3D;  (* the heap of scene nodes *)
  objects : list oid;  (* [objects]: the carousel's model instances *)
  models : list (option Template);  (* [models] of [loadModels]: loaded assets by path index *)
  loadedCount : nat;  (* [loadedCount] of [loadModels] *)
  currentHoveredModel : option oid;  (* hover target of [handleHover] *)
  hoveredObject : option oid;  (* hover target of the render loop *)
  isHovering : bool;
  pointerCursor : bool;  (* [document.body] carries the class [pointer-cursor] *)
  clickCount : nat;
  clickTimer : option nat;  (* handle of the pending single-click timer *)
  timers : list (nat * Z);  (* pending [setTimeout] timers: handle and due time *)
  nextTimer : nat;  (* next timer handle (handles are positive) *)
  lastClickTime : Z;
  location : option Href;  (* last value assigned to [window.location.href] *)
  openedWindows : nat;  (* number of [window.open] calls *)
  tweens : list Tween;  (* [gsap.to] requests, oldest first *)
  console : list string  (* messages written by [console.log] *)
}.

(** Assignments to one variable. *)
Definition set_vecs (v : list Vector3) (s : State) : State :=
  mkState v (objs s) (objects s) (models s) (loadedCount s) (currentHoveredModel s) (hoveredObject s) (isHovering s) (pointerCursor s) (clickCount s) (clickTimer s) (timers s) (nextTimer s) (lastClickTime s) (location s) (openedWindows s) (tweens s) (console s).
Definition set_objs (v : list Object3D) (s : State) : State :=
  mkState (vecs s) v (objects s) (models s) (loadedCount s) (currentHoveredModel s) (hoveredObject s) (isHovering s) (pointerCursor s) (clickCount s) (clickTimer s) (timers s) (nextTimer s) (lastClickTime s) (location s) (openedWindows s) (tweens s) (console s).
Definition set_objects (v : list oid) (s : State) : State :=
  mkState (vecs s) (objs s) v (models s) (loadedCount s) (currentHoveredModel s) (hoveredObject s) (isHovering s) (pointerCursor s) (clickCount s) (clickTimer s) (timers s) (nextTimer s) (lastClickTime s) (location s) (openedWindows s) (tweens s) (console s).
Definition set_models (v : list (option Template)) (s : State) : State :=
  mkState (vecs s) (objs s) (objects s) v (loadedCount s) (currentHoveredModel s) (hoveredObject s) (isHovering s) (pointerCursor s) (clickCount s) (clickTimer s) (timers s) (nextTimer s) (lastClickTime s) (location s) (openedWindows s) (tweens s) (console s).
Definition set_loadedCount (v : nat) (s : State) : State :=
  mkState (vecs s) (objs s) (objects s) (models s) v (currentHoveredModel s) (hoveredObject s) (isHovering s) (pointerCursor s) (clickCount s) (clickTimer s) (timers s) (nextTimer s) (lastClickTime s) (location s) (openedWindows s) (tweens s) (console s).
Definition set_currentHoveredModel (v : option oid) (s : State) : State :=
  mkState (vecs s) (objs s) (objects s) (models s) (loadedCount s) v (hoveredObject s) (isHovering s) (pointerCursor s) (clickCount s) (clickTimer s) (timers s) (nextTimer s) (lastClickTime s) (location s) (openedWindows s) (tweens s) (console s).
Definition set_hoveredObject (v : option oid) (s : State) : State :=
  mkState (vecs s) (objs s) (objects s) (models s) (loadedCount s) (currentHoveredModel s) v (isHovering s) (pointerCursor s) (clickCount s) (clickTimer s) (timers s) (nextTimer s) (lastClickTime s) (location s) (openedWindows s) (tweens s) (console s).
Definition set_isHovering (v : bool) (s : State) : State :=
  mkState (vecs s) (objs s) (objects s) (models s) (loadedCount s) (currentHoveredModel s) (hoveredObject s) v (pointerCursor s) (clickCount s) (clickTimer s) (timers s) (nextTimer s) (lastClickTime s) (location s) (openedWindows s) (tweens s) (console s).
Definition set_pointerCursor (v : bool) (s : State) : State :=
  mkState (vecs s) (objs s) (objects s) (models s) (loadedCount s) (currentHoveredModel s) (hoveredObject s) (isHovering s) v (clickCount s) (clickTimer s) (timers s) (nextTimer s) (lastClickTime s) (location s) (openedWindows s) (tweens s) (console s).
Definition set_clickCount (v : nat) (s : State) : State :=
  mkState (vecs s) (objs s) (objects s) (models s) (loadedCount s) (currentHoveredModel s) (hoveredObject s) (isHovering s) (pointerCursor s) v (clickTimer s) (timers s) (nextTimer s) (lastClickTime s) (location s) (openedWindows s) (tweens s) (console s).
Definition set_clickTimer (v : option nat) (s : State) : State :=
  mkState (vecs s) (objs s) (objects s) (models s) (loadedCount s) (currentHoveredModel s) (hoveredObject s) (isHovering s) (pointerCursor s) (clickCount s) v (timers s) (nextTimer s) (lastClickTime s) (location s) (openedWindows s) (tweens s) (console s).
Definition set_timers (v : list (nat * Z)) (s : State) : State :=
  mkState (vecs s) (objs s) (objects s) (models s) (loadedCount s) (currentHoveredModel s) (hoveredObject s) (isHovering s) (pointerCursor s) (clickCount s) (clickTimer s) v (nextTimer s) (lastClickTime s) (location s) (openedWindows s) (tweens s) (console s).
Definition set_nextTimer (v : nat) (s : State) : State :=
  mkState (vecs s) (objs s) (objects s) (models s) (loadedCount s) (currentHoveredModel s) (hoveredObject s) (isHovering s) (pointerCursor s) (clickCount s) (clickTimer s) (timers s) v (lastClickTime s) (location s) (openedWindows s) (tweens s) (console s).
Definition set_lastClickTime (v : Z) (s : State) : State :=
  mkState (vecs s) (objs s) (objects s) (models s) (loadedCount s) (currentHoveredModel s) (hoveredObject s) (isHovering s) (pointerCursor s) (clickCount s) (clickTimer s) (timers s) (nextTimer s) v (location s) (openedWindows s) (tweens s) (console s).
Definition set_location (v : option Href) (s : State) : State :=
  mkState (vecs s) (objs s) (objects s) (models s) (loadedCount s) (currentHoveredModel s) (hoveredObject s) (isHovering s) (pointerCursor s) (clickCount s) (clickTimer s) (timers s) (nextTimer s) (lastClickTime s) v (openedWindows s) (tweens s) (console s).
Definition set_openedWindows (v : nat) (s : State) : State :=
  mkState (vecs s) (objs s) (objects s) (models s) (loadedCount s) (currentHoveredModel s) (hoveredObject s) (isHovering s) (pointerCursor s) (clickCount s) (clickTimer s) (timers s) (nextTimer s) (lastClickTime s) (location s) v (tweens s) (console s).
Definition set_tweens (v : list Tween) (s : State) : State :=
  mkState (vecs s) (objs s) (objects s) (models s) (loadedCount s) (currentHoveredModel s) (hoveredObject s) (isHovering s) (pointerCursor s) (clickCount s) (clickTimer s) (timers s) (nextTimer s) (lastClickTime s) (location s) (openedWindows s) v (console s).
Definition set_console (v : list string) (s : State) : State :=
  mkState (vecs s) (objs s) (objects s) (models s) (loadedCount s) (currentHoveredModel s) (hoveredObject s) (isHovering s) (pointerCursor s) (clickCount s) (clickTimer s) (timers s) (nextTimer s) (lastClickTime s) (location s) (openedWindows s) (tweens s) v.

(** Field updates of a node and of its [userData]. *)
Definition with_name (v : string) (o : Object3D) : Object3D :=
  mkObject3D v (parent o) (children o) (position o) (rotation o) (scale o) (userData o).
Definition with_parent (v : option oid) (o : Object3D) : Object3D :=
  mkObject3D (name o) v (children o) (position o) (rotation o) (scale o) (userData o).
Definition with_children (v : list oid) (o : Object3D) : Object3D :=
  mkObject3D (name o) (parent o) v (position o) (rotation o) (scale o) (userData o).
Definition with_userData (f : UserData → UserData) (o : Object3D) : Object3D :=
  mkObject3D (name o) (parent o) (children o) (position o) (rotation o) (scale o)
             (f (userData o)).

Definition ud_name (v : option string) (u : UserData) : UserData :=
  mkUserData v (originalScale u) (originalPosition u) (originalRotation u).
Definition ud_originalScale (v : option float) (u : UserData) : UserData :=
  mkUserData (userData_name u) v (originalPosition u) (originalRotation u).
Definition ud_originalPosition (v : option addr) (u : UserData) : UserData :=
  mkUserData (userData_name u) (originalScale u) v (originalRotation u).
Definition ud_originalRotation (v : option addr) (u : UserData) : UserData :=
  mkUserData (userData_name u) (originalScale u) (originalPosition u) v.

(** ** The store *)

Definition zero3 : Vector3 := mkVector3 0%float 0%float 0%float.
Definition one3 : Vector3 := mkVector3 1%float 1%float 1%float.
Definition uniform (v : float) : Vector3 := mkVector3 v v v.

(** A new object literal [{x, y, z}]. *)
Definition alloc_vec (v : Vector3) (s : State) : addr * State :=
  (length (vecs s), set_vecs (vecs s ++ [v]) s).

(** Reading the fields of an xyz-object.  Addresses handed out by the
    allocator always resolve. *)
Definition vec_get (a : addr) (s : State) : Vector3 :=
  default (mkVector3 PrimFloat.nan PrimFloat.nan PrimFloat.nan) (vecs s !! a).

(** [target.set(x, y, z)], and writes of [x], [y], [z] by the tween
    library. *)
Definition vec_set (a : addr) (v : Vector3) (s : State) : State :=
  set_vecs (<[a := v]> (vecs s)) s.

(** [new THREE.Object3D()] / [new THREE.Group()]: an unnamed, parentless
    node at the identity transform. *)
Definition new_Object3D (s : State) : oid * State :=
  let a := length (vecs s) in
  (length (objs s),
   set_objs (objs s ++ [mkObject3D "" None [] a (a + 1) (a + 2) no_userData])
     (set_vecs (vecs s ++ [zero3; zero3; one3]) s)).

Definition update_obj (id : oid) (f : Object3D → Object3D) (s : State) : State :=
  set_objs (alter f id (objs s)) s.

(** [obj.position.set], [obj.rotation.set], [obj.scale.set]: a write to
    the xyz-object the node owns. *)
Definition vec_set_of (a : option addr) (v : Vector3) (s : State) : State :=
  set_vecs (match a with
            | Some a => <[a := v]> (vecs s)
            | None => vecs s
            end) s.
Definition position_set (id : oid) (v : Vector3) (s : State) : State :=
  vec_set_of (position <$> objs s !! id) v s.
Definition rotation_set (id : oid) (v : Vector3) (s : State) : State :=
  vec_set_of (rotation <$> objs s !! id) v s.
Definition scale_set (id : oid) (v : Vector3) (s : State) : State :=
  vec_set_of (scale <$> objs s !! id) v s.

(** [parent.add(child)] for a parentless [child]. *)
Definition add (p child : oid) (s : State) : State :=
  update_obj child (with_parent (Some p))
    (update_obj p (λ o, with_children (children o ++ [child]) o) s).

(** [template.clone()]: a deep copy.  The copy of a tree occupies a block
    of consecutive nodes, the root first, each node with three fresh
    xyz-objects holding the source's local transform.  [clone_block t par
    ob vb] is the block for [t] placed at node index [ob] and xyz index
    [vb], under parent [par].  The engine copies a rotation through its
    quaternion, which can change the last digits of the Euler angles; the
    block holds the source's angles as they are. *)
Fixpoint clone_block (t : Template) (par : option oid) (ob vb : nat)
  : list Object3D * list Vector3 :=
  match t with
  | TObject nm p r sc cs =>
      let kids :=
        (fix clone_children (cs : list Template) (ob' vb' : nat)
           : list oid * (list Object3D * list Vector3) :=
           match cs with
           | [] => ([], ([], []))
           | c :: cs' =>
               let b := clone_block c (Some ob) ob' vb' in
               let r := clone_children cs' (ob' + length b.1) (vb' + length b.2) in
               (ob' :: r.1, (b.1 ++ r.2.1, b.2 ++ r.2.2))
           end) cs (S ob) (vb + 3) in
      (mkObject3D nm par kids.1 vb (vb + 1) (vb + 2) no_userData :: kids.2.1,
       [p; r; sc] ++ kids.2.2)
  end.

Definition clone (t : Template) (s : State) : oid * State :=
  let b := clone_block t None (length (objs s)) (length (vecs s)) in
  (length (objs s), set_objs (objs s ++ b.1) (set_vecs (vecs s ++ b.2) s)).

(** The scene and the carousel root exist from start-up. *)
Definition scene_id : oid := 0.
Definition carousel : oid := 1.

(** The state after the module has been evaluated: the first call of
    [animate] (line 584) has found nothing to pick and has logged its
    line, then the three debug messages were logged. *)
Definition init : State :=
  mkState
    [zero3; zero3; one3; zero3; zero3; one3]
    [ mkObject3D "" None [carousel] 0 1 2 no_userData;
      mkObject3D "" (Some scene_id) [] 3 4 5 no_userData ]
    [] [] 0 None None false false 0 None [] 1 0 None 0 []
    [ "FPS:"; "Three.js Scene initialized"; "Camera position:"; "Number of objects:" ].

Definition console_log (msg : string) (s : State) : State :=
  set_console (console s ++ [msg]) s.

(** ** createCarousel *)

(** A call either returns or throws; both leave a state behind. *)
Inductive Completion :=
| Returned (s : State)
| Thrown (s : State).

Definition state_of (c : Completion) : State :=
  match c with
  | Returned s => s
  | Thrown s => s
  end.

(** [modelTemplates[i % modelTemplates.length]]: the remainder by zero is
    [NaN], which indexes no element. *)
Definition template_for (modelTemplates : list (option Template)) (i : nat)
  : option (nat * Template) :=
  let n := length modelTemplates in
  if decide (n = 0) then None
  else (λ t, (i mod n, t)) <$> JS.array_get modelTemplates (i mod n).

(** One iteration of the loop of [createCarousel].  The material and
    shadow settings of the traversal are rendering attributes outside the
    state above. *)
Definition create_instance (modelTemplates : list (option Template))
    (i : nat) (config : ModelPosition) (s : State) : Completion :=
  let '(group, s) := new_Object3D s in
  let s := update_obj group (with_name ("carousel-item-" +:+ pretty i)) s in
  let s := update_obj group (with_userData (ud_name (Some (cfg_name config)))) s in
  match template_for modelTemplates i with
  | None => Thrown s
  | Some (modelIndex, template) =>
      let '(model, s) := clone template s in
      let s := update_obj model
                 (with_name ("model-" +:+ pretty i +:+ "-" +:+ pretty modelIndex)) s in
      let scale := JS.or_num (cfg_scale config) MODEL_SCALE in
      let s := scale_set model (uniform scale) s in
      let s := update_obj model (with_userData (ud_originalScale (Some scale))) s in
      let '(position, s) :=
        alloc_vec (mkVector3 (vx (cfg_position config))
                             (JS.or_num (vy (cfg_position config)) 0%float)
                             (vz (cfg_position config))) s in
      let '(rotation, s) :=
        alloc_vec (mkVector3 (JS.or_num (vx (cfg_rotation config)) 0%float)
                             (JS.or_num (vy (cfg_rotation config)) 0%float)
                             (JS.or_num (vz (cfg_rotation config)) 0%float)) s in
      let s := add group model s in
      let s := position_set group (vec_get position s) s in
      let s := rotation_set group (vec_get rotation s) s in
      let s := scale_set group (uniform scale) s in
      let '(position', s) := alloc_vec (vec_get position s) s in
      let s := update_obj group (with_userData (ud_originalPosition (Some position'))) s in
      let '(rotation', s) := alloc_vec (vec_get rotation s) s in
      let s := update_obj group (with_userData (ud_originalRotation (Some rotation'))) s in
      let s := update_obj group (with_userData (ud_originalScale (Some scale))) s in
      let s := add carousel group s in
      let s := set_objects (objects s ++ [group]) s in
      Returned (console_log ("Created model " +:+ pretty i +:+ " at position:") s)
  end.

Fixpoint createCarousel_loop (modelTemplates : list (option Template))
    (i : nat) (configs : list ModelPosition) (s : State) : Completion :=
  match configs with
  | [] => Returned s
  | config :: rest =>
      match create_instance modelTemplates i config s with
      | Returned s' => createCarousel_loop modelTemplates (S i) rest s'
      | Thrown s' => Thrown s'
      end
  end.

Definition createCarousel (modelTemplates : list (option Template)) (s : State)
  : Completion :=
  let s := console_log "Creating carousel with models:" s in
  let s := set_objects [] s in
  createCarousel_loop modelTemplates 0 MODEL_POSITIONS s.

(** ** Picking and hover (handleHover) *)

(** The ancestor walk
    [while (obj && !obj.userData.originalPosition) obj = obj.parent],
    bounded by the number of nodes.  The result is the node the walk stops
    at when that node carries the [originalPosition] tag. *)
Fixpoint find_root (fuel : nat) (s : State) (obj : oid) : option oid :=
  match fuel with
  | O => None
  | S fuel' =>
      match objs s !! obj with
      | None => None
      | Some o =>
          match originalPosition (userData o) with
          | Some _ => Some obj
          | None =>
              match parent o with
              | Some p => find_root fuel' s p
              | None => None
              end
          end
      end
  end.

(** The first intersection, in the order given by the ray caster, that
    lies under a tagged model root. *)
Fixpoint pick_model (s : State) (intersects : list oid) : option oid :=
  match intersects with
  | [] => None
  | obj :: rest =>
      match find_root (length (objs s)) s obj with
      | Some model => Some model
      | None => pick_model s rest
      end
  end.

(** [gsap.to(obj.scale, { x: v, y: v, z: v, duration: 0.3, ... })]. *)
Definition gsap_to_scale (obj : oid) (v : option float) (ease : option string)
    (onComplete : bool) (s : State) : State :=
  match objs s !! obj with
  | Some o =>
      set_tweens (tweens s ++ [mkTween (scale o) v v v 0.3%float ease onComplete]) s
  | None => s
  end.

Definition userData_of (s : State) (obj : oid) : UserData :=
  match objs s !! obj with
  | Some o => userData o
  | None => no_userData
  end.

(** The three places where the hovered model is tweened back:
    [x], [y], [z] are [currentHoveredModel.userData.originalScale]. *)
Definition reset_hovered (c : oid) (s : State) : State :=
  gsap_to_scale c (originalScale (userData_of s c)) (Some "power2.out") false s.

Definition unhover (c : oid) (s : State) : State :=
  set_pointerCursor false (set_currentHoveredModel None (reset_hovered c s)).

Definition handleHover (intersects : list oid) (s : State) : State :=
  match intersects with
  | _ :: _ =>
      match pick_model s intersects with
      | Some model =>
          if decide (currentHoveredModel s = Some model) then s
          else
            let s := match currentHoveredModel s with
                     | Some c => reset_hovered c s
                     | None => s
                     end in
            let s := set_currentHoveredModel (Some model) s in
            let s :=
              match objs s !! model with
              | Some o =>
                  if JS.truthy_ostr (userData_name (userData o)) then s
                  else update_obj model
                         (with_userData (ud_name (Some (JS.or_str (Some (name o)) "")))) s
              | None => s
              end in
            let s := set_pointerCursor true s in
            let hoverScale :=
              PrimFloat.mul (JS.to_number (originalScale (userData_of s model)))
                            1.1%float in
            gsap_to_scale model (Some hoverScale) (Some "power2.out") false s
      | None =>
          match currentHoveredModel s with
          | Some c => unhover c s
          | None => s
          end
      end
  | [] =>
      match currentHoveredModel s with
      | Some c => unhover c s
      | None => s
      end
  end.

(** ** Clicks *)

(** [userData.name || (children[0]?.name || '').toLowerCase()] *)
Definition modelName_of (s : State) (o : Object3D) : string :=
  let fallback :=
    JS.toLowerCase
      (JS.or_str (name <$> (head (children o) ≫= λ c, objs s !! c)) "") in
  JS.or_str (userData_name (userData o)) fallback.

Definition pageName_of (modelName : string) : JS.propval :=
  let v := JS.get modelPages modelName in
  if JS.truthy v then v else JS.Str "index".

Definition onModelClick (s : State) : State :=
  match currentHoveredModel s with
  | Some c =>
      match objs s !! c with
      | Some o =>
          let modelName := modelName_of s o in
          let pageName := pageName_of modelName in
          set_location (Some (html_of pageName)) s
      | None => s
      end
  | None => s
  end.

(** Timers.  [setTimeout] returns a fresh positive handle; [clearTimeout]
    drops the pending timer with that handle, if any. *)
Definition setTimeout (now delay : Z) (s : State) : nat * State :=
  (nextTimer s,
   set_nextTimer (S (nextTimer s)) (set_timers (timers s ++ [(nextTimer s, (now + delay)%Z)]) s)).

Definition clearTimeout (h : option nat) (s : State) : State :=
  match h with
  | Some h => set_timers (filter (λ p, p.1 ≠ h) (timers s)) s
  | None => s
  end.

(** A timer handle is a number: [if (clickTimer)] fails for [null] and
    for [0]. *)
Definition truthy_handle (h : option nat) : bool :=
  match h with
  | Some h => negb (h =? 0)%nat
  | None => false
  end.

(** The callback of the single-click timer. *)
Definition clickTimer_fired (s : State) : State :=
  set_clickTimer None (set_clickCount 0 s).

Definition onMouseClick (now : Z) (onContactButton : bool) (s : State) : State :=
  if onContactButton then s
  else
    let s := set_clickCount (S (clickCount s)) s in
    let s := if truthy_handle (clickTimer s) then clearTimeout (clickTimer s) s else s in
    if decide (clickCount s = 1) then
      let '(h, s) := setTimeout now 300 s in
      set_clickTimer (Some h) s
    else
      let s := clearTimeout (clickTimer s) s in
      let s := set_clickCount 0 s in
      let s := set_clickTimer None s in
      match currentHoveredModel s with
      | Some _ => onModelClick s
      | None => s
      end.

(** The second [click] listener, which compares time stamps. *)
Definition onWindowClick (now : Z) (intersects : list oid) (s : State) : State :=
  match intersects with
  | _ :: _ =>
      let s :=
        if decide (now - lastClickTime s < doubleClickThreshold)%Z
        then set_openedWindows (S (openedWindows s)) s
        else s in
      set_lastClickTime now s
  | [] => s
  end.

(** ** Other listeners *)

(** [mouseout]; [leaving] is the test on [event.relatedTarget]. *)
Definition onMouseOut (leaving : bool) (s : State) : State :=
  if leaving then
    match currentHoveredModel s with
    | Some c =>
        let originalScale :=
          JS.or_num (JS.to_number (originalScale (userData_of s c))) MODEL_SCALE in
        gsap_to_scale c (Some originalScale) (Some "power2.out") true s
    | None => s
    end
  else s.

Definition onBlur (s : State) : State :=
  match hoveredObject s with
  | Some h =>
      match objs s !! h ≫= (λ o, head (children o)) with
      | Some model =>
          let originalScale :=
            JS.or_num (JS.to_number (originalScale (userData_of s model))) MODEL_SCALE in
          let s := gsap_to_scale model (Some originalScale) None false s in
          set_isHovering false (set_hoveredObject None s)
      | None => s
      end
  | None => s
  end.

(** The part of [animate] that acts on the state, from the result
    [intersects] of its cast on: the per-frame pick and the debug log
    line.  The cast itself, [raycaster.intersectObjects(objects, false)],
    is [intersectObjects] below, and [render_frame] is the two together. *)
Definition animate (intersects : list oid) (s : State) : State :=
  let s :=
    match intersects with
    | first :: _ =>
        let s := match hoveredObject s with
                 | Some h => if decide (h = first) then s else scale_set h one3 s
                 | None => s
                 end in
        let s := set_hoveredObject (Some first) s in
        scale_set first (uniform 1.08%float) s
    | [] =>
        match hoveredObject s with
        | Some h => set_hoveredObject None (scale_set h one3 s)
        | None => s
        end
    end in
  console_log "FPS:" s.

(** ** Ray casting *)

(** [obj] is one of [candidates], or lies under one of them in the scene
    graph. *)
Fixpoint under (fuel : nat) (s : State) (candidates : list oid) (obj : oid) : bool :=
  match fuel with
  | O => false
  | S fuel' =>
      bool_decide (obj ∈ candidates) ||
      match objs s !! obj ≫= parent with
      | Some p => under fuel' s candidates p
      | None => false
      end
  end.

(** [raycaster.intersectObjects(candidates, recursive)].  The ray of the
    cursor is given by [ray], the nodes whose own geometry it crosses,
    nearest first.  The cast tests the geometry of each candidate itself,
    and that of the candidates' descendants only when [recursive] is
    set. *)
Definition intersectObjects (s : State) (candidates : list oid) (recursive : bool)
    (ray : list oid) : list oid :=
  filter (λ h, (if recursive then under (length (objs s)) s candidates h
                else bool_decide (h ∈ candidates)) = true) ray.


(** ** loadModels *)

(** The completion callback of [loader.load(path, ...)] for path [index]. *)
Definition onLoad (index : nat) (scene : Template) (s : State) : State :=
  let s := set_models (JS.array_set (models s) index scene) s in
  let s := set_loadedCount (S (loadedCount s)) s in
  if decide (loadedCount s = length MODEL_PATHS)
  then state_of (createCarousel (models s) s)
  else s.

(** ** The tween library *)

(** A running tween writes interpolated values to its target, and on
    completion the end values that are numbers.  The tween library rounds
    what it writes to a few decimals; the end values are written here as
    requested. *)
Definition tween_update (k : nat) (v : Vector3) (s : State) : State :=
  match tweens s !! k with
  | Some tw => vec_set (tw_target tw) v s
  | None => s
  end.

Definition tween_complete (k : nat) (s : State) : State :=
  match tweens s !! k with
  | Some tw =>
      let cur := vec_get (tw_target tw) s in
      let s := vec_set (tw_target tw)
                 (mkVector3 (default (vx cur) (tw_x tw)) (default (vy cur) (tw_y tw))
                            (default (vz cur) (tw_z tw))) s in
      if tw_onComplete tw then set_currentHoveredModel None s else s
  | None => s
  end.

(** ** The event loop *)

Inductive Event :=
| Loaded (index : nat) (scene : Template)
| LoadFailed (index : nat)
| MouseMove (intersects : list oid)
| Click (onContactButton : bool) (intersects : list oid)
| Timeout (handle : nat)
| MouseOut (leaving : bool)
| Blur
| Frame (intersects : list oid)
| TweenUpdate (k : nat) (v : Vector3)
| TweenComplete (k : nat).

(** A pending timer fires no earlier than its due time. *)
Definition fire_timer (now : Z) (h : nat) (s : State) : State :=
  match list_find (λ p, p.1 = h) (timers s) with
  | Some (_, (_, due)) =>
      if decide (due ≤ now)%Z
      then clickTimer_fired (clearTimeout (Some h) s)
      else s
  | None => s
  end.

(** One event at time [now] (milliseconds).  [loader.load] is called with
    a completion callback only, so a failed load runs no code of the
    script.  Both [click] listeners run, in registration order.  A frame
    carries the result of its cast; the frames of the program are singled
    out by [program_frames]. *)
Definition step (now : Z) (e : Event) (s : State) : State :=
  match e with
  | Loaded index scene => onLoad index scene s
  | LoadFailed _ => s
  | MouseMove intersects => handleHover intersects s
  | Click onContactButton intersects =>
      onWindowClick now intersects (onMouseClick now onContactButton s)
  | Timeout h => fire_timer now h s
  | MouseOut leaving => onMouseOut leaving s
  | Blur => onBlur s
  | Frame intersects => animate intersects s
  | TweenUpdate k v => tween_update k v s
  | TweenComplete k => tween_complete k s
  end.

Fixpoint run (trace : list (Z * Event)) (s : State) : State :=
  match trace with
  | [] => s
  | (now, e) :: rest => run rest (step now e s)
  end.

(** ** Orbit controls *)

(** The drag listeners of the controls keep variables of their own, which
    no other handler of the script reads. *)

(** [Math.sign]: [1], [-1], or the argument itself when it is a zero or
    [NaN]. *)
Definition Math_sign (x : float) : float :=
  match PrimFloat.compare x 0%float with
  | FGt => 1%float
  | FLt => (-1)%float
  | FEq => x
  | FNotComparable => x
  end.

(** The rotation control variables and the auto-rotation speed of the
    orbit controls. *)
Record Controls := mkControls {
  rotationDirection : float;
  lastAzimuthalAngle : float;
  isDragging : bool;
  autoRotateSpeed : float
}.

(** The [start] and [end] listeners of the controls; the argument is the
    value of [controls.getAzimuthalAngle()]. *)
Definition onControlsStart (angle : float) (c : Controls) : Controls :=
  mkControls (rotationDirection c) angle true (autoRotateSpeed c).

Definition onControlsEnd (currentAngle : float) (c : Controls) : Controls :=
  let rotationDirection :=
    PrimFloat.opp (Math_sign (PrimFloat.sub currentAngle (lastAzimuthalAngle c))) in
  let rotationDirection :=
    if PrimFloat.eqb rotationDirection 0%float then 1%float else rotationDirection in
  mkControls rotationDirection (lastAzimuthalAngle c) false
    (PrimFloat.mul 2.0%float rotationDirection).

(** ** Auxiliary definitions for the proofs *)

(** The children of a cloned node, as a function of its own: the inner
    loop of [clone_block]. *)
Fixpoint clone_children (par : oid) (cs : list Template) (ob vb : nat)
  : list oid * (list Object3D * list Vector3) :=
  match cs with
  | [] => ([], ([], []))
  | c :: cs' =>
      let b := clone_block c (Some par) ob vb in
      let r := clone_children par cs' (ob + length b.1) (vb + length b.2) in
      (ob :: r.1, (b.1 ++ r.2.1, b.2 ++ r.2.2))
  end.

(** A state with the two heaps replaced. *)
Definition with_heap (V : list Vector3) (O : list Object3D) (s : State) : State :=
  set_objs O (set_vecs V s).

(** The values computed from a configuration entry in [createCarousel]:
    the local objects [position] and [rotation], and [scale]. *)
Definition position_of (config : ModelPosition) : Vector3 :=
  mkVector3 (vx (cfg_position config))
            (JS.or_num (vy (cfg_position config)) 0%float)
            (vz (cfg_position config)).
Definition rotation_of (config : ModelPosition) : Vector3 :=
  mkVector3 (JS.or_num (vx (cfg_rotation config)) 0%float)
            (JS.or_num (vy (cfg_rotation config)) 0%float)
            (JS.or_num (vz (cfg_rotation config)) 0%float).
Definition scale_of (config : ModelPosition) : float :=
  JS.or_num (cfg_scale config) MODEL_SCALE.

(** An address is an original of node [o] when [o.userData] stores it as
    [originalPosition] or [originalRotation]. *)
Definition is_original (o : Object3D) (a : addr) : Prop :=
  originalPosition (userData o) = Some a ∨ originalRotation (userData o) = Some a.

(** An address is live for node [o] when it is the node's own [position],
    [rotation] or [scale] object. *)
Definition is_live (o : Object3D) (a : addr) : Prop :=
  a = position o ∨ a = rotation o ∨ a = scale o.

(** Well-formedness of the store: the carousel root exists; every address
    held by a node is allocated; no stored original is the live transform
    object of any node; parents are older than their children; tweens
    animate the scale object of some node. *)
Record heap_inv (s : State) : Prop := mk_heap_inv {
  inv_carousel : carousel < length (objs s);
  inv_live : ∀ id o a, objs s !! id = Some o → is_live o a → a < length (vecs s);
  inv_orig : ∀ id o a, objs s !! id = Some o → is_original o a → a < length (vecs s);
  inv_sep : ∀ id o id' o' a,
      objs s !! id = Some o → objs s !! id' = Some o' →
      is_original o a → ¬ is_live o' a;
  inv_parent : ∀ id o q, objs s !! id = Some o → parent o = Some q → q < id;
  inv_tweens : ∀ tw, tw ∈ tweens s → ∃ id o, objs s !! id = Some o ∧ tw_target tw = scale o
}.

(** What every step keeps of a node: its transform objects, its parent,
    its stored originals, and a truthy [userData.name]. *)
Record node_kept (o o' : Object3D) : Prop := mk_node_kept {
  kept_position : position o' = position o;
  kept_rotation : rotation o' = rotation o;
  kept_scale : scale o' = scale o;
  kept_parent : parent o' = parent o;
  kept_originalScale : originalScale (userData o') = originalScale (userData o);
  kept_originalPosition : originalPosition (userData o') = originalPosition (userData o);
  kept_originalRotation : originalRotation (userData o') = originalRotation (userData o);
  kept_name : JS.truthy_ostr (userData_name (userData o)) = true →
              userData_name (userData o') = userData_name (userData o)
}.

(** [evolves s s']: every node of [s] is kept in [s'], and the contents of
    the stored originals are the same. *)
Definition evolves (s s' : State) : Prop :=
  (∀ id o, objs s !! id = Some o → ∃ o', objs s' !! id = Some o' ∧ node_kept o o') ∧
  (∀ id o a, objs s !! id = Some o → is_original o a → vecs s' !! a = vecs s !! a).

(** Node [m] is the instance built for slot [i] of [MODEL_POSITIONS]: its
    [userData] holds the name and the values computed from that entry. *)
Definition instance_ok (s : State) (i : nat) (m : oid) : Prop :=
  ∃ config o a b,
    MODEL_POSITIONS !! i = Some config ∧
    objs s !! m = Some o ∧
    userData o = mkUserData (Some (cfg_name config)) (Some (scale_of config))
                            (Some a) (Some b) ∧
    vecs s !! a = Some (position_of config) ∧
    vecs s !! b = Some (rotation_of config).

Definition instances_ok (s : State) : Prop :=
  ∀ i m, objects s !! i = Some m → instance_ok s i m.

(** Node [g] is placed as slot [i] of [MODEL_POSITIONS] prescribes: a
    child of the carousel root at the position, rotation and scale computed
    from that entry, holding one model root whose own scale is that scale
    too. *)
Definition placed (s : State) (i : nat) (g : oid) : Prop :=
  ∃ config group m model,
    MODEL_POSITIONS !! i = Some config ∧
    objs s !! g = Some group ∧ parent group = Some carousel ∧ children group = [m] ∧
    objs s !! m = Some model ∧ parent model = Some g ∧
    vecs s !! position group = Some (position_of config) ∧
    vecs s !! rotation group = Some (rotation_of config) ∧
    vecs s !! scale group = Some (uniform (scale_of config)) ∧
    vecs s !! scale model = Some (uniform (scale_of config)).

(** The path indices whose load completed, in order of completion. *)
Fixpoint loads (trace : list (Z * Event)) : list nat :=
  match trace with
  | [] => []
  | (_, Loaded index _) :: rest => index :: loads rest
  | _ :: rest => loads rest
  end.

(** The loader's contract: [loadModels] starts one load per entry of
    [MODEL_PATHS], and a load calls its completion callback at most once. *)
Definition loader_ok (trace : list (Z * Event)) : Prop :=
  NoDup (loads trace) ∧ ∀ index, index ∈ loads trace → index < length MODEL_PATHS.

Definition is_click (e : Event) : bool :=
  match e with
  | Click _ _ => true
  | _ => false
  end.

(** The composite scale of a node: the componentwise product of the local
    scales along its ancestor chain (the scales in this scene are
    uniform). *)
Definition mul3 (u v : Vector3) : Vector3 :=
  mkVector3 (PrimFloat.mul (vx u) (vx v)) (PrimFloat.mul (vy u) (vy v))
            (PrimFloat.mul (vz u) (vz v)).

Fixpoint world_scale (fuel : nat) (s : State) (id : oid) : Vector3 :=
  match fuel with
  | O => one3
  | S fuel' =>
      match objs s !! id with
      | None => one3
      | Some o =>
          let local := vec_get (scale o) s in
          match parent o with
          | Some p => mul3 (world_scale fuel' s p) local
          | None => local
          end
      end
  end.

(** The page table as the specification words it: a fixed table with a
    default. *)
Definition spec_page (modelName : string) : string :=
  default "index" (modelPages !! modelName).

(** The shape of a cloned block placed at node index [ob] and xyz index
    [vb]: node [j] of the block owns the three xyz-objects from
    [vb + 3 * j], carries no [userData], and its parent, if any, is older
    than itself. *)
Definition block_shape (ob vb : nat) (b : list Object3D * list Vector3) : Prop :=
  length b.2 = 3 * length b.1 ∧
  ∀ j o, b.1 !! j = Some o →
    userData o = no_userData ∧
    position o = vb + 3 * j ∧ rotation o = vb + 3 * j + 1 ∧ scale o = vb + 3 * j + 2 ∧
    ∀ q, parent o = Some q → q < ob + j.

(** The group and the model root that iteration [i] leaves in the store. *)
Definition group_node (i : nat) (config : ModelPosition) (g a n : nat) : Object3D :=
  mkObject3D ("carousel-item-" +:+ pretty i) (Some carousel) [g + 1]
    a (a + 1) (a + 2)
    (mkUserData (Some (cfg_name config)) (Some (scale_of config))
       (Some (a + 6 + n + 2)) (Some (a + 6 + n + 3))).

Definition model_node (i k : nat) (config : ModelPosition) (g a : nat)
    (kids : list oid) : Object3D :=
  mkObject3D ("model-" +:+ pretty i +:+ "-" +:+ pretty k) (Some g) kids
    (a + 3) (a + 4) (a + 5)
    (mkUserData None (Some (scale_of config)) None None).

Definition instance_state (i k : nat) (config : ModelPosition)
    (p r : Vector3) (cs : list Template) (s : State) : State :=
  let g := length (objs s) in
  let a := length (vecs s) in
  let kids := clone_children (g + 1) cs (S (g + 1)) (a + 6) in
  let P := position_of config in
  let R := rotation_of config in
  let U := uniform (scale_of config) in
  with_heap
    (vecs s ++ P :: R :: U :: p :: r :: U :: kids.2.2 ++ [P; R; P; R])
    (alter (λ o, with_children (children o ++ [g]) o) carousel (objs s) ++
     group_node i config g a (length kids.2.2)
     :: model_node i k config g a kids.1 :: kids.2.1)
    (console_log ("Created model " +:+ pretty i +:+ " at position:")
       (set_objects (objects s ++ [g]) s)).

(** A quiet step allocates nothing, keeps every node, writes only to live
    transform objects, and adds only tweens on scale objects. *)
Record quiet (s s' : State) : Prop := mk_quiet {
  q_len_objs : length (objs s') = length (objs s);
  q_nodes : ∀ id o, objs s !! id = Some o → ∃ o', objs s' !! id = Some o' ∧ node_kept o o';
  q_len_vecs : length (vecs s') = length (vecs s);
  q_cells : ∀ a, (∀ id o, objs s !! id = Some o → ¬ is_live o a) →
                 vecs s' !! a = vecs s !! a;
  q_tweens : ∀ tw, tw ∈ tweens s' →
                   tw ∈ tweens s ∨ ∃ id o, objs s !! id = Some o ∧ tw_target tw = scale o
}.

(** The tween that resets node [o] to its recorded original scale. *)
Definition reset_tween (o : Object3D) : Tween :=
  mkTween (scale o) (originalScale (userData o)) (originalScale (userData o))
          (originalScale (userData o)) 0.3%float (Some "power2.out") false.

(** The tween that scales node [o] up to 1.1 times its recorded original
    scale. *)
Definition hover_tween (o : Object3D) : Tween :=
  let hoverScale := PrimFloat.mul (JS.to_number (originalScale (userData o))) 1.1%float in
  mkTween (scale o) (Some hoverScale) (Some hoverScale) (Some hoverScale)
          0.3%float (Some "power2.out") false.

(** The dispatcher is idle, or one click is counted and its timer is the
    only pending one. *)
Definition click_inv (s : State) : Prop :=
  (clickCount s = 0 ∧ clickTimer s = None ∧ timers s = []) ∨
  (clickCount s = 1 ∧ ∃ h due, clickTimer s = Some h ∧ timers s = [(h, due)]).

(** The variables, other than the two heaps and [objects], that
    [createCarousel] leaves alone. *)
Record same_controls (s s' : State) : Prop := mk_same_controls {
  sc_currentHoveredModel : currentHoveredModel s' = currentHoveredModel s;
  sc_hoveredObject : hoveredObject s' = hoveredObject s;
  sc_clickCount : clickCount s' = clickCount s;
  sc_clickTimer : clickTimer s' = clickTimer s;
  sc_timers : timers s' = timers s;
  sc_nextTimer : nextTimer s' = nextTimer s;
  sc_lastClickTime : lastClickTime s' = lastClickTime s;
  sc_location : location s' = location s;
  sc_openedWindows : openedWindows s' = openedWindows s;
  sc_tweens : tweens s' = tweens s;
  sc_models : models s' = models s;
  sc_loadedCount : loadedCount s' = loadedCount s
}.

(** [createCarousel] has been called: its first statement has logged. *)
Definition built (s : State) : Prop :=
  "Creating carousel with models:" ∈ console s.

(** The state of the loader after a trace: the counter counts the
    completed loads, [models] holds exactly their slots, and the carousel
    is built exactly when the counter has reached the number of paths. *)
Record loader_inv (tr : list (Z * Event)) (s : State) : Prop := mk_loader_inv {
  li_count : loadedCount s = length (loads tr);
  li_models : ∀ j, is_Some (JS.array_get (models s) j) ↔ j ∈ loads tr;
  li_length : (length (models s) ≤ length MODEL_PATHS)%nat;
  li_state :
    (loadedCount s < length MODEL_PATHS ∧ objects s = [] ∧ ¬ built s) ∨
    (loadedCount s = length MODEL_PATHS ∧
     length (objects s) = length MODEL_POSITIONS ∧ built s)
}.

(** The contents of a node's own transform objects. *)
Definition position_at (s : State) (id : oid) : option Vector3 :=
  (λ o, vec_get (position o) s) <$> objs s !! id.
Definition rotation_at (s : State) (id : oid) : option Vector3 :=
  (λ o, vec_get (rotation o) s) <$> objs s !! id.
Definition scale_at (s : State) (id : oid) : option Vector3 :=
  (λ o, vec_get (scale o) s) <$> objs s !! id.

(** Sample assets and sample traces. *)
Definition cube : Template :=
  TObject "Scene" zero3 zero3 one3
    [ TObject "Body" zero3 zero3 (uniform 0.5%float) [];
      TObject "Knob" (mkVector3 0%float 1%float 0%float) zero3 one3 [] ].

Definition all_loaded : list (Z * Event) :=
  [ (10%Z, Loaded 1 cube); (20%Z, Loaded 0 cube); (30%Z, Loaded 2 cube) ].

(** A ray crosses geometry only.  The entries of [objects] are made by
    [new THREE.Group()] (line 224); a group has no geometry of its own, so
    no ray lists one. *)
Definition crosses_geometry (s : State) (ray : list oid) : Prop :=
  ∀ h, h ∈ ray → h ∉ objects s.

(** The traces of the program: the result reported to every frame is that
    of the cast of [animate], for some ray. *)
Fixpoint program_frames (trace : list (Z * Event)) (s : State) : Prop :=
  match trace with
  | [] => True
  | (now, e) :: rest =>
      (∀ intersects, e = Frame intersects →
         ∃ ray, crosses_geometry s ray ∧
                intersects = intersectObjects s (objects s) false ray) ∧
      program_frames rest (step now e s)
  end.

(** A sample trace of the program: the loads, a mouse move on the first
    instance, and a frame of the render loop. *)
Definition hovered_frame : list (Z * Event) :=
  all_loaded ++ [(40%Z, MouseMove [4]); (50%Z, Frame [])].

(** The ancestor walk of [handleHover] as a relation: [walk s obj r] when
    following parent links from [obj] through untagged nodes ends at the
    tagged node [r]. *)
Inductive walk (s : State) : oid → oid → Prop :=
| walk_stop obj o :
    objs s !! obj = Some o → is_Some (originalPosition (userData o)) → walk s obj obj
| walk_up obj o p r :
    objs s !! obj = Some o → originalPosition (userData o) = None →
    parent o = Some p → walk s p r → walk s obj r.

(** The carousel root's children are the instances, each instance has the
    carousel root as parent, and only instances carry the
    [originalPosition] tag. *)
Record graph_inv (s : State) : Prop := mk_graph_inv {
  gi_children : children <$> objs s !! carousel = Some (objects s);
  gi_parent : ∀ g, g ∈ objects s → parent <$> objs s !! g = Some (Some carousel);
  gi_tagged : ∀ id o, objs s !! id = Some o →
                      is_Some (originalPosition (userData o)) → id ∈ objects s
}.

(** The scene graph, the hover target and the load counter together: the
    hover target is an instance, and there are no instances before the
    counter reaches the number of paths. *)
Record scene_inv (s : State) : Prop := mk_scene_inv {
  si_graph : graph_inv s;
  si_hover : ∀ c, currentHoveredModel s = Some c → c ∈ objects s;
  si_unbuilt : loadedCount s < length MODEL_PATHS → objects s = []
}.

(** The location is unassigned or one of the three mapped pages. *)
Definition nav_ok (s : State) : Prop :=
  location s = None ∨
  ∃ page, page ∈ ["LI1-new"; "Shinkansen-new"; "Kid-Synth-new"] ∧
          location s = Some (HrefText (page +:+ ".html")).

(** The two assignments that open the completion callback of a load. *)
Definition after_load (index : nat) (scene : Template) (s : State) : State :=
  set_loadedCount (S (loadedCount s)) (set_models (JS.array_set (models s) index scene) s).

(** Clicks whose rays hit, each less than 300 ms after the one before. *)
Fixpoint rapid_hits (last : Z) (clicks : list (Z * Event)) : Prop :=
  match clicks with
  | [] => True
  | (now, e) :: rest =>
      (now - last < doubleClickThreshold)%Z ∧
      (∃ onContactButton first more, e = Click onContactButton (first :: more)) ∧
      rapid_hits now rest
  end.

(** How often [createCarousel] has been entered: the occurrences of the
    message its first statement logs. *)
Definition carousel_calls (s : State) : nat :=
  length (filter (λ msg, msg = "Creating carousel with models:") (console s)).

(** The layout of the xyz-objects: a node's three transform objects are
    allocated together, later nodes own later objects, and the originals a
    node stores are a later pair of objects that precedes the transform
    objects of every later tagged node. *)
Record cells_inv (s : State) : Prop := mk_cells_inv {
  ci_block : ∀ id o, objs s !! id = Some o →
      rotation o = position o + 1 ∧ scale o = position o + 2;
  ci_order : ∀ id id' o o', objs s !! id = Some o → objs s !! id' = Some o' →
      id < id' → scale o < position o';
  ci_orig : ∀ id o p, objs s !! id = Some o → originalPosition (userData o) = Some p →
      originalRotation (userData o) = Some (p + 1) ∧ scale o < p;
  ci_orig_rot : ∀ id o r, objs s !! id = Some o → originalRotation (userData o) = Some r →
      is_Some (originalPosition (userData o));
  ci_orig_order : ∀ id id' o o' p, objs s !! id = Some o → objs s !! id' = Some o' →
      id < id' → originalPosition (userData o) = Some p →
      is_Some (originalPosition (userData o')) → p + 1 < position o'
}.

(** * Proofs *)

(** ** List rules for the two heaps *)

Section list_rules.
Context {A : Type}.
Implicit Types (x y : A) (l : list A) (f : A → A).

Lemma lookup_app_plus l1 l2 i : (l1 ++ l2) !! (length l1 + i) = l2 !! i.
Proof. rewrite lookup_app_r by lia. f_equal. lia. Qed.
Lemma lookup_app_len l1 l2 : (l1 ++ l2) !! (length l1) = l2 !! 0.
Proof. rewrite <- (lookup_app_plus l1 l2 0). f_equal. lia. Qed.
Lemma alter_app_len f l1 l2 : alter f (length l1) (l1 ++ l2) = l1 ++ alter f 0 l2.
Proof. rewrite <- (alter_app_r f l1 l2 0). f_equal. lia. Qed.
Lemma insert_app_len x l1 l2 : <[length l1 := x]> (l1 ++ l2) = l1 ++ <[0 := x]> l2.
Proof. rewrite <- (insert_app_r l1 l2 0 x). f_equal. lia. Qed.
Lemma lookup_cons_O x l : (x :: l) !! 0 = Some x.
Proof. done. Qed.
Lemma lookup_cons_S x l i : (x :: l) !! S i = l !! i.
Proof. done. Qed.
Lemma alter_cons_O f x l : alter f 0 (x :: l) = f x :: l.
Proof. done. Qed.
Lemma alter_cons_S f x l i : alter f (S i) (x :: l) = x :: alter f i l.
Proof. done. Qed.
Lemma insert_cons_O x y l : <[0 := y]> (x :: l) = y :: l.
Proof. done. Qed.
Lemma insert_cons_S x y l i : <[S i := y]> (x :: l) = x :: <[i := y]> l.
Proof. done. Qed.
End list_rules.

Ltac heap_norm :=
  repeat first
    [ rewrite <- app_assoc
    | rewrite length_app
    | rewrite length_alter
    | rewrite length_insert
    | rewrite <- Nat.add_assoc
    | rewrite lookup_app_plus
    | rewrite lookup_app_len
    | rewrite alter_app_r
    | rewrite alter_app_len
    | rewrite insert_app_r
    | rewrite insert_app_len
    | rewrite lookup_cons_O
    | rewrite lookup_cons_S
    | rewrite alter_cons_O
    | rewrite alter_cons_S
    | rewrite insert_cons_O
    | rewrite insert_cons_S
    | progress cbv beta iota zeta delta
        [with_name with_parent with_children with_userData
         ud_name ud_originalScale ud_originalPosition ud_originalRotation no_userData]
    | progress cbn [length app Nat.add fmap option_fmap option_map default from_option
                    scale position rotation name parent children userData
                    userData_name originalScale originalPosition originalRotation fst snd] ].

(** ** The store operations on a state in heap form *)

Section heap_form.
Implicit Types (V : list Vector3) (O : list Object3D) (s : State).

Lemma with_heap_eta s : s = with_heap (vecs s) (objs s) s.
Proof. by destruct s. Qed.
Lemma new_Object3D_heap V O s :
  new_Object3D (with_heap V O s) =
  (length O,
   with_heap (V ++ [zero3; zero3; one3])
     (O ++ [mkObject3D "" None [] (length V) (length V + 1) (length V + 2) no_userData])
     s).
Proof. reflexivity. Qed.
Lemma update_obj_heap id f V O s :
  update_obj id f (with_heap V O s) = with_heap V (alter f id O) s.
Proof. reflexivity. Qed.
Lemma clone_heap t V O s :
  clone t (with_heap V O s) =
  (length O,
   with_heap (V ++ (clone_block t None (length O) (length V)).2)
             (O ++ (clone_block t None (length O) (length V)).1) s).
Proof. reflexivity. Qed.
Lemma alloc_vec_heap v V O s :
  alloc_vec v (with_heap V O s) = (length V, with_heap (V ++ [v]) O s).
Proof. reflexivity. Qed.
Lemma vec_get_heap a V O s :
  vec_get a (with_heap V O s) =
  default (mkVector3 PrimFloat.nan PrimFloat.nan PrimFloat.nan) (V !! a).
Proof. reflexivity. Qed.
Lemma scale_set_heap id v V O s :
  scale_set id v (with_heap V O s) =
  with_heap (match scale <$> O !! id with Some a => <[a := v]> V | None => V end) O s.
Proof. reflexivity. Qed.
Lemma position_set_heap id v V O s :
  position_set id v (with_heap V O s) =
  with_heap (match position <$> O !! id with Some a => <[a := v]> V | None => V end) O s.
Proof. reflexivity. Qed.
Lemma rotation_set_heap id v V O s :
  rotation_set id v (with_heap V O s) =
  with_heap (match rotation <$> O !! id with Some a => <[a := v]> V | None => V end) O s.
Proof. reflexivity. Qed.
Lemma add_heap p c V O s :
  add p c (with_heap V O s) =
  with_heap V
    (alter (with_parent (Some p)) c
       (alter (λ o, with_children (children o ++ [c]) o) p O)) s.
Proof. reflexivity. Qed.
Lemma set_objects_heap l V O s :
  set_objects l (with_heap V O s) = with_heap V O (set_objects l s).
Proof. reflexivity. Qed.
Lemma console_log_heap m V O s :
  console_log m (with_heap V O s) = with_heap V O (console_log m s).
Proof. reflexivity. Qed.
Lemma objects_heap V O s : objects (with_heap V O s) = objects s.
Proof. reflexivity. Qed.
End heap_form.

(** ** Cloning *)

Lemma clone_block_unfold nm p r sc cs par ob vb :
  clone_block (TObject nm p r sc cs) par ob vb =
  let kids := clone_children ob cs (S ob) (vb + 3) in
  (mkObject3D nm par kids.1 vb (vb + 1) (vb + 2) no_userData :: kids.2.1,
   [p; r; sc] ++ kids.2.2).
Proof.
  cbn [clone_block].
  match goal with
  | |- context [(fix F (l : list Template) (a b : nat) {struct l} := _) cs (S ob) (vb + 3)] =>
      set (inner := (fix F (l : list Template) (a b : nat) {struct l}
                       : list oid * (list Object3D * list Vector3) := _))
  end.
  assert (Heq : ∀ l a b, inner l a b = clone_children ob l a b).
  { induction l as [|c l IH]; intros a b; [done|].
    cbn [clone_children]. rewrite <- IH. reflexivity. }
  by rewrite Heq.
Qed.

Lemma Template_ind' (P : Template → Prop) :
  (∀ nm p r sc cs, Forall P cs → P (TObject nm p r sc cs)) → ∀ t, P t.
Proof.
  intros Hnode. fix IH 1. intros [nm p r sc cs]. apply Hnode.
  induction cs as [|c cs IHcs]; constructor; [apply IH | apply IHcs].
Qed.

Lemma block_shape_app ob vb b1 b2 :
  block_shape ob vb b1 →
  block_shape (ob + length b1.1) (vb + length b1.2) b2 →
  block_shape ob vb (b1.1 ++ b2.1, b1.2 ++ b2.2).
Proof.
  intros [Hl1 H1] [Hl2 H2]. split; cbn [fst snd].
  - rewrite !length_app. lia.
  - intros j o Hj. apply lookup_app_Some in Hj as [Hj|[Hge Hj]].
    + by apply H1.
    + destruct (H2 _ _ Hj) as (Hu & Hp & Hr & Hs & Hq).
      split; [done|]. repeat split; try lia.
      intros q Hpq. specialize (Hq q Hpq). lia.
Qed.

Lemma clone_block_shape t : ∀ par ob vb,
  (∀ q, par = Some q → q < ob) →
  block_shape ob vb (clone_block t par ob vb).
Proof.
  induction t as [nm p r sc cs IH] using Template_ind'.
  intros par ob vb Hpar. rewrite clone_block_unfold. cbv zeta.
  assert (Hkids : ∀ ob' vb', ob < ob' →
            block_shape ob' vb' (clone_children ob cs ob' vb').2).
  { clear Hpar. induction IH as [|c cs Hc _ IHcs]; intros ob' vb' Hlt.
    - split; [done|]. intros j o Hj. done.
    - cbn [clone_children]. cbv zeta. cbn [fst snd].
      apply (block_shape_app ob' vb' (clone_block c (Some ob) ob' vb')).
      + apply Hc. intros q [= <-]. done.
      + apply IHcs. lia. }
  specialize (Hkids (S ob) (vb + 3) (Nat.lt_succ_diag_r ob)).
  destruct Hkids as [Hl Hk]. split; cbn [fst snd].
  - cbn [length app]. rewrite Hl. lia.
  - intros [|j] o Hj.
    + injection Hj as <-. cbn. repeat split; try lia.
      intros q Hq. specialize (Hpar q Hq). lia.
    + cbn in Hj. destruct (Hk _ _ Hj) as (Hu & Hp & Hr & Hs & Hq).
      split; [done|]. repeat split; try lia.
      intros q Hpq. specialize (Hq q Hpq). lia.
Qed.

Lemma clone_children_shape par cs ob vb :
  par < ob → block_shape ob vb (clone_children par cs ob vb).2.
Proof.
  revert ob vb. induction cs as [|c cs IH]; intros ob vb Hlt.
  - split; [done|]. intros j o Hj. done.
  - cbn [clone_children]. cbv zeta. cbn [fst snd].
    apply (block_shape_app ob vb (clone_block c (Some par) ob vb)).
    + apply clone_block_shape. intros q [= <-]. done.
    + apply IH. lia.
Qed.

(** ** One loop iteration of createCarousel in closed form *)

Lemma create_instance_closed templates i config s k nm p r sc cs :
  carousel < length (objs s) →
  template_for templates i = Some (k, TObject nm p r sc cs) →
  create_instance templates i config s = Returned (instance_state i k config p r cs s).
Proof.
  intros Hc Ht. unfold create_instance, instance_state. rewrite Ht.
  rewrite (with_heap_eta s) at 1. cbv zeta.
  generalize (objs s) (vecs s) Hc. clear Hc. intros O V Hc.
  rewrite new_Object3D_heap. cbv beta iota zeta.
  rewrite !update_obj_heap. heap_norm.
  rewrite clone_heap, clone_block_unfold. cbv beta iota zeta.
  heap_norm.
  set (kids := clone_children _ _ _ _).
  heap_norm.
  rewrite !update_obj_heap. heap_norm.
  rewrite scale_set_heap. heap_norm.
  rewrite !update_obj_heap. heap_norm.
  rewrite alloc_vec_heap. cbv beta iota zeta. heap_norm.
  rewrite alloc_vec_heap. cbv beta iota zeta. heap_norm.
  rewrite !add_heap. heap_norm.
  rewrite !vec_get_heap. heap_norm.
  rewrite !position_set_heap. heap_norm.
  rewrite !vec_get_heap. heap_norm.
  rewrite !rotation_set_heap. heap_norm.
  rewrite !scale_set_heap. heap_norm.
  rewrite !vec_get_heap. heap_norm.
  rewrite alloc_vec_heap. cbv beta iota zeta. heap_norm.
  rewrite !update_obj_heap. heap_norm.
  rewrite !vec_get_heap. heap_norm.
  rewrite alloc_vec_heap. cbv beta iota zeta. heap_norm.
  rewrite !update_obj_heap. heap_norm.
  rewrite !add_heap. heap_norm.
  rewrite (alter_app_l _ O) by done.
  rewrite alter_app_r_alt by (rewrite length_alter; lia).
  rewrite length_alter, Nat.sub_diag.
  heap_norm.
  rewrite objects_heap, set_objects_heap, console_log_heap.
  subst kids. unfold group_node, model_node, position_of, rotation_of, scale_of. cbv [id].
  repeat (f_equal; try lia).
Qed.

(** An iteration that finds no template throws after creating the group. *)
Lemma create_instance_throws templates i config s :
  template_for templates i = None →
  create_instance templates i config s =
  Thrown (with_heap (vecs s ++ [zero3; zero3; one3])
            (objs s ++ [mkObject3D ("carousel-item-" +:+ pretty i) None []
                          (length (vecs s)) (length (vecs s) + 1) (length (vecs s) + 2)
                          (mkUserData (Some (cfg_name config)) None None None)]) s).
Proof.
  intros Ht. unfold create_instance. rewrite Ht.
  rewrite (with_heap_eta s) at 1.
  rewrite new_Object3D_heap. cbv beta iota zeta.
  rewrite !update_obj_heap. heap_norm. reflexivity.
Qed.

(** ** Steps that keep the shape of the store *)

Lemma node_kept_refl o : node_kept o o.
Proof. by split. Qed.

Lemma node_kept_trans o1 o2 o3 : node_kept o1 o2 → node_kept o2 o3 → node_kept o1 o3.
Proof.
  intros [] []. split; try congruence.
  intros Ht. rewrite <- (kept_name0 Ht). apply kept_name1.
  by rewrite (kept_name0 Ht).
Qed.

Lemma node_kept_live o o' a : node_kept o o' → is_live o' a ↔ is_live o a.
Proof. intros []. unfold is_live. by rewrite kept_position0, kept_rotation0, kept_scale0. Qed.

Lemma node_kept_original o o' a : node_kept o o' → is_original o' a ↔ is_original o a.
Proof.
  intros []. unfold is_original.
  by rewrite kept_originalPosition0, kept_originalRotation0.
Qed.

Lemma quiet_nodes_back s s' id o' :
  quiet s s' → objs s' !! id = Some o' → ∃ o, objs s !! id = Some o ∧ node_kept o o'.
Proof.
  intros Hq Hid. pose proof (lookup_lt_Some _ _ _ Hid) as Hlt.
  rewrite (q_len_objs _ _ Hq) in Hlt.
  destruct (lookup_lt_is_Some_2 _ _ Hlt) as [o Ho].
  destruct (q_nodes _ _ Hq _ _ Ho) as (o'' & Ho'' & Hk).
  exists o. split; [done|]. congruence.
Qed.

Lemma quiet_same s s' :
  objs s' = objs s → vecs s' = vecs s → tweens s' = tweens s → quiet s s'.
Proof.
  intros Ho Hv Ht. split; rewrite ?Ho, ?Hv, ?Ht; try done.
  - intros id o Hid. exists o. split; [done | apply node_kept_refl].
  - intros tw Htw. by left.
Qed.

Lemma quiet_refl s : quiet s s.
Proof. by apply quiet_same. Qed.

Lemma quiet_trans s1 s2 s3 : quiet s1 s2 → quiet s2 s3 → quiet s1 s3.
Proof.
  intros H12 H23. split.
  - rewrite (q_len_objs _ _ H23). apply (q_len_objs _ _ H12).
  - intros id o Hid.
    destruct (q_nodes _ _ H12 _ _ Hid) as (o2 & Ho2 & Hk2).
    destruct (q_nodes _ _ H23 _ _ Ho2) as (o3 & Ho3 & Hk3).
    exists o3. split; [done | by eapply node_kept_trans].
  - rewrite (q_len_vecs _ _ H23). apply (q_len_vecs _ _ H12).
  - intros a Ha. rewrite (q_cells _ _ H23), (q_cells _ _ H12); [done | done |].
    intros id o2 Ho2 Hlive.
    destruct (quiet_nodes_back _ _ _ _ H12 Ho2) as (o & Ho & Hk).
    apply (Ha id o Ho). by apply (node_kept_live o o2).
  - intros tw Htw. destruct (q_tweens _ _ H23 _ Htw) as [Htw2|(id & o2 & Ho2 & Heq)].
    + by apply (q_tweens _ _ H12).
    + right. destruct (quiet_nodes_back _ _ _ _ H12 Ho2) as (o & Ho & Hk).
      exists id, o. split; [done|]. rewrite Heq. apply (kept_scale _ _ Hk).
Qed.

Lemma quiet_inv s s' : heap_inv s → quiet s s' → heap_inv s'.
Proof.
  intros Hinv Hq. split.
  - rewrite (q_len_objs _ _ Hq). apply Hinv.
  - intros id o' a Hid Hlive.
    destruct (quiet_nodes_back _ _ _ _ Hq Hid) as (o & Ho & Hk).
    rewrite (q_len_vecs _ _ Hq). apply (inv_live _ Hinv id o); [done|].
    by apply (node_kept_live o o').
  - intros id o' a Hid Horig.
    destruct (quiet_nodes_back _ _ _ _ Hq Hid) as (o & Ho & Hk).
    rewrite (q_len_vecs _ _ Hq). apply (inv_orig _ Hinv id o); [done|].
    by apply (node_kept_original o o').
  - intros id o1' id' o2' a Hid Hid' Horig Hlive.
    destruct (quiet_nodes_back _ _ _ _ Hq Hid) as (o1 & Ho1 & Hk1).
    destruct (quiet_nodes_back _ _ _ _ Hq Hid') as (o2 & Ho2 & Hk2).
    apply (inv_sep _ Hinv id o1 id' o2 a Ho1 Ho2).
    + by apply (node_kept_original o1 o1').
    + by apply (node_kept_live o2 o2').
  - intros id o' q Hid Hpar.
    destruct (quiet_nodes_back _ _ _ _ Hq Hid) as (o & Ho & Hk).
    apply (inv_parent _ Hinv id o); [done|]. by rewrite <- (kept_parent _ _ Hk).
  - intros tw Htw. destruct (q_tweens _ _ Hq _ Htw) as [Hold|(id & o & Ho & Heq)].
    + destruct (inv_tweens _ Hinv _ Hold) as (id & o & Ho & Heq).
      destruct (q_nodes _ _ Hq _ _ Ho) as (o' & Ho' & Hk).
      exists id, o'. split; [done|]. rewrite Heq. symmetry. apply (kept_scale _ _ Hk).
    + destruct (q_nodes _ _ Hq _ _ Ho) as (o' & Ho' & Hk).
      exists id, o'. split; [done|]. rewrite Heq. symmetry. apply (kept_scale _ _ Hk).
Qed.

Lemma quiet_evolves s s' : heap_inv s → quiet s s' → evolves s s'.
Proof.
  intros Hinv Hq. split.
  - apply (q_nodes _ _ Hq).
  - intros id o a Hid Horig. apply (q_cells _ _ Hq).
    intros id' o' Hid'. by apply (inv_sep _ Hinv id o id' o').
Qed.

Lemma evolves_refl s : evolves s s.
Proof.
  split; [|done]. intros id o Hid. exists o. split; [done | apply node_kept_refl].
Qed.

Lemma evolves_trans s1 s2 s3 : evolves s1 s2 → evolves s2 s3 → evolves s1 s3.
Proof.
  intros [Hn12 Hc12] [Hn23 Hc23]. split.
  - intros id o Hid.
    destruct (Hn12 _ _ Hid) as (o2 & Ho2 & Hk2).
    destruct (Hn23 _ _ Ho2) as (o3 & Ho3 & Hk3).
    exists o3. split; [done | by eapply node_kept_trans].
  - intros id o a Hid Horig.
    destruct (Hn12 _ _ Hid) as (o2 & Ho2 & Hk2).
    rewrite (Hc23 id o2 a Ho2), (Hc12 id o a Hid); try done.
    by apply (node_kept_original o o2).
Qed.

(** The quiet primitives. *)

Lemma quiet_gsap_to_scale obj v ease oc s : quiet s (gsap_to_scale obj v ease oc s).
Proof.
  unfold gsap_to_scale. destruct (objs s !! obj) as [o|] eqn:Ho; [|apply quiet_refl].
  split; try done.
  - intros id o1 Hid. exists o1. split; [done | apply node_kept_refl].
  - intros tw Htw. cbn in Htw. apply elem_of_app in Htw as [Htw|Htw]; [by left|].
    apply list_elem_of_singleton in Htw as ->. right. by exists obj, o.
Qed.

Lemma quiet_vec_set a v s :
  (∃ id o, objs s !! id = Some o ∧ is_live o a) → quiet s (vec_set a v s).
Proof.
  intros (id & o & Ho & Hlive). split; try done.
  - intros id1 o1 Hid. exists o1. split; [done | apply node_kept_refl].
  - cbn. apply length_insert.
  - intros b Hb. cbn. apply list_lookup_insert_ne. intros <-. by apply (Hb id o).
  - intros tw Htw. by left.
Qed.

Lemma quiet_vec_set_of oa v s :
  (∀ a, oa = Some a → ∃ id o, objs s !! id = Some o ∧ is_live o a) →
  quiet s (vec_set_of oa v s).
Proof.
  intros Hoa. destruct oa as [a|].
  - apply (quiet_vec_set a v s). by apply Hoa.
  - apply quiet_same; by destruct s.
Qed.

Lemma quiet_position_set id v s : quiet s (position_set id v s).
Proof.
  apply quiet_vec_set_of. intros a Ha. destruct (objs s !! id) as [o|] eqn:Ho; [|done].
  injection Ha as <-. exists id, o. split; [done|]. by left.
Qed.

Lemma quiet_rotation_set id v s : quiet s (rotation_set id v s).
Proof.
  apply quiet_vec_set_of. intros a Ha. destruct (objs s !! id) as [o|] eqn:Ho; [|done].
  injection Ha as <-. exists id, o. split; [done|]. right. by left.
Qed.

Lemma quiet_scale_set id v s : quiet s (scale_set id v s).
Proof.
  apply quiet_vec_set_of. intros a Ha. destruct (objs s !! id) as [o|] eqn:Ho; [|done].
  injection Ha as <-. exists id, o. split; [done|]. right. by right.
Qed.

Lemma quiet_update_obj id f s :
  (∀ o, objs s !! id = Some o → node_kept o (f o)) → quiet s (update_obj id f s).
Proof.
  intros Hf. split; try done.
  - cbn. apply length_alter.
  - intros id1 o1 Hid. cbn. destruct (decide (id1 = id)) as [->|Hne].
    + exists (f o1). split; [|by apply Hf]. by rewrite list_lookup_alter_eq, Hid.
    + exists o1. split; [|apply node_kept_refl]. by rewrite list_lookup_alter_ne.
  - intros tw Htw. by left.
Qed.

(** ** Steps that allocate *)

(** A step that keeps the old nodes, appends new nodes and appends
    xyz-objects, where the new nodes' transform objects lie in the first
    [L] new addresses and their stored originals in the others. *)
Lemma grow_inv s s' O' NO NV L :
  heap_inv s →
  objs s' = O' ++ NO → vecs s' = vecs s ++ NV → tweens s' = tweens s →
  length O' = length (objs s) →
  (∀ id o, objs s !! id = Some o → ∃ o', O' !! id = Some o' ∧ node_kept o o') →
  (∀ j o', NO !! j = Some o' →
      (∀ b, is_live o' b → (length (vecs s) ≤ b < length (vecs s) + L)%nat) ∧
      (∀ b, is_original o' b →
            (length (vecs s) + L ≤ b < length (vecs s) + length NV)%nat) ∧
      (∀ q, parent o' = Some q → q < length (objs s) + j)) →
  (L ≤ length NV)%nat →
  heap_inv s' ∧ evolves s s'.
Proof.
  intros Hinv HO HV HT HlenO Hold Hnew HL.
  assert (Hfwd : ∀ id o, objs s !! id = Some o →
                         ∃ o', objs s' !! id = Some o' ∧ node_kept o o').
  { intros id o Hid. destruct (Hold _ _ Hid) as (o' & Ho' & Hk).
    exists o'. split; [|done]. rewrite HO. by apply lookup_app_l_Some. }
  assert (Hcase : ∀ id o', objs s' !! id = Some o' →
            (∃ o, objs s !! id = Some o ∧ node_kept o o') ∨
            (∃ j, id = length (objs s) + j ∧ NO !! j = Some o')).
  { intros id o' Hid. rewrite HO in Hid.
    apply lookup_app_Some in Hid as [Hid|[Hge Hid]].
    - left. pose proof (lookup_lt_Some _ _ _ Hid) as Hlt. rewrite HlenO in Hlt.
      destruct (lookup_lt_is_Some_2 _ _ Hlt) as [o Ho].
      destruct (Hold _ _ Ho) as (o'' & Ho'' & Hk). exists o. split; [done|]. congruence.
    - right. exists (id - length O'). split; [lia | done]. }
  assert (Hlive : ∀ id o' b, objs s' !! id = Some o' → is_live o' b →
            b < length (vecs s) ∧ (∃ o, objs s !! id = Some o ∧ is_live o b) ∨
            (length (vecs s) ≤ b < length (vecs s) + L)%nat).
  { intros id o' b Hid Hb. destruct (Hcase _ _ Hid) as [(o & Ho & Hk)|(j & -> & Hj)].
    - left. apply (node_kept_live o o' b Hk) in Hb.
      split; [by apply (inv_live _ Hinv id o) | by exists o].
    - right. by apply (Hnew j o'). }
  assert (Horig : ∀ id o' b, objs s' !! id = Some o' → is_original o' b →
            b < length (vecs s) ∧ (∃ o, objs s !! id = Some o ∧ is_original o b) ∨
            (length (vecs s) + L ≤ b < length (vecs s) + length NV)%nat).
  { intros id o' b Hid Hb. destruct (Hcase _ _ Hid) as [(o & Ho & Hk)|(j & -> & Hj)].
    - left. apply (node_kept_original o o' b Hk) in Hb.
      split; [by apply (inv_orig _ Hinv id o) | by exists o].
    - right. by apply (Hnew j o'). }
  split; [split|split].
  - rewrite HO, length_app, HlenO. pose proof (inv_carousel _ Hinv). lia.
  - intros id o' b Hid Hb. rewrite HV, length_app.
    destruct (Hlive _ _ _ Hid Hb) as [[? _]|?]; lia.
  - intros id o' b Hid Hb. rewrite HV, length_app.
    destruct (Horig _ _ _ Hid Hb) as [[? _]|?]; lia.
  - intros id o1 id' o2 b Hid Hid' Hb Hb'.
    destruct (Horig _ _ _ Hid Hb) as [[Hlt (o & Ho & Hob)]|Hrange];
      destruct (Hlive _ _ _ Hid' Hb') as [[Hlt' (o' & Ho' & Hob')]|Hrange']; try lia.
    by apply (inv_sep _ Hinv id o id' o' b).
  - intros id o' q Hid Hq. destruct (Hcase _ _ Hid) as [(o & Ho & Hk)|(j & -> & Hj)].
    + apply (inv_parent _ Hinv id o); [done|]. by rewrite <- (kept_parent _ _ Hk).
    + by apply (Hnew j o').
  - intros tw Htw. rewrite HT in Htw.
    destruct (inv_tweens _ Hinv _ Htw) as (id & o & Ho & Heq).
    destruct (Hfwd _ _ Ho) as (o' & Ho' & Hk).
    exists id, o'. split; [done|]. rewrite Heq. symmetry. apply (kept_scale _ _ Hk).
  - done.
  - intros id o b Hid Hb. rewrite HV. apply lookup_app_l.
    by apply (inv_orig _ Hinv id o).
Qed.

Lemma alter_children_kept f' (O : list Object3D) i :
  (∀ o, node_kept o (f' o)) →
  ∀ id o, O !! id = Some o → ∃ o', alter f' i O !! id = Some o' ∧ node_kept o o'.
Proof.
  intros Hf id o Hid. destruct (decide (id = i)) as [->|Hne].
  - exists (f' o). split; [|done]. by rewrite list_lookup_alter_eq, Hid.
  - exists o. split; [|apply node_kept_refl]. by rewrite list_lookup_alter_ne.
Qed.

Lemma instance_state_inv i k config p r cs s :
  heap_inv s →
  heap_inv (instance_state i k config p r cs s) ∧
  evolves s (instance_state i k config p r cs s).
Proof.
  intros Hinv. unfold instance_state. cbv zeta.
  set (g := length (objs s)). set (a := length (vecs s)).
  pose proof (clone_children_shape (g + 1) cs (S (g + 1)) (a + 6)
                (Nat.lt_succ_diag_r _)) as [Hlen Hshape].
  set (kids := clone_children _ _ _ _) in *.
  eapply (grow_inv s _ _ _ _ (6 + length kids.2.2) Hinv); try reflexivity.
  - apply length_alter.
  - apply alter_children_kept. intros o. by split.
  - pose proof (inv_carousel _ Hinv) as Hcar. fold g in Hcar.
    intros j o' Hj. cbn [length]. rewrite length_app. cbn [length].
    destruct j as [|[|j]].
    + injection Hj as <-. unfold group_node, is_live, is_original. cbn. fold g a.
      split_and!; [intros b [-> | [-> | ->] ] | intros b [ [= <-] | [= <-] ] | intros q [= <-]]; lia.
    + injection Hj as <-. unfold model_node, is_live, is_original. cbn. fold g a.
      split_and!; [intros b [-> | [-> | ->] ] | intros b [ [=] | [=] ] | intros q [= <-]]; lia.
    + cbn in Hj. destruct (Hshape _ _ Hj) as (Hu & Hp & Hr & Hs & Hq).
      pose proof (lookup_lt_Some _ _ _ Hj) as Hlt.
      unfold is_live, is_original. rewrite Hu, Hp, Hr, Hs. cbn. fold g a.
      split_and!; [intros b [-> | [-> | ->] ] | intros b [ [=] | [=] ] | intros q Hpq]; try lia.
      specialize (Hq _ Hpq). lia.
  - cbn [length app]. rewrite length_app. cbn. lia.
Qed.

Lemma thrown_state_inv nm ud s :
  heap_inv s →
  let s' := with_heap (vecs s ++ [zero3; zero3; one3])
              (objs s ++ [mkObject3D nm None []
                            (length (vecs s)) (length (vecs s) + 1) (length (vecs s) + 2)
                            (mkUserData ud None None None)]) s in
  heap_inv s' ∧ evolves s s'.
Proof.
  intros Hinv. cbv zeta.
  eapply (grow_inv s _ (objs s) _ _ 3 Hinv); try reflexivity.
  - intros id o Hid. exists o. split; [done | apply node_kept_refl].
  - intros [|j] o' Hj; [|done]. injection Hj as <-. unfold is_live, is_original. cbn.
    split_and!; [intros b [-> | [-> | ->] ] | intros b [ [=] | [=] ] | intros q [=] ]; lia.
Qed.

Lemma createCarousel_loop_inv templates configs : ∀ i s,
  heap_inv s →
  heap_inv (state_of (createCarousel_loop templates i configs s)) ∧
  evolves s (state_of (createCarousel_loop templates i configs s)).
Proof.
  induction configs as [|config rest IH]; intros i s Hinv.
  - split; [done | apply evolves_refl].
  - cbn [createCarousel_loop].
    destruct (template_for templates i) as [[k [nm p r sc cs]]|] eqn:Ht.
    + rewrite (create_instance_closed _ _ _ _ _ _ _ _ _ _ (inv_carousel _ Hinv) Ht).
      destruct (instance_state_inv i k config p r cs s Hinv) as [Hinv' Hev].
      destruct (IH (S i) _ Hinv') as [Hinv'' Hev'].
      split; [done | by eapply evolves_trans].
    + rewrite (create_instance_throws _ _ _ _ Ht). cbn [state_of].
      apply thrown_state_inv, Hinv.
Qed.

Lemma createCarousel_inv templates s :
  heap_inv s →
  heap_inv (state_of (createCarousel templates s)) ∧
  evolves s (state_of (createCarousel templates s)).
Proof.
  intros Hinv. unfold createCarousel.
  set (s0 := set_objects [] (console_log _ s)).
  assert (Hq : quiet s s0) by (by apply quiet_same).
  destruct (createCarousel_loop_inv templates MODEL_POSITIONS 0 s0 (quiet_inv _ _ Hinv Hq))
    as [Hinv' Hev].
  split; [done|]. eapply evolves_trans; [by apply quiet_evolves | done].
Qed.

(** ** Every handler but the loader's is quiet *)

Ltac quiet_auto :=
  lazymatch goal with
  | |- quiet ?s ?s => apply quiet_refl
  | |- quiet ?s (gsap_to_scale _ _ _ _ ?t) =>
      apply (quiet_trans s t); [quiet_auto | apply quiet_gsap_to_scale]
  | |- quiet ?s (reset_hovered _ ?t) =>
      apply (quiet_trans s t); [quiet_auto | apply quiet_gsap_to_scale]
  | |- quiet ?s (unhover _ ?t) => unfold unhover; quiet_auto
  | |- quiet ?s (scale_set _ _ ?t) =>
      apply (quiet_trans s t); [quiet_auto | apply quiet_scale_set]
  | |- quiet ?s (set_currentHoveredModel _ ?t) =>
      apply (quiet_trans s t); [quiet_auto | by apply quiet_same]
  | |- quiet ?s (set_pointerCursor _ ?t) =>
      apply (quiet_trans s t); [quiet_auto | by apply quiet_same]
  | |- quiet ?s (set_hoveredObject _ ?t) =>
      apply (quiet_trans s t); [quiet_auto | by apply quiet_same]
  | |- quiet ?s (set_isHovering _ ?t) =>
      apply (quiet_trans s t); [quiet_auto | by apply quiet_same]
  | |- quiet ?s (console_log _ ?t) =>
      apply (quiet_trans s t); [quiet_auto | by apply quiet_same]
  | |- quiet ?s (update_obj _ _ ?t) =>
      apply (quiet_trans s t); [quiet_auto | apply quiet_update_obj]
  | |- quiet ?s (match ?x with _ => _ end) => destruct x eqn:?; quiet_auto
  | |- _ => idtac
  end.

Lemma quiet_handleHover intersects s : quiet s (handleHover intersects s).
Proof.
  unfold handleHover. cbv zeta. quiet_auto.
  all: intros o' Ho'.
  all: match goal with
  | H1 : objs _ !! _ = Some ?o, H2 : JS.truthy_ostr _ = false |- _ =>
      assert (o' = o) as -> by (cbn in *; congruence)
  end.
  all: split; try done; cbn; intros Ht; congruence.
Qed.

Lemma onModelClick_heap s :
  objs (onModelClick s) = objs s ∧ vecs (onModelClick s) = vecs s ∧
  tweens (onModelClick s) = tweens s.
Proof. unfold onModelClick. by repeat case_match. Qed.

Lemma onMouseClick_heap now b s :
  objs (onMouseClick now b s) = objs s ∧ vecs (onMouseClick now b s) = vecs s ∧
  tweens (onMouseClick now b s) = tweens s.
Proof.
  unfold onMouseClick, clearTimeout, setTimeout. cbv zeta.
  repeat case_match; try done.
  all: match goal with
       | |- context [onModelClick ?t] => destruct (onModelClick_heap t) as (-> & -> & ->)
       end; done.
Qed.

Lemma onWindowClick_heap now hits s :
  objs (onWindowClick now hits s) = objs s ∧ vecs (onWindowClick now hits s) = vecs s ∧
  tweens (onWindowClick now hits s) = tweens s.
Proof. unfold onWindowClick. by repeat case_match. Qed.

Lemma fire_timer_heap now h s :
  objs (fire_timer now h s) = objs s ∧ vecs (fire_timer now h s) = vecs s ∧
  tweens (fire_timer now h s) = tweens s.
Proof. unfold fire_timer. by repeat case_match. Qed.

Lemma quiet_onMouseOut leaving s : quiet s (onMouseOut leaving s).
Proof. unfold onMouseOut. cbv zeta. quiet_auto. Qed.

Lemma quiet_onBlur s : quiet s (onBlur s).
Proof. unfold onBlur. cbv zeta. quiet_auto. Qed.

Lemma quiet_animate intersects s : quiet s (animate intersects s).
Proof. unfold animate. cbv zeta. quiet_auto. Qed.

Lemma quiet_tween_update k v s : heap_inv s → quiet s (tween_update k v s).
Proof.
  intros Hinv. unfold tween_update. destruct (tweens s !! k) as [tw|] eqn:Hk.
  - apply quiet_vec_set.
    destruct (inv_tweens _ Hinv tw) as (id & o & Ho & Heq).
    { apply list_elem_of_lookup. by exists k. }
    exists id, o. split; [done|]. right. by right.
  - apply quiet_refl.
Qed.

Lemma quiet_tween_complete k s : heap_inv s → quiet s (tween_complete k s).
Proof.
  intros Hinv. unfold tween_complete. destruct (tweens s !! k) as [tw|] eqn:Hk.
  - cbv zeta.
    assert (Hq : ∀ v, quiet s (vec_set (tw_target tw) v s)).
    { intros v. apply quiet_vec_set.
      destruct (inv_tweens _ Hinv tw) as (id & o & Ho & Heq).
      { apply list_elem_of_lookup. by exists k. }
      exists id, o. split; [done|]. right. by right. }
    destruct (tw_onComplete tw); [|apply Hq].
    eapply quiet_trans; [apply Hq | by apply quiet_same].
  - apply quiet_refl.
Qed.

Lemma onLoad_inv index scene s :
  heap_inv s →
  heap_inv (onLoad index scene s) ∧ evolves s (onLoad index scene s).
Proof.
  intros Hinv. unfold onLoad. cbv zeta.
  set (s0 := set_loadedCount _ (set_models _ s)).
  assert (Hq : quiet s s0) by (by apply quiet_same).
  destruct (decide (loadedCount s0 = length MODEL_PATHS)).
  - destruct (createCarousel_inv (models s0) s0 (quiet_inv _ _ Hinv Hq)) as [Hinv' Hev].
    split; [done|]. eapply evolves_trans; [by apply quiet_evolves | done].
  - split; [by eapply quiet_inv | by apply quiet_evolves].
Qed.

(** ** The invariant of the event loop *)

Lemma step_inv now e s :
  heap_inv s → heap_inv (step now e s) ∧ evolves s (step now e s).
Proof.
  intros Hinv.
  assert (Hquiet : ∀ s', quiet s s' → heap_inv s' ∧ evolves s s').
  { intros s' Hq. split; [by eapply quiet_inv | by apply quiet_evolves]. }
  destruct e as [index scene|index|hits|b hits|h|leaving| |hits|k v|k]; cbn [step].
  - by apply onLoad_inv.
  - apply Hquiet, quiet_refl.
  - apply Hquiet, quiet_handleHover.
  - apply Hquiet. eapply quiet_trans.
    + apply quiet_same; apply (onMouseClick_heap now b s).
    + apply quiet_same; apply onWindowClick_heap.
  - apply Hquiet. apply quiet_same; apply fire_timer_heap.
  - apply Hquiet, quiet_onMouseOut.
  - apply Hquiet, quiet_onBlur.
  - apply Hquiet, quiet_animate.
  - by apply Hquiet, quiet_tween_update.
  - by apply Hquiet, quiet_tween_complete.
Qed.

Lemma run_app tr1 tr2 s : run (tr1 ++ tr2) s = run tr2 (run tr1 s).
Proof.
  revert s. induction tr1 as [|[now e] tr1 IH]; intros s; [done|]. cbn. apply IH.
Qed.

Lemma run_inv tr : ∀ s, heap_inv s → heap_inv (run tr s) ∧ evolves s (run tr s).
Proof.
  induction tr as [|[now e] tr IH]; intros s Hinv.
  - split; [done | apply evolves_refl].
  - cbn [run]. destruct (step_inv now e s Hinv) as [Hinv' Hev].
    destruct (IH _ Hinv') as [Hinv'' Hev'].
    split; [done | by eapply evolves_trans].
Qed.

Lemma init_inv : heap_inv init.
Proof.
  split.
  - unfold carousel. cbn. lia.
  - intros [|[|id]] o a Hid Hlive; simplify_eq/=; destruct Hlive as [-> | [-> | ->] ]; cbn; lia.
  - intros [|[|id]] o a Hid Horig; simplify_eq/=; by destruct Horig.
  - intros [|[|id]] o id' o' a Hid _ Horig; simplify_eq/=; by destruct Horig.
  - intros [|[|id]] o q Hid Hq; simplify_eq/=. unfold scene_id. lia.
  - intros tw Htw. cbn in Htw. by apply elem_of_nil in Htw.
Qed.

Lemma reachable_inv tr : heap_inv (run tr init).
Proof. apply run_inv, init_inv. Qed.

(** ** The instances keep what construction stored *)

Lemma config_name_truthy i config :
  MODEL_POSITIONS !! i = Some config → JS.truthy_ostr (Some (cfg_name config)) = true.
Proof. destruct i as [|[|[|i]]]; intros Hi; by simplify_eq/=. Qed.

Lemma instance_ok_evolves s s' i m : evolves s s' → instance_ok s i m → instance_ok s' i m.
Proof.
  intros [Hnodes Hcells] (config & o & a & b & Hcfg & Ho & Hud & Ha & Hb).
  destruct (Hnodes _ _ Ho) as (o' & Ho' & Hk).
  exists config, o', a, b. split_and!; try done.
  - destruct Hk as [_ _ _ _ Hs Hp Hr Hn]. rewrite Hud in Hs, Hp, Hr, Hn. cbn in *.
    specialize (Hn (config_name_truthy _ _ Hcfg)).
    destruct (userData o'). cbn in *. congruence.
  - rewrite (Hcells m o a Ho); [done|]. left. by rewrite Hud.
  - rewrite (Hcells m o b Ho); [done|]. right. by rewrite Hud.
Qed.

Lemma instances_ok_evolves s s' :
  evolves s s' → objects s' = objects s → instances_ok s → instances_ok s'.
Proof.
  intros Hev Hobj Hok i m Him. rewrite Hobj in Him.
  by apply (instance_ok_evolves s s' i m Hev), Hok.
Qed.

Lemma instance_state_objects i k config p r cs s :
  objects (instance_state i k config p r cs s) = objects s ++ [length (objs s)].
Proof. reflexivity. Qed.

Lemma instance_state_group i k config p r cs s :
  let s' := instance_state i k config p r cs s in
  let g := length (objs s) in
  let a := length (vecs s) in
  let n := length (clone_children (g + 1) cs (S (g + 1)) (a + 6)).2.2 in
  objs s' !! g = Some (group_node i config g a n) ∧
  objs s' !! (g + 1) =
    Some (model_node i k config g a (clone_children (g + 1) cs (S (g + 1)) (a + 6)).1) ∧
  vecs s' !! a = Some (position_of config) ∧
  vecs s' !! (a + 1) = Some (rotation_of config) ∧
  vecs s' !! (a + 2) = Some (uniform (scale_of config)) ∧
  vecs s' !! (a + 5) = Some (uniform (scale_of config)) ∧
  vecs s' !! (a + 6 + n + 2) = Some (position_of config) ∧
  vecs s' !! (a + 6 + n + 3) = Some (rotation_of config).
Proof.
  cbv zeta. unfold instance_state. cbv zeta.
  set (kids := clone_children _ _ _ _).
  set (O' := alter _ carousel (objs s)).
  assert (HO' : length O' = length (objs s)) by apply length_alter.
  change (objs (with_heap ?V ?O _)) with O.
  change (vecs (with_heap ?V ?O _)) with V.
  rewrite <- HO'.
  split_and!.
  - by rewrite lookup_app_len.
  - by rewrite lookup_app_plus.
  - by rewrite lookup_app_len.
  - by rewrite lookup_app_plus.
  - by rewrite lookup_app_plus.
  - by rewrite lookup_app_plus.
  - rewrite <- !Nat.add_assoc, lookup_app_plus. cbn [Nat.add].
    rewrite !lookup_cons_S. by rewrite lookup_app_plus.
  - rewrite <- !Nat.add_assoc, lookup_app_plus. cbn [Nat.add].
    rewrite !lookup_cons_S. by rewrite lookup_app_plus.
Qed.

Lemma instance_state_instance_ok i k config p r cs s :
  MODEL_POSITIONS !! i = Some config →
  instance_ok (instance_state i k config p r cs s) i (length (objs s)).
Proof.
  intros Hcfg.
  destruct (instance_state_group i k config p r cs s) as (Hg & _ & _ & _ & _ & _ & Ha & Hb).
  eexists config, _, _, _. split_and!; [done | apply Hg | reflexivity | apply Ha | apply Hb].
Qed.

Lemma createCarousel_loop_instances templates configs : ∀ i s,
  heap_inv s →
  length (objects s) = i →
  (∀ j config, configs !! j = Some config → MODEL_POSITIONS !! (i + j) = Some config) →
  instances_ok s →
  instances_ok (state_of (createCarousel_loop templates i configs s)).
Proof.
  induction configs as [|config rest IH]; intros i s Hinv Hlen Hcfg Hok; [done|].
  cbn [createCarousel_loop].
  destruct (template_for templates i) as [[k [nm p r sc cs]]|] eqn:Ht.
  - rewrite (create_instance_closed _ _ _ _ _ _ _ _ _ _ (inv_carousel _ Hinv) Ht).
    destruct (instance_state_inv i k config p r cs s Hinv) as [Hinv' Hev].
    apply IH; [done | | |].
    + rewrite instance_state_objects, length_app. cbn. lia.
    + intros j c Hj. replace (S i + j) with (i + S j) by lia. by apply Hcfg.
    + intros idx m Him. rewrite instance_state_objects in Him.
      apply lookup_app_Some in Him as [Him|[Hge Him]].
      * by apply (instance_ok_evolves s), Hok.
      * rewrite Hlen in Hge, Him.
        destruct (idx - i) as [|d] eqn:Hd; [|done]. injection Him as <-.
        assert (idx = i) as -> by lia.
        apply instance_state_instance_ok.
        specialize (Hcfg 0 config eq_refl). by rewrite Nat.add_0_r in Hcfg.
  - rewrite (create_instance_throws _ _ _ _ Ht). cbn [state_of].
    eapply instances_ok_evolves; [by apply thrown_state_inv | done | done].
Qed.

Lemma createCarousel_instances templates s :
  heap_inv s → instances_ok (state_of (createCarousel templates s)).
Proof.
  intros Hinv. unfold createCarousel.
  apply createCarousel_loop_instances; try done.
  eapply quiet_inv; [done | by apply quiet_same].
Qed.

Ltac unfold_handlers :=
  unfold handleHover, onMouseClick, onWindowClick, fire_timer, onMouseOut, onBlur,
    animate, tween_update, tween_complete;
  unfold onModelClick, unhover, clickTimer_fired;
  unfold reset_hovered, clearTimeout, setTimeout, scale_set;
  unfold gsap_to_scale, vec_set_of, console_log, vec_set, update_obj;
  cbv zeta.

Lemma step_objects now e s :
  (∀ index scene, e ≠ Loaded index scene) → objects (step now e s) = objects s.
Proof.
  intros Hne. destruct e; cbn [step]; try done.
  1: by destruct (Hne index scene).
  all: unfold_handlers; by repeat case_match.
Qed.

Lemma step_instances now e s :
  heap_inv s → instances_ok s → instances_ok (step now e s).
Proof.
  intros Hinv Hok. destruct e as [index scene| | | | | | | | |].
  1: { cbn [step]. unfold onLoad. cbv zeta.
       set (s0 := set_loadedCount _ (set_models _ s)).
       assert (Hq : quiet s s0) by (by apply quiet_same).
       destruct (decide (loadedCount s0 = length MODEL_PATHS)).
       - apply createCarousel_instances. by eapply quiet_inv.
       - eapply instances_ok_evolves; [by apply quiet_evolves | done | done]. }
  all: eapply instances_ok_evolves;
    [by apply step_inv | by apply step_objects | done].
Qed.

Lemma run_instances tr : ∀ s, heap_inv s → instances_ok s → instances_ok (run tr s).
Proof.
  induction tr as [|[now e] tr IH]; intros s Hinv Hok; [done|].
  cbn [run]. apply IH; [by apply step_inv | by apply step_instances].
Qed.

Lemma reachable_instances tr : instances_ok (run tr init).
Proof. apply run_instances; [apply init_inv | done]. Qed.

(** ** The ancestor walk has fuel enough *)

(** In a well-formed store parents are older than their children, so the
    walk from node [obj] ends within [obj + 1] steps: more fuel changes
    nothing. *)
Lemma find_root_fuel s : heap_inv s →
  ∀ obj fuel, obj < fuel → find_root fuel s obj = find_root (S obj) s obj.
Proof.
  intros Hinv obj. induction obj as [obj IH] using lt_wf_ind. intros fuel Hlt.
  destruct fuel as [|fuel]; [lia|]. cbn [find_root].
  destruct (objs s !! obj) as [o|] eqn:Ho; [|done].
  destruct (originalPosition (userData o)); [done|].
  destruct (parent o) as [p|] eqn:Hp; [|done].
  pose proof (inv_parent _ Hinv obj o p Ho Hp) as Hpo.
  rewrite (IH p Hpo fuel) by lia. by rewrite (IH p Hpo obj).
Qed.

Lemma pick_model_fuel s obj fuel : heap_inv s →
  (length (objs s) ≤ fuel)%nat →
  find_root fuel s obj = find_root (length (objs s)) s obj.
Proof.
  intros Hinv Hfuel. destruct (decide (obj < length (objs s))) as [Hlt|Hge].
  - rewrite (find_root_fuel s Hinv obj fuel) by lia.
    by rewrite (find_root_fuel s Hinv obj (length (objs s))).
  - assert (Hnone : objs s !! obj = None) by (apply lookup_ge_None_2; lia).
    destruct fuel as [|fuel]; destruct (length (objs s)) as [|n];
      cbn [find_root]; by rewrite ?Hnone.
Qed.

Ltac proj_simpl :=
  cbn [vecs objs objects models loadedCount currentHoveredModel hoveredObject isHovering
       pointerCursor clickCount clickTimer timers nextTimer lastClickTime location
       openedWindows tweens console
       set_vecs set_objs set_objects set_models set_loadedCount set_currentHoveredModel
       set_hoveredObject set_isHovering set_pointerCursor set_clickCount set_clickTimer
       set_timers set_nextTimer set_lastClickTime set_location set_openedWindows
       set_tweens set_console].

(** ** The two click listeners act on disjoint variables *)

Lemma onWindowClick_frame now intersects s :
  clickCount (onWindowClick now intersects s) = clickCount s ∧
  clickTimer (onWindowClick now intersects s) = clickTimer s ∧
  timers (onWindowClick now intersects s) = timers s ∧
  nextTimer (onWindowClick now intersects s) = nextTimer s ∧
  location (onWindowClick now intersects s) = location s ∧
  currentHoveredModel (onWindowClick now intersects s) = currentHoveredModel s.
Proof. unfold onWindowClick. by repeat case_match. Qed.

Lemma onMouseClick_frame now onContactButton s :
  lastClickTime (onMouseClick now onContactButton s) = lastClickTime s ∧
  openedWindows (onMouseClick now onContactButton s) = openedWindows s ∧
  currentHoveredModel (onMouseClick now onContactButton s) = currentHoveredModel s.
Proof.
  unfold onMouseClick, onModelClick, clearTimeout, setTimeout. cbv zeta.
  by repeat case_match.
Qed.

Lemma onWindowClick_reads now intersects s s' :
  lastClickTime s = lastClickTime s' → openedWindows s = openedWindows s' →
  lastClickTime (onWindowClick now intersects s) =
    lastClickTime (onWindowClick now intersects s') ∧
  openedWindows (onWindowClick now intersects s) =
    openedWindows (onWindowClick now intersects s').
Proof.
  intros Ht Hw. unfold onWindowClick. destruct intersects as [|first rest]; [done|].
  rewrite Ht. destruct (decide _); proj_simpl; by rewrite ?Hw.
Qed.

Lemma onWindowClick_hit now first rest s :
  lastClickTime (onWindowClick now (first :: rest) s) = now ∧
  openedWindows (onWindowClick now (first :: rest) s) =
    if decide (now - lastClickTime s < doubleClickThreshold)%Z
    then S (openedWindows s) else openedWindows s.
Proof. unfold onWindowClick. by destruct (decide _). Qed.

(** * The claims *)

(** ** Clicks *)

(** C6: a click while no model is the hover target never assigns the
    browser location, on either listener and wherever the click lands. *)
Theorem click_without_hover_never_navigates now onContactButton intersects s :
  currentHoveredModel s = None →
  location (step now (Click onContactButton intersects) s) = location s.
Proof.
  intros Hnone. cbn [step].
  destruct (onWindowClick_frame now intersects (onMouseClick now onContactButton s))
    as (_ & _ & _ & _ & -> & _).
  unfold onMouseClick, clearTimeout, setTimeout. cbv zeta.
  repeat case_match; try done.
  all: match goal with
       | H : currentHoveredModel _ = Some _ |- _ => cbn in H; congruence
       end.
Qed.

Lemma click_without_hover_never_navigates_witness :
  currentHoveredModel (run all_loaded init) = None ∧
  location (step 1000 (Click false [3]) (run all_loaded init)) = location (run all_loaded init).
Proof.
  split; [reflexivity|].
  apply (click_without_hover_never_navigates 1000 false [3] (run all_loaded init)).
  reflexivity.
Defined.

(** C9: when two clicks whose rays hit a carousel object are less than
    300 ms apart by time stamp, the second click listener opens a new
    window on the second one.  That listener writes none of the variables
    of the timer-based dispatcher, what it does depends on its own two
    variables only, and the dispatcher writes neither of them. *)
Theorem timestamp_listener_opens_window now1 now2 b1 b2 first1 rest1 first2 rest2 s :
  (now2 - now1 < doubleClickThreshold)%Z →
  let s1 := step now1 (Click b1 (first1 :: rest1)) s in
  let s2 := step now2 (Click b2 (first2 :: rest2)) s1 in
  openedWindows s2 = S (openedWindows s1) ∧
  (∀ now intersects t,
      clickCount (onWindowClick now intersects t) = clickCount t ∧
      clickTimer (onWindowClick now intersects t) = clickTimer t ∧
      timers (onWindowClick now intersects t) = timers t ∧
      nextTimer (onWindowClick now intersects t) = nextTimer t ∧
      location (onWindowClick now intersects t) = location t) ∧
  (∀ now intersects t t',
      lastClickTime t = lastClickTime t' → openedWindows t = openedWindows t' →
      lastClickTime (onWindowClick now intersects t) =
        lastClickTime (onWindowClick now intersects t') ∧
      openedWindows (onWindowClick now intersects t) =
        openedWindows (onWindowClick now intersects t')) ∧
  (∀ now b t,
      lastClickTime (onMouseClick now b t) = lastClickTime t ∧
      openedWindows (onMouseClick now b t) = openedWindows t).
Proof.
  intros Hlt. cbv zeta. split_and!.
  - cbn [step].
    set (t1 := onMouseClick now1 b1 s).
    set (s1 := onWindowClick now1 (first1 :: rest1) t1).
    destruct (onWindowClick_hit now1 first1 rest1 t1) as [Htime _]. fold s1 in Htime.
    destruct (onMouseClick_frame now2 b2 s1) as (Ht & Hw & _).
    destruct (onWindowClick_hit now2 first2 rest2 (onMouseClick now2 b2 s1)) as [_ ->].
    rewrite Ht, Htime, Hw. by rewrite decide_True.
  - intros now intersects t.
    destruct (onWindowClick_frame now intersects t) as (? & ? & ? & ? & ? & _). done.
  - apply onWindowClick_reads.
  - intros now b t. destruct (onMouseClick_frame now b t) as (? & ? & _). done.
Qed.

Lemma timestamp_listener_opens_window_witness :
  (1700000000200 - 1700000000000 < doubleClickThreshold)%Z ∧
  let s1 := step 1700000000000 (Click false [4]) (run all_loaded init) in
  let s2 := step 1700000000200 (Click false [4]) s1 in
  openedWindows s1 = 0 ∧ openedWindows s2 = 1.
Proof.
  split; [reflexivity|]. cbv zeta. split; [reflexivity|].
  pose proof (timestamp_listener_opens_window 1700000000000 1700000000200
                false false 4 [] 4 [] (run all_loaded init) eq_refl) as Hopen.
  cbv zeta in Hopen. destruct Hopen as [Hopen _].
  etransitivity; [exact Hopen | reflexivity].
Defined.

(** ** The render loop *)


(** ** Hover *)

Lemma reset_hovered_tweens c oc s :
  objs s !! c = Some oc → tweens (reset_hovered c s) = tweens s ++ [reset_tween oc].
Proof.
  intros Hc. unfold reset_hovered, gsap_to_scale, userData_of. by rewrite Hc.
Qed.

(** Entering a model: what [handleHover] does when the pick is a new root. *)
Lemma handleHover_enter intersects model o s :
  pick_model s intersects = Some model →
  currentHoveredModel s ≠ Some model →
  objs s !! model = Some o →
  let s' := handleHover intersects s in
  let previous :=
    match currentHoveredModel s ≫= (λ c, objs s !! c) with
    | Some oc => [reset_tween oc]
    | None => []
    end in
  currentHoveredModel s' = Some model ∧
  tweens s' = tweens s ++ previous ++ [hover_tween o] ∧
  pointerCursor s' = true.
Proof.
  intros Hpick Hne Ho. cbv zeta. unfold handleHover.
  destruct intersects as [|first rest]; [done|].
  rewrite Hpick. rewrite decide_False by done. cbv zeta.
  set (s1 := match currentHoveredModel s with Some c => reset_hovered c s | None => s end).
  assert (Hs1 : objs s1 = objs s ∧
                tweens s1 = tweens s ++
                  match currentHoveredModel s ≫= (λ c, objs s !! c) with
                  | Some oc => [reset_tween oc]
                  | None => []
                  end).
  { subst s1. destruct (currentHoveredModel s) as [c|]; cbn [mbind option_bind].
    - destruct (objs s !! c) as [oc|] eqn:Hc.
      + split; [|by apply reset_hovered_tweens].
        unfold reset_hovered, gsap_to_scale. by rewrite Hc.
      + unfold reset_hovered, gsap_to_scale. rewrite Hc. by rewrite app_nil_r.
    - by rewrite app_nil_r. }
  destruct Hs1 as [Hobjs Htw].
  set (s2 := set_currentHoveredModel (Some model) s1).
  assert (Ho2 : objs s2 !! model = Some o) by (subst s2; proj_simpl; by rewrite Hobjs).
  rewrite Ho2.
  set (s3 := if JS.truthy_ostr (userData_name (userData o)) then s2 else update_obj _ _ s2).
  assert (Hs3 : ∃ o', objs s3 !! model = Some o' ∧ scale o' = scale o ∧
                      originalScale (userData o') = originalScale (userData o) ∧
                      tweens s3 = tweens s1 ∧ currentHoveredModel s3 = Some model).
  { subst s3. destruct (JS.truthy_ostr _).
    - exists o. by split_and!.
    - eexists. split_and!; [| | |done|done].
      + change (objs (update_obj ?i ?f ?t)) with (alter f i (objs t)).
        rewrite list_lookup_alter_eq. rewrite Ho2. reflexivity.
      + done.
      + done. }
  destruct Hs3 as (o' & Ho' & Hsc & Hos & Htw3 & Hcur).
  unfold gsap_to_scale, userData_of. proj_simpl. rewrite Ho'. proj_simpl.
  split_and!; [done| |done].
  rewrite Htw3, Htw, <- app_assoc. unfold hover_tween. cbv zeta.
  by rewrite Hsc, Hos.
Qed.

(** The hover handler writes no xyz-object: every scale change it causes
    is left to a tween. *)
Lemma handleHover_vecs intersects s : vecs (handleHover intersects s) = vecs s.
Proof.
  unfold handleHover, unhover, reset_hovered, gsap_to_scale, update_obj. cbv zeta.
  repeat case_match; reflexivity.
Qed.

(** C5: a mouse move whose ray resolves to a tagged model root other than
    the current hover target requests a tween of the previous target, if
    there is one, back to its original scale, then a tween of the new
    target to 1.1 times its original scale, both of 0.3 s with the
    [power2.out] ease-out easing, and makes the new root the hover
    target.  The handler itself writes no scale: both changes are
    tweened. *)
Theorem hover_switch_tweens intersects model o s :
  pick_model s intersects = Some model →
  currentHoveredModel s ≠ Some model →
  objs s !! model = Some o →
  let s' := handleHover intersects s in
  let previous :=
    match currentHoveredModel s ≫= (λ c, objs s !! c) with
    | Some oc =>
        [ mkTween (scale oc) (originalScale (userData oc)) (originalScale (userData oc))
            (originalScale (userData oc)) 0.3%float (Some "power2.out") false ]
    | None => []
    end in
  let hoverScale := PrimFloat.mul (JS.to_number (originalScale (userData o))) 1.1%float in
  currentHoveredModel s' = Some model ∧
  tweens s' = tweens s ++ previous ++
    [ mkTween (scale o) (Some hoverScale) (Some hoverScale) (Some hoverScale)
        0.3%float (Some "power2.out") false ] ∧
  vecs s' = vecs s.
Proof.
  intros Hpick Hne Ho. cbv zeta.
  destruct (handleHover_enter intersects model o s Hpick Hne Ho) as (Hcur & Htw & _).
  split_and!.
  - exact Hcur.
  - exact Htw.
  - apply handleHover_vecs.
Qed.

Lemma hover_switch_tweens_witness :
  let s := run (all_loaded ++ [(40%Z, MouseMove [4])]) init in
  let s' := handleHover [9] s in
  currentHoveredModel s = Some 2 ∧
  currentHoveredModel s' = Some 6 ∧
  tweens s' = tweens s ++
    [ mkTween 8 (Some 3%float) (Some 3%float) (Some 3%float) 0.3%float
        (Some "power2.out") false;
      mkTween 24 (Some 3.3000000000000003%float) (Some 3.3000000000000003%float)
        (Some 3.3000000000000003%float) 0.3%float (Some "power2.out") false ].
Proof.
  cbv zeta. split; [reflexivity|].
  pose proof (hover_switch_tweens [9] 6
                (mkObject3D "carousel-item-1" (Some 1) [7] 22 23 24
                   (mkUserData (Some "shin") (Some 3%float) (Some 36) (Some 37)))
                (run (all_loaded ++ [(40%Z, MouseMove [4])]) init) eq_refl) as Hsw.
  cbv zeta in Hsw.
  destruct Hsw as (Hcur & Htw & _); [by vm_compute | reflexivity |].
  split; [exact Hcur|]. etransitivity; [exact Htw | reflexivity].
Defined.

(** ** The dispatcher's variables *)

Lemma same_controls_refl s : same_controls s s.
Proof. by split. Qed.

Lemma same_controls_trans s1 s2 s3 :
  same_controls s1 s2 → same_controls s2 s3 → same_controls s1 s3.
Proof. intros [] []. split; congruence. Qed.

Lemma createCarousel_loop_controls templates configs : ∀ i s,
  heap_inv s →
  same_controls s (state_of (createCarousel_loop templates i configs s)).
Proof.
  induction configs as [|config rest IH]; intros i s Hinv; [apply same_controls_refl|].
  cbn [createCarousel_loop].
  destruct (template_for templates i) as [[k [nm p r sc cs]]|] eqn:Ht.
  - rewrite (create_instance_closed _ _ _ _ _ _ _ _ _ _ (inv_carousel _ Hinv) Ht).
    destruct (instance_state_inv i k config p r cs s Hinv) as [Hinv' _].
    eapply same_controls_trans; [|by apply IH]. by split.
  - rewrite (create_instance_throws _ _ _ _ Ht). by split.
Qed.

Lemma createCarousel_controls templates s :
  heap_inv s → same_controls s (state_of (createCarousel templates s)).
Proof.
  intros Hinv. unfold createCarousel.
  eapply same_controls_trans; [|apply createCarousel_loop_controls].
  - by split.
  - eapply quiet_inv; [done | by apply quiet_same].
Qed.

Lemma timeout_or_not e : (∃ h, e = Timeout h) ∨ (∀ h, e ≠ Timeout h).
Proof. destruct e; try (by right); left; by eexists. Qed.

(** Every event but a click or a timer leaves the dispatcher's variables
    alone, and a timer does when it is not due. *)
Lemma step_click_state_other now e s :
  heap_inv s →
  is_click e = false →
  (∀ h, e ≠ Timeout h) →
  let s' := step now e s in
  clickCount s' = clickCount s ∧ clickTimer s' = clickTimer s ∧
  timers s' = timers s ∧ nextTimer s' = nextTimer s.
Proof.
  intros Hinv Hclick Htimeout. cbv zeta.
  destruct e as [index scene|index|hits|b hits|h|leaving| |hits|k v|k]; cbn [step];
    try done.
  - unfold onLoad. cbv zeta.
    set (s0 := set_loadedCount _ (set_models _ s)).
    destruct (decide _); [|done].
    assert (Hinv0 : heap_inv s0) by (eapply quiet_inv; [done | by apply quiet_same]).
    by destruct (createCarousel_controls (models s0) s0 Hinv0).
  - unfold_handlers. by repeat case_match.
  - by destruct (Htimeout h).
  - unfold_handlers. by repeat case_match.
  - unfold_handlers. by repeat case_match.
  - unfold_handlers. by repeat case_match.
  - unfold_handlers. by repeat case_match.
  - unfold_handlers. by repeat case_match.
Qed.

Lemma step_click_state now e s :
  heap_inv s →
  is_click e = false →
  (∀ h due, (h, due) ∈ timers s → (now < due)%Z) →
  let s' := step now e s in
  clickCount s' = clickCount s ∧ clickTimer s' = clickTimer s ∧
  timers s' = timers s ∧ nextTimer s' = nextTimer s.
Proof.
  intros Hinv Hclick Hdue.
  destruct (timeout_or_not e) as [[h ->]|Hne].
  - cbv zeta. cbn [step]. unfold fire_timer.
    destruct (list_find _ (timers s)) as [[j [h' due]]|] eqn:Hfind; [|done].
    apply list_find_Some in Hfind as (Hj & _ & _).
    rewrite decide_False; [done|].
    assert ((h', due) ∈ timers s) as Hin by (apply list_elem_of_lookup; eauto).
    specialize (Hdue _ _ Hin). lia.
  - by apply step_click_state_other.
Qed.

Lemma run_click_state bound mid : ∀ s,
  heap_inv s →
  Forall (λ te : Z * Event, (te.1 ≤ bound)%Z ∧ is_click te.2 = false) mid →
  (∀ h due, (h, due) ∈ timers s → (bound < due)%Z) →
  clickCount (run mid s) = clickCount s ∧ clickTimer (run mid s) = clickTimer s ∧
  timers (run mid s) = timers s.
Proof.
  induction mid as [|[now e] mid IH]; intros s Hinv Hmid Hdue; [done|].
  apply Forall_cons in Hmid as [[Hnow Hclick] Hmid]. cbn [run]. cbn in Hnow, Hclick.
  destruct (step_click_state now e s Hinv Hclick) as (Hc & Ht & Htm & _).
  { intros h due Hin. specialize (Hdue _ _ Hin). lia. }
  destruct (IH (step now e s)) as (Hc' & Ht' & Htm'); [by apply step_inv | done | |].
  - by rewrite Htm.
  - rewrite Hc', Ht', Htm'. done.
Qed.

(** The first click of a sequence starts the timer. *)
Lemma onMouseClick_first now s :
  clickCount s = 0 → clickTimer s = None → timers s = [] →
  let s' := onMouseClick now false s in
  clickCount s' = 1 ∧ clickTimer s' = Some (nextTimer s) ∧
  timers s' = [(nextTimer s, (now + 300)%Z)] ∧
  location s' = location s ∧ objs s' = objs s.
Proof.
  intros Hc Ht Htm. cbv zeta. unfold onMouseClick, setTimeout. cbv zeta. proj_simpl.
  rewrite Ht. cbn [truthy_handle]. proj_simpl. rewrite Hc.
  rewrite decide_True by done. proj_simpl. by rewrite Htm.
Qed.

(** A click that finds the timer pending cancels it, and navigates when a
    model is hovered. *)
Lemma onMouseClick_second_state now h due s :
  clickCount s = 1 → clickTimer s = Some h → timers s = [(h, due)] →
  let s' := onMouseClick now false s in
  clickCount s' = 0 ∧ clickTimer s' = None ∧ timers s' = [].
Proof.
  intros Hc Ht Htm. cbv zeta.
  unfold onMouseClick, onModelClick, clearTimeout. cbv zeta. proj_simpl.
  rewrite Ht, Hc, Htm. cbn [truthy_handle].
  assert (Hf : filter (λ p : nat * Z, p.1 ≠ h) [(h, due)] = []).
  { rewrite filter_cons_False; [done|]. cbn. by intros []. }
  destruct (negb (h =? 0)%nat).
  all: repeat first
         [ progress proj_simpl | rewrite Ht | rewrite Hc | rewrite Htm | rewrite Hf
         | rewrite decide_False by done ].
  all: destruct (currentHoveredModel s) as [c|]; proj_simpl; [|done].
  all: destruct (objs s !! c); proj_simpl; done.
Qed.

Lemma onMouseClick_second now h due model o s :
  clickCount s = 1 → clickTimer s = Some h → timers s = [(h, due)] →
  currentHoveredModel s = Some model → objs s !! model = Some o →
  location (onMouseClick now false s) = Some (html_of (pageName_of (modelName_of s o))).
Proof.
  intros Hc Ht Htm Hcur Ho.
  unfold onMouseClick, onModelClick, clearTimeout. cbv zeta. proj_simpl.
  rewrite Ht, Hc, Htm. cbn [truthy_handle].
  destruct (negb (h =? 0)%nat).
  all: repeat first
         [ progress proj_simpl | rewrite Ht | rewrite Hc | rewrite Htm
         | rewrite Hcur | rewrite Ho | rewrite decide_False by done ].
  all: done.
Qed.

Lemma fire_timer_state now h s :
  click_inv s → click_inv (fire_timer now h s).
Proof.
  intros Hinv. unfold fire_timer.
  destruct (list_find _ (timers s)) as [[j [h' due]]|] eqn:Hfind; [|done].
  destruct (decide (due ≤ now)%Z); [|done].
  apply list_find_Some in Hfind as (Hj & Hh & _). cbn in Hh. subst h'.
  destruct Hinv as [(_ & _ & Htm)|(_ & h0 & due0 & _ & Htm)].
  - rewrite Htm in Hj. done.
  - rewrite Htm in Hj. destruct j; [|done]. injection Hj as -> ->.
    left. unfold clickTimer_fired, clearTimeout. proj_simpl. rewrite Htm.
    split_and!; [done | done |]. rewrite filter_cons_False; [done|]. cbn. by intros [].
Qed.

Lemma step_click_inv now e s : heap_inv s → click_inv s → click_inv (step now e s).
Proof.
  intros Hheap Hinv.
  destruct (is_click e) eqn:Hclick.
  - destruct e as [| | |b hits| | | | | |]; try done. cbn [step].
    destruct (onWindowClick_frame now hits (onMouseClick now b s)) as (Hc & Ht & Htm & _).
    unfold click_inv. rewrite Hc, Ht, Htm.
    destruct b; [done|].
    destruct Hinv as [(Hc0 & Ht0 & Htm0)|(Hc1 & h & due & Ht1 & Htm1)].
    + destruct (onMouseClick_first now s Hc0 Ht0 Htm0) as (-> & -> & -> & _).
      right. split; [done|]. by eexists _, _.
    + destruct (onMouseClick_second_state now h due s Hc1 Ht1 Htm1) as (-> & -> & ->).
      by left.
  - destruct (timeout_or_not e) as [[h ->]|Hne].
    + by apply fire_timer_state.
    + destruct (step_click_state_other now e s Hheap Hclick Hne) as (Hc & Ht & Htm & _).
      unfold click_inv. by rewrite Hc, Ht, Htm.
Qed.

Lemma reachable_click_inv tr : click_inv (run tr init).
Proof.
  assert (Hgen : ∀ s, heap_inv s → click_inv s → click_inv (run tr s)).
  { induction tr as [|[now e] tr IH]; intros s Hheap Hinv; [done|].
    cbn [run]. apply IH; [by apply step_inv | by apply step_click_inv]. }
  apply Hgen; [apply init_inv | by left].
Qed.

(** The page table: the code's lookup agrees with the table and its
    default on every name that is not a built-in member of objects. *)
Lemma pageName_of_spec modelName :
  modelName ∉ JS.Object_prototype →
  html_of (pageName_of modelName) = HrefText (spec_page modelName +:+ ".html").
Proof.
  intros Hproto. unfold pageName_of, spec_page, JS.get.
  destruct (modelPages !! modelName) as [page|] eqn:Hpage.
  - assert (JS.truthy (JS.Str page) = true) as ->; [|done].
    unfold modelPages in Hpage.
    destruct (decide (modelName = "rockbody")) as [->|?];
      [by simplify_map_eq|].
    destruct (decide (modelName = "shin")) as [->|?];
      [by simplify_map_eq|].
    destruct (decide (modelName = "kidsynth")) as [->|?];
      [by simplify_map_eq|].
    by simplify_map_eq.
  - rewrite bool_decide_eq_false_2 by done. done.
Qed.

Lemma config_page i config :
  MODEL_POSITIONS !! i = Some config → cfg_name config ∉ JS.Object_prototype.
Proof.
  destruct i as [|[|[|i]]]; intros Hi; simplify_eq/=;
    by apply (bool_decide_unpack _).
Qed.

(** ** The double click *)

(** C1 does not hold as stated: with a model hovered, two clicks 100 ms
    apart that land on the contact button assign no location. *)
Lemma double_click_on_contact_button_ignored :
  let s := run (all_loaded ++ [(40%Z, MouseMove [4])]) init in
  let s1 := step 1000 (Click true [4]) s in
  let s2 := step 1100 (Click true [4]) s1 in
  objects s !! 0 = Some 2 ∧
  currentHoveredModel s = Some 2 ∧ currentHoveredModel s1 = Some 2 ∧
  clickCount s = 0 ∧ timers s = [] ∧
  (1100 < 1000 + 300)%Z ∧
  timers s1 = [] ∧
  location s2 = None.
Proof. cbv zeta. by vm_compute. Qed.

(** C1, amended: for a model instance that is the hover target at the
    second click, two clicks less than 300 ms apart, neither on the
    contact button, the first finding the dispatcher idle, with no click
    in between: the first click leaves one pending timer, the second
    cancels it, resets the dispatcher and assigns the location
    [page.html], where [page] is the entry of the fixed table for the
    instance's name, or [index] for a name without entry.  The code's
    lookup agrees with that table on every name that is not a built-in
    member name of objects. *)
Theorem double_click_navigates tr now1 now2 mid hits1 hits2 i model config :
  let s := run tr init in
  clickCount s = 0 →
  (now2 < now1 + 300)%Z →
  Forall (λ te : Z * Event, (te.1 ≤ now2)%Z ∧ is_click te.2 = false) mid →
  let s1 := run mid (step now1 (Click false hits1) s) in
  currentHoveredModel s1 = Some model →
  objects s1 !! i = Some model →
  MODEL_POSITIONS !! i = Some config →
  let s2 := step now2 (Click false hits2) s1 in
  (∃ h, clickTimer s1 = Some h ∧ timers s1 = [(h, (now1 + 300)%Z)]) ∧
  timers s2 = [] ∧ clickTimer s2 = None ∧ clickCount s2 = 0 ∧
  location s2 = Some (HrefText (spec_page (cfg_name config) +:+ ".html")) ∧
  (∀ modelName, modelName ∉ JS.Object_prototype →
     html_of (pageName_of modelName) = HrefText (spec_page modelName +:+ ".html")).
Proof.
  intros s Hidle Hnow Hmid s1 Hcur Hobj Hcfg s2.
  assert (Hheap : heap_inv s) by apply reachable_inv.
  destruct (reachable_click_inv tr) as [(Hc0 & Ht0 & Htm0)|(Hc1 & _)];
    [|fold s in Hc1; congruence].
  fold s in Hc0, Ht0, Htm0.
  set (sA := step now1 (Click false hits1) s) in *.
  assert (HA : clickCount sA = 1 ∧ clickTimer sA = Some (nextTimer s) ∧
               timers sA = [(nextTimer s, (now1 + 300)%Z)]).
  { subst sA. cbn [step].
    destruct (onWindowClick_frame now1 hits1 (onMouseClick now1 false s))
      as (-> & -> & -> & _).
    by destruct (onMouseClick_first now1 s Hc0 Ht0 Htm0) as (? & ? & ? & _). }
  destruct HA as (HcA & HtA & HtmA).
  assert (HheapA : heap_inv sA) by (by apply step_inv).
  destruct (run_click_state now2 mid sA HheapA Hmid) as (Hc1 & Ht1 & Htm1).
  { intros h due Hin. rewrite HtmA in Hin. apply list_elem_of_singleton in Hin.
    injection Hin as -> ->. lia. }
  fold s1 in Hc1, Ht1, Htm1. rewrite HcA in Hc1. rewrite HtA in Ht1. rewrite HtmA in Htm1.
  assert (Hreach : s1 = run (tr ++ (now1, Click false hits1) :: mid) init).
  { subst s1 sA s. by rewrite run_app. }
  assert (Hinst : instance_ok s1 i model).
  { rewrite Hreach. apply reachable_instances. by rewrite <- Hreach. }
  destruct Hinst as (config' & o & a & b & Hcfg' & Ho & Hud & _).
  assert (config' = config) as -> by congruence.
  assert (Hname : modelName_of s1 o = cfg_name config).
  { unfold modelName_of. rewrite Hud. cbn [userData_name JS.or_str].
    pose proof (config_name_truthy _ _ Hcfg) as Htruthy. cbn in Htruthy.
    by rewrite Htruthy. }
  split_and!.
  - exists (nextTimer s). split; [exact Ht1 | exact Htm1].
  - subst s2. cbn [step].
    destruct (onWindowClick_frame now2 hits2 (onMouseClick now2 false s1))
      as (_ & _ & -> & _).
    by destruct (onMouseClick_second_state now2 _ _ s1 Hc1 Ht1 Htm1) as (_ & _ & ?).
  - subst s2. cbn [step].
    destruct (onWindowClick_frame now2 hits2 (onMouseClick now2 false s1))
      as (_ & -> & _).
    by destruct (onMouseClick_second_state now2 _ _ s1 Hc1 Ht1 Htm1) as (_ & ? & _).
  - subst s2. cbn [step].
    destruct (onWindowClick_frame now2 hits2 (onMouseClick now2 false s1))
      as (-> & _).
    by destruct (onMouseClick_second_state now2 _ _ s1 Hc1 Ht1 Htm1) as (? & _ & _).
  - subst s2. cbn [step].
    destruct (onWindowClick_frame now2 hits2 (onMouseClick now2 false s1))
      as (_ & _ & _ & _ & -> & _).
    rewrite (onMouseClick_second now2 _ _ model o s1 Hc1 Ht1 Htm1 Hcur Ho), Hname.
    f_equal. apply pageName_of_spec. by eapply config_page.
  - apply pageName_of_spec.
Qed.

Lemma double_click_navigates_witness :
  let s := run (all_loaded ++ [(40%Z, MouseMove [4])]) init in
  let s1 := run [(1100%Z, Frame [4]); (1150%Z, Timeout 1)]
                (step 1000 (Click false [4]) s) in
  clickCount s = 0 ∧ currentHoveredModel s1 = Some 2 ∧ objects s1 !! 0 = Some 2 ∧
  location (step 1200 (Click false [4]) s1) = Some (HrefText "LI1-new.html").
Proof.
  cbv zeta. split_and!; [reflexivity | reflexivity | reflexivity |].
  pose proof (double_click_navigates (all_loaded ++ [(40%Z, MouseMove [4])])
                1000 1200 [(1100%Z, Frame [4]); (1150%Z, Timeout 1)] [4] [4] 0 2
                (mkModelPosition "rockbody"
                   (mkVector3 (-8)%float 0%float 0%float)
                   (mkVector3 (-0.5)%float 1.9%float 1.5%float) MODEL_SCALE)) as Hdbl.
  cbv zeta in Hdbl.
  destruct Hdbl as (_ & _ & _ & _ & Hloc & _);
    [reflexivity | reflexivity | | reflexivity | reflexivity | reflexivity |].
  - repeat (apply List.Forall_cons; [cbn; split; [lia | reflexivity]|]).
    apply List.Forall_nil.
  - etransitivity; [exact Hloc | reflexivity].
Defined.


Lemma config_scale i config :
  MODEL_POSITIONS !! i = Some config → scale_of config = MODEL_SCALE.
Proof. destruct i as [|[|[|i]]]; intros Hi; by simplify_eq/=. Qed.

(** ** Hover and un-hover *)



(** ** The stored originals *)

(** C10: the originals recorded in a node's [userData] are copies of their
    own.  From any reachable state on, whatever events follow (tween
    updates and completions, render-loop frames, hover moves, further
    loads), the node keeps the same [originalScale], [originalPosition]
    and [originalRotation], the xyz-objects stored there keep their
    contents, and none of them is the live position, rotation or scale
    object of any node.  For a model instance these contents are the
    values computed from its configuration entry at construction. *)
Theorem originals_are_independent_copies tr1 tr2 id o :
  let s1 := run tr1 init in
  let s2 := run tr2 s1 in
  objs s1 !! id = Some o →
  ∃ o',
    objs s2 !! id = Some o' ∧
    originalScale (userData o') = originalScale (userData o) ∧
    originalPosition (userData o') = originalPosition (userData o) ∧
    originalRotation (userData o') = originalRotation (userData o) ∧
    (∀ a, is_original o a →
       vecs s2 !! a = vecs s1 !! a ∧
       ∀ id' o'', objs s2 !! id' = Some o'' → ¬ is_live o'' a) ∧
    (∀ i config,
       objects s1 !! i = Some id → MODEL_POSITIONS !! i = Some config →
       originalScale (userData o') = Some (scale_of config) ∧
       ∃ a b,
         originalPosition (userData o') = Some a ∧ vecs s2 !! a = Some (position_of config) ∧
         originalRotation (userData o') = Some b ∧ vecs s2 !! b = Some (rotation_of config)).
Proof.
  intros s1 s2 Ho.
  assert (Hinv1 : heap_inv s1) by apply reachable_inv.
  destruct (run_inv tr2 s1 Hinv1) as [Hinv2 Hev]. fold s2 in Hinv2, Hev.
  destruct (proj1 Hev id o Ho) as (o' & Ho' & Hk).
  exists o'. split_and!; try apply Hk; [done | |].
  - intros a Ha. split; [by apply (proj2 Hev id o)|].
    intros id' o'' Hid'. apply (inv_sep _ Hinv2 id o' id' o'' a Ho' Hid').
    by apply (node_kept_original o o').
  - intros i config Hobj Hcfg.
    assert (Hinst : instance_ok s2 i id).
    { apply (instance_ok_evolves s1 s2 i id Hev). by apply reachable_instances. }
    destruct Hinst as (config' & o2 & a & b & Hcfg' & Ho2 & Hud & Ha & Hb).
    assert (config' = config) as -> by congruence.
    assert (o2 = o') as -> by congruence.
    rewrite Hud. split; [done|]. by exists a, b.
Qed.

Lemma originals_are_independent_copies_witness :
  let s1 := run (all_loaded ++ [(40%Z, MouseMove [4])]) init in
  let s2 := run [(50%Z, TweenUpdate 0 (mkVector3 3.2%float 3.2%float 3.2%float));
                 (60%Z, Frame [2]); (70%Z, TweenComplete 0); (80%Z, MouseMove [])] s1 in
  vecs s1 !! 8 = Some (mkVector3 3%float 3%float 3%float) ∧
  vecs s2 !! 8 = Some (mkVector3 3.3000000000000003%float 3.3000000000000003%float
                                 3.3000000000000003%float) ∧
  vecs s2 !! 20 = vecs s1 !! 20 ∧
  vecs s2 !! 20 = Some (mkVector3 (-8)%float 0%float 0%float).
Proof.
  cbv zeta. split_and!; [reflexivity | reflexivity | | reflexivity].
  pose proof (originals_are_independent_copies
                (all_loaded ++ [(40%Z, MouseMove [4])])
                [(50%Z, TweenUpdate 0 (mkVector3 3.2%float 3.2%float 3.2%float));
                 (60%Z, Frame [2]); (70%Z, TweenComplete 0); (80%Z, MouseMove [])]
                2
                (mkObject3D "carousel-item-0" (Some 1) [3] 6 7 8
                   (mkUserData (Some "rockbody") (Some 3%float) (Some 20) (Some 21)))
                eq_refl) as Horig.
  cbv zeta in Horig. destruct Horig as (o' & _ & _ & _ & _ & Hcells & _).
  apply (Hcells 20). by left.
Defined.

(** ** Sparse arrays *)

Lemma array_get_set {A} (arr : list (option A)) i j v :
  JS.array_get (JS.array_set arr i v) j =
  if decide (j = i) then Some v else JS.array_get arr j.
Proof.
  unfold JS.array_get, JS.array_set.
  destruct (decide (i < length arr)) as [Hlt|Hge].
  - destruct (decide (j = i)) as [->|Hne].
    + by rewrite list_lookup_insert_eq.
    + by rewrite list_lookup_insert_ne.
  - destruct (decide (j = i)) as [->|Hne].
    + rewrite lookup_app_r by lia. rewrite lookup_app_r; rewrite length_replicate; [|lia].
      by replace (i - length arr - (i - length arr)) with 0 by lia.
    + destruct (decide (j < length arr)) as [Hj|Hj].
      * by rewrite lookup_app_l.
      * rewrite (lookup_ge_None_2 arr j) by lia.
        rewrite lookup_app_r by lia.
        destruct (decide (j - length arr < i - length arr)) as [Hin|Hout].
        -- rewrite lookup_app_l by (by rewrite length_replicate).
           by rewrite lookup_replicate_2.
        -- rewrite lookup_app_r by (rewrite length_replicate; lia).
           rewrite length_replicate.
           destruct (j - length arr - (i - length arr)) as [|d] eqn:Hd; [lia|done].
Qed.

Lemma length_array_set {A} (arr : list (option A)) i v :
  length (JS.array_set arr i v) = length arr `max` S i.
Proof.
  unfold JS.array_set. destruct (decide (i < length arr)).
  - rewrite length_insert. lia.
  - rewrite !length_app, length_replicate. cbn. lia.
Qed.

Lemma array_get_length {A} (arr : list (option A)) j :
  is_Some (JS.array_get arr j) → j < length arr.
Proof.
  unfold JS.array_get. intros [t Ht].
  destruct (arr !! j) eqn:Hj; [|done]. by apply lookup_lt_Some in Hj.
Qed.

(** When every slot of a non-empty array is filled, every index finds a
    template, the one at the index modulo the length. *)
Lemma template_for_full templates j :
  templates ≠ [] →
  (∀ k, k < length templates → is_Some (JS.array_get templates k)) →
  ∃ t, template_for templates j = Some (j mod length templates, t).
Proof.
  intros Hne Hfull. unfold template_for.
  destruct (decide (length templates = 0)) as [H0|Hn].
  - by destruct templates.
  - destruct (Hfull (j mod length templates)) as [t Ht].
    { apply Nat.mod_upper_bound. lia. }
    exists t. by rewrite Ht.
Qed.

(** ** createCarousel returns with one instance per configuration entry *)

Lemma createCarousel_loop_returns templates configs : ∀ i s,
  heap_inv s →
  (∀ j, is_Some (template_for templates j)) →
  ∃ s', createCarousel_loop templates i configs s = Returned s' ∧
        length (objects s') = length (objects s) + length configs ∧
        (∀ msg, msg ∈ console s → msg ∈ console s').
Proof.
  induction configs as [|config rest IH]; intros i s Hinv Hall.
  - exists s. split_and!; [done | cbn; lia | done].
  - cbn [createCarousel_loop].
    destruct (Hall i) as [[k [nm p r sc cs]] Ht].
    rewrite (create_instance_closed _ _ _ _ _ _ _ _ _ _ (inv_carousel _ Hinv) Ht).
    destruct (instance_state_inv i k config p r cs s Hinv) as [Hinv' _].
    destruct (IH (S i) _ Hinv' Hall) as (s' & Hs' & Hlen & Hcon).
    exists s'. split_and!; [done | |].
    + rewrite Hlen, instance_state_objects, length_app. cbn. lia.
    + intros msg Hmsg. apply Hcon. cbn. apply elem_of_app. by left.
Qed.

Lemma createCarousel_returns templates s :
  heap_inv s →
  (∀ j, is_Some (template_for templates j)) →
  ∃ s', createCarousel templates s = Returned s' ∧
        length (objects s') = length MODEL_POSITIONS ∧
        "Creating carousel with models:" ∈ console s'.
Proof.
  intros Hinv Hall. unfold createCarousel.
  destruct (createCarousel_loop_returns templates MODEL_POSITIONS 0
              (set_objects [] (console_log "Creating carousel with models:" s)))
    as (s' & Hs' & Hlen & Hcon); [|done|].
  - eapply quiet_inv; [done | by apply quiet_same].
  - exists s'. split_and!; [done | done |].
    apply Hcon. cbn. apply elem_of_app. right. by apply list_elem_of_singleton.
Qed.

(** ** The loader *)

Lemma loads_app tr1 tr2 : loads (tr1 ++ tr2) = loads tr1 ++ loads tr2.
Proof.
  induction tr1 as [|[now e] tr1 IH]; [done|]. destruct e; cbn; by rewrite ?IH.
Qed.

Lemma NoDup_bounded_length (l : list nat) n :
  NoDup l → (∀ x, x ∈ l → x < n) → (length l ≤ n)%nat.
Proof.
  intros Hnd Hlt. transitivity (length (seq 0 n)); [|by rewrite length_seq].
  apply submseteq_length, NoDup_submseteq; [done|].
  intros x Hx. apply elem_of_seq. specialize (Hlt x Hx). lia.
Qed.

Lemma loader_ok_prefix tr1 tr2 : loader_ok (tr1 ++ tr2) → loader_ok tr1.
Proof.
  unfold loader_ok. rewrite loads_app. intros [Hnd Hlt]. split.
  - by apply NoDup_app in Hnd as (? & _).
  - intros x Hx. apply Hlt, elem_of_app. by left.
Qed.

(** What an event other than a load completion does to the loader's
    variables and to the console. *)
Lemma step_other_models now e s :
  (∀ index scene, e ≠ Loaded index scene) → models (step now e s) = models s.
Proof.
  intros Hne. destruct e; cbn [step]; try done.
  1: by destruct (Hne index scene).
  all: unfold_handlers; by repeat case_match.
Qed.

Lemma step_other_loadedCount now e s :
  (∀ index scene, e ≠ Loaded index scene) → loadedCount (step now e s) = loadedCount s.
Proof.
  intros Hne. destruct e; cbn [step]; try done.
  1: by destruct (Hne index scene).
  all: unfold_handlers; by repeat case_match.
Qed.

Lemma step_other_console now e s :
  (∀ index scene, e ≠ Loaded index scene) →
  console (step now e s) = console s ∨ console (step now e s) = console s ++ ["FPS:"].
Proof.
  intros Hne.
  destruct e as [index scene|index|hits|b hits|h|leaving| |hits|k v|k]; cbn [step].
  1: by destruct (Hne index scene).
  1: by left.
  6: { right. unfold_handlers. by repeat case_match. }
  all: left; unfold_handlers; by repeat case_match.
Qed.

Lemma three_distinct (l : list nat) j :
  NoDup l → (∀ x, x ∈ l → x < 3) → length l = 3 → j < 3 → j ∈ l.
Proof.
  intros Hnd Hlt Hlen Hj.
  destruct l as [|a [|b [|c [|d l]]]]; try done.
  apply NoDup_cons in Hnd as [Ha Hnd]. apply NoDup_cons in Hnd as [Hb _].
  assert (a ≠ b) by (intros ->; apply Ha; rewrite !elem_of_cons; auto).
  assert (a ≠ c) by (intros ->; apply Ha; rewrite !elem_of_cons; auto).
  assert (b ≠ c) by (intros ->; apply Hb; rewrite !elem_of_cons; auto).
  assert (a < 3) by (apply Hlt; rewrite !elem_of_cons; auto).
  assert (b < 3) by (apply Hlt; rewrite !elem_of_cons; auto).
  assert (c < 3) by (apply Hlt; rewrite !elem_of_cons; auto).
  rewrite !elem_of_cons. lia.
Qed.

Lemma reachable_loader tr : loader_ok tr → loader_inv tr (run tr init).
Proof.
  induction tr as [|[now e] tr IH] using rev_ind; intros Hok.
  - split; [done | | cbn; lia | left; split_and!; [cbn; lia | done |]].
    + intros j. cbn. split; [by intros [? ?] | by intros ?%elem_of_nil].
    + unfold built. cbn. rewrite !elem_of_cons. intros [?|[?|[?|[?|?%elem_of_nil]]]]; done.
  - specialize (IH (loader_ok_prefix _ _ Hok)).
    rewrite run_app. cbn [run].
    set (s := run tr init) in *.
    assert (Hheap : heap_inv s) by apply reachable_inv.
    destruct Hok as [Hnd Hlt]. rewrite loads_app in Hnd, Hlt.
    destruct IH as [Hcount Hmodels Hlength Hstate].
    assert (Hother : (∀ index scene, e ≠ Loaded index scene) →
                     loader_inv (tr ++ [(now, e)]) (step now e s)).
    { intros Hne.
      assert (Hloads : loads (tr ++ [(now, e)]) = loads tr).
      { rewrite loads_app. destruct e; cbn; rewrite ?app_nil_r; try done.
        by destruct (Hne index scene). }
      split; rewrite ?Hloads, ?(step_other_models _ _ _ Hne),
               ?(step_other_loadedCount _ _ _ Hne), ?(step_objects _ _ _ Hne); try done.
      unfold built in *.
      destruct (step_other_console now e s Hne) as [->| ->]; [done|].
      destruct Hstate as [(? & ? & Hnb)|(? & ? & Hb)]; [left|right]; split_and!; try done.
      - rewrite elem_of_app, list_elem_of_singleton. by intros [?|?].
      - apply elem_of_app. by left. }
    destruct e as [index scene| | | | | | | | |]; try (by apply Hother).
    clear Hother. cbn [loads] in Hnd, Hlt.
    assert (Hnd' := Hnd).
    apply NoDup_app in Hnd as (Hnd1 & Hfresh & _).
    assert (Hidx : index < 3).
    { apply Hlt, elem_of_app. right. by apply list_elem_of_singleton. }
    assert (Hbound : (length (loads tr ++ [index]) ≤ 3)%nat)
      by (by apply NoDup_bounded_length).
    rewrite length_app in Hbound. cbn in Hbound.
    cbn [step]. unfold onLoad. cbv zeta.
    set (s0 := set_loadedCount _ (set_models _ s)).
    assert (Hlc0 : loadedCount s0 = S (loadedCount s)) by done.
    assert (Hheap0 : heap_inv s0) by (eapply quiet_inv; [done | by apply quiet_same]).
    assert (Hmodels0 : ∀ j, is_Some (JS.array_get (models s0) j) ↔ j ∈ loads tr ++ [index]).
    { intros j. subst s0. proj_simpl.
      rewrite array_get_set, elem_of_app, list_elem_of_singleton.
      destruct (decide (j = index)) as [->|Hne].
      - split; [by right | by eexists].
      - rewrite Hmodels. split; [by left | by intros [?|?]]. }
    assert (Hlength0 : (length (models s0) ≤ 3)%nat).
    { subst s0. proj_simpl. rewrite length_array_set. cbn in Hlength. lia. }
    assert (Hcount0 : loadedCount s0 = length (loads (tr ++ [(now, Loaded index scene)]))).
    { subst s0. proj_simpl. rewrite loads_app, length_app, Hcount. cbn. lia. }
    assert (Hloads0 : ∀ j, is_Some (JS.array_get (models s0) j) ↔
                           j ∈ loads (tr ++ [(now, Loaded index scene)])).
    { intros j. by rewrite loads_app. }
    destruct Hstate as [(Hlt3 & Hobj & Hnb)|(Heq3 & _)];
      [|rewrite Hcount in Heq3; cbn in Heq3; lia].
    destruct (decide (loadedCount s0 = length MODEL_PATHS)) as [Hthree|Hless].
    + assert (Hfull : ∀ j, j < 3 → is_Some (JS.array_get (models s0) j)).
      { intros j Hj. apply Hmodels0. apply three_distinct; try done.
        rewrite length_app. cbn. rewrite <- Hcount. rewrite Hlc0 in Hthree.
        cbn in Hthree. lia. }
      assert (Hpos : 0 < length (models s0)) by (apply array_get_length, Hfull; lia).
      destruct (createCarousel_returns (models s0) s0 Hheap0) as (s' & Hs' & Hlen & Hb).
      { intros j. destruct (template_for_full (models s0) j) as [t Ht]; [| |by eexists].
        - intros Hnil. rewrite Hnil in Hpos. cbn in Hpos. lia.
        - intros k Hk. apply Hfull. lia. }
      pose proof (createCarousel_controls (models s0) s0 Hheap0) as Hctl.
      rewrite Hs' in Hctl |- *. cbn [state_of] in Hctl |- *.
      destruct Hctl as [_ _ _ _ _ _ _ _ _ _ Hm Hl].
      split; rewrite ?Hl, ?Hm; try done.
      right. by split_and!.
    + split; try done. left. split_and!; [|done|done].
      rewrite Hlc0 in *. cbn in *. lia.
Qed.

(** ** The loader claims *)

(** C7: in an execution where some path's load never completes, at every
    point the load counter is below the number of paths, [createCarousel]
    has not been called (its first statement has logged nothing), and the
    instance list is empty; a failed load runs no code of the script, so
    it changes nothing and reports nothing. *)
Theorem failed_load_never_builds tr1 tr2 index :
  loader_ok (tr1 ++ tr2) →
  index < length MODEL_PATHS →
  index ∉ loads (tr1 ++ tr2) →
  let s := run tr1 init in
  loadedCount s < length MODEL_PATHS ∧
  ("Creating carousel with models:" ∉ console s) ∧
  objects s = [] ∧
  (∀ now failed t, step now (LoadFailed failed) t = t).
Proof.
  intros Hok Hidx Hmiss s.
  destruct (reachable_loader tr1 (loader_ok_prefix _ _ Hok)) as [Hcount _ _ Hstate].
  fold s in Hcount, Hstate.
  assert (Hbound : (length (index :: loads (tr1 ++ tr2)) ≤ 3)%nat).
  { destruct Hok as [Hnd Hlt]. apply NoDup_bounded_length.
    - by apply NoDup_cons.
    - intros x [->|Hx]%elem_of_cons; [done | by apply Hlt]. }
  rewrite loads_app in Hbound. cbn in Hbound. rewrite length_app in Hbound.
  destruct Hstate as [(Hlt3 & Hobj & Hnb)|(Heq3 & _)].
  - by split_and!.
  - rewrite Hcount in Heq3. cbn in Heq3. lia.
Qed.

Lemma failed_load_never_builds_witness :
  let s := run [(10%Z, Loaded 1 cube); (15%Z, LoadFailed 0); (20%Z, Loaded 2 cube);
                (30%Z, MouseMove [1]); (40%Z, Frame [])] init in
  loadedCount s = 2 ∧ objects s = [] ∧ console s = console init ++ ["FPS:"].
Proof.
  cbv zeta. split; [reflexivity|]. split; [|reflexivity].
  refine (proj1 (proj2 (proj2
    (failed_load_never_builds
       [(10%Z, Loaded 1 cube); (15%Z, LoadFailed 0); (20%Z, Loaded 2 cube);
        (30%Z, MouseMove [1]); (40%Z, Frame [])] [] 0 _ _ _)))).
  - split.
    + cbn. apply NoDup_cons. split; [by intros ?%list_elem_of_singleton|].
      apply NoDup_singleton.
    + cbn. intros x. rewrite !elem_of_cons. intros [->|[->|?%elem_of_nil]]; [lia|lia|done].
  - cbn. lia.
  - cbn. rewrite !elem_of_cons. by intros [?|[?|?%elem_of_nil]].
Defined.

(** C2: the carousel is built only once the load counter has reached the
    number of asset paths, and whenever it is built there are exactly
    three model instances, one per configuration entry; this holds in
    every state the event loop reaches.  The count does not depend on the
    number of templates: [createCarousel] returns with three instances
    for every non-empty, fully loaded template array, slot [j] taking the
    template at index [j] modulo the template count. *)
Theorem carousel_has_three_instances tr tr' templates :
  loader_ok tr →
  templates ≠ [] →
  (∀ k, k < length templates → is_Some (JS.array_get templates k)) →
  let s := run tr init in
  (built s ∨ objects s ≠ [] → loadedCount s = length MODEL_PATHS) ∧
  (loadedCount s = length MODEL_PATHS →
     built s ∧ length (objects s) = length MODEL_POSITIONS) ∧
  length MODEL_POSITIONS = 3 ∧
  (∃ s', createCarousel templates (run tr' init) = Returned s' ∧
         length (objects s') = length MODEL_POSITIONS) ∧
  (∀ j, ∃ t, template_for templates j = Some (j mod length templates, t)).
Proof.
  intros Hok Hne Hfull s.
  destruct (reachable_loader tr Hok) as [_ _ _ Hstate]. fold s in Hstate.
  split_and!.
  - destruct Hstate as [(Hlt3 & Hobj & Hnb)|(Heq3 & _)]; [|done].
    intros [Hb|Ho]; done.
  - destruct Hstate as [(Hlt3 & Hobj & Hnb)|(Heq3 & Hlen & Hb)]; [lia|done].
  - done.
  - destruct (createCarousel_returns templates (run tr' init)) as (s' & Hs' & Hlen & _).
    + apply reachable_inv.
    + intros j. destruct (template_for_full templates j Hne Hfull) as [t Ht]. by eexists.
    + by exists s'.
  - intros j. by apply template_for_full.
Qed.

Lemma carousel_has_three_instances_witness :
  let s := run (all_loaded ++ [(40%Z, MouseMove [4]); (50%Z, Frame [4])]) init in
  loadedCount s = 3 ∧ length (objects s) = 3 ∧
  length (objects (state_of (createCarousel [Some cube] init))) = 3.
Proof.
  cbv zeta. split; [reflexivity|].
  pose proof (carousel_has_three_instances
                (all_loaded ++ [(40%Z, MouseMove [4]); (50%Z, Frame [4])]) []
                [Some cube]) as Hthree.
  cbv zeta in Hthree.
  destruct Hthree as (_ & Hbuilt & _ & (s' & Hs' & Hlen) & _).
  - split.
    + cbn. repeat (apply NoDup_cons; split; [rewrite ?elem_of_cons; intros Hin;
        repeat (destruct Hin as [Hin|Hin]; [done|]); by apply elem_of_nil in Hin|]).
      apply NoDup_nil_2.
    + cbn. intros x. rewrite !elem_of_cons.
      intros [->|[->|[->|?%elem_of_nil]]]; [lia|lia|lia|done].
  - done.
  - intros [|k] Hk; [by eexists | cbn in Hk; lia].
  - split; [by apply Hbuilt|]. cbn [run] in Hs'. by rewrite Hs'.
Defined.

(** ** The configured transform *)

(** A loop iteration leaves the older nodes, the carousel root apart, and
    the older xyz-objects as they are. *)
Lemma instance_state_old_node i k config p r cs s id o :
  objs s !! id = Some o → id ≠ carousel →
  objs (instance_state i k config p r cs s) !! id = Some o.
Proof.
  intros Ho Hne. unfold instance_state. cbv zeta.
  change (objs (with_heap ?V ?O _)) with O.
  rewrite lookup_app_l by (rewrite length_alter; by eapply lookup_lt_Some).
  by rewrite list_lookup_alter_ne.
Qed.

Lemma instance_state_old_cell i k config p r cs s a v :
  vecs s !! a = Some v → vecs (instance_state i k config p r cs s) !! a = Some v.
Proof.
  intros Ha. unfold instance_state. cbv zeta.
  change (vecs (with_heap ?V ?O _)) with V.
  rewrite lookup_app_l by (by eapply lookup_lt_Some). done.
Qed.

Lemma instance_state_placed_old i k config p r cs s idx g :
  heap_inv s → placed s idx g → placed (instance_state i k config p r cs s) idx g.
Proof.
  intros Hinv (c & group & m & model & Hc & Hg & Hpg & Hch & Hm & Hpm & Hp & Hr & Hs & Hsm).
  assert (carousel < g) by (by eapply (inv_parent _ Hinv g group)).
  assert (g < m) by (by eapply (inv_parent _ Hinv m model)).
  exists c, group, m, model. split_and!; try done.
  - apply instance_state_old_node; [done | lia].
  - apply instance_state_old_node; [done | lia].
  - by apply instance_state_old_cell.
  - by apply instance_state_old_cell.
  - by apply instance_state_old_cell.
  - by apply instance_state_old_cell.
Qed.

Lemma instance_state_placed_new i k config p r cs s :
  MODEL_POSITIONS !! i = Some config →
  placed (instance_state i k config p r cs s) i (length (objs s)).
Proof.
  intros Hcfg.
  destruct (instance_state_group i k config p r cs s)
    as (Hg & Hm & Hp & Hr & Hs & Hsm & _).
  eexists config, _, _, _.
  split_and!; [done | apply Hg | reflexivity | reflexivity | apply Hm | reflexivity
               | apply Hp | apply Hr | apply Hs | apply Hsm].
Qed.

Lemma createCarousel_loop_placed templates configs : ∀ i s,
  heap_inv s →
  length (objects s) = i →
  (∀ j config, configs !! j = Some config → MODEL_POSITIONS !! (i + j) = Some config) →
  (∀ j, is_Some (template_for templates j)) →
  (∀ idx g, objects s !! idx = Some g → placed s idx g) →
  ∃ s', createCarousel_loop templates i configs s = Returned s' ∧
        length (objects s') = i + length configs ∧
        ∀ idx g, objects s' !! idx = Some g → placed s' idx g.
Proof.
  induction configs as [|config rest IH]; intros i s Hinv Hlen Hcfg Hall Hok.
  - exists s. split_and!; [done | cbn; lia | done].
  - cbn [createCarousel_loop].
    destruct (Hall i) as [[k [nm p r sc cs]] Ht].
    rewrite (create_instance_closed _ _ _ _ _ _ _ _ _ _ (inv_carousel _ Hinv) Ht).
    destruct (instance_state_inv i k config p r cs s Hinv) as [Hinv' _].
    destruct (IH (S i) _ Hinv') as (s' & Hs' & Hlen' & Hok'); [| |done| |].
    + rewrite instance_state_objects, length_app. cbn. lia.
    + intros j c Hj. replace (S i + j) with (i + S j) by lia. by apply Hcfg.
    + intros idx g Hidx. rewrite instance_state_objects in Hidx.
      apply lookup_app_Some in Hidx as [Hidx|[Hge Hidx]].
      * by apply instance_state_placed_old, Hok.
      * rewrite Hlen in Hge, Hidx.
        destruct (idx - i) as [|d] eqn:Hd; [|done]. injection Hidx as <-.
        assert (idx = i) as -> by lia.
        apply instance_state_placed_new.
        specialize (Hcfg 0 config eq_refl). by rewrite Nat.add_0_r in Hcfg.
    + exists s'. split_and!; [done | cbn; lia | done].
Qed.

(** The entries of [MODEL_POSITIONS] have no falsy rotation or scale
    that the defaults of [createCarousel] would replace. *)
Lemma config_transform i config :
  MODEL_POSITIONS !! i = Some config →
  position_of config = cfg_position config ∧
  rotation_of config = cfg_rotation config ∧
  scale_of config = cfg_scale config ∧
  cfg_scale config = MODEL_SCALE.
Proof. destruct i as [|[|[|i]]]; intros Hi; by simplify_eq/=. Qed.





(** X20: when [createCarousel] runs on a fully loaded template array, it
    returns with three instances, each a group at its configured position
    and rotation and with the configured scale 3, and it gives the scale
    3 to the model root inside each group as well: the scale of the model
    root composed with that of its group is 9. *)
Theorem configured_scale_applied_twice tr templates :
  templates ≠ [] →
  (∀ k, k < length templates → is_Some (JS.array_get templates k)) →
  ∃ s',
    createCarousel templates (run tr init) = Returned s' ∧
    length (objects s') = length MODEL_POSITIONS ∧
    ∀ i config, MODEL_POSITIONS !! i = Some config →
      ∃ g group m model,
        objects s' !! i = Some g ∧
        objs s' !! g = Some group ∧ children group = [m] ∧
        objs s' !! m = Some model ∧ parent model = Some g ∧
        vec_get (position group) s' = cfg_position config ∧
        vec_get (rotation group) s' = cfg_rotation config ∧
        vec_get (scale group) s' = uniform (cfg_scale config) ∧
        vec_get (scale model) s' = uniform (cfg_scale config) ∧
        cfg_scale config = 3%float ∧
        mul3 (vec_get (scale group) s') (vec_get (scale model) s') = uniform 9%float.
Proof.
  intros Hne Hfull. unfold createCarousel.
  set (s0 := set_objects [] (console_log "Creating carousel with models:" (run tr init))).
  destruct (createCarousel_loop_placed templates MODEL_POSITIONS 0 s0)
    as (s' & Hs' & Hlen & Hok); try done.
  - eapply quiet_inv; [apply reachable_inv | by apply quiet_same].
  - intros j. destruct (template_for_full templates j Hne Hfull) as [t Ht]. by eexists.
  - exists s'. split_and!; [done | done |].
    intros i config Hcfg.
    assert (Hi : i < length (objects s')).
    { rewrite Hlen. by eapply lookup_lt_Some. }
    destruct (lookup_lt_is_Some_2 _ _ Hi) as [g Hg].
    destruct (Hok i g Hg)
      as (c & group & m & model & Hc & Hgr & _ & Hch & Hm & Hpm & Hp & Hr & Hs & Hsm).
    assert (c = config) as -> by congruence.
    destruct (config_transform i config Hcfg) as (HP & HR & HS & H3).
    exists g, group, m, model. unfold vec_get. rewrite Hp, Hr, Hs, Hsm, HP, HR, HS.
    split_and!; try done. by rewrite H3.
Qed.

Lemma configured_scale_applied_twice_witness :
  [Some cube; Some cube; Some cube] ≠ [] ∧
  ∃ s', createCarousel [Some cube; Some cube; Some cube]
          (run [(10%Z, Loaded 1 cube); (20%Z, Loaded 0 cube)] init) = Returned s' ∧
        length (objects s') = 3.
Proof.
  split; [discriminate|].
  destruct (configured_scale_applied_twice [(10%Z, Loaded 1 cube); (20%Z, Loaded 0 cube)]
              [Some cube; Some cube; Some cube]) as (s' & Hs' & Hlen & _).
  - discriminate.
  - intros [|[|[|k]]] Hk; [eexists; reflexivity .. | cbn in Hk; lia].
  - exists s'. split; [exact Hs' | exact Hlen].
Defined.

(** The state after three loads, evaluated: the instances have the
    configured transforms, their composite scale is 3, the composite scale
    of the model roots inside them is 9, and a mesh of local scale 0.5
    comes out at 4.5. *)
Lemma rendered_scale_after_loads :
  let s := run all_loaded init in
  let everywhere := length (objs s) in
  objects s = [2; 6; 10] ∧
  map (position_at s) (objects s) = map (λ config, Some (cfg_position config)) MODEL_POSITIONS ∧
  map (rotation_at s) (objects s) = map (λ config, Some (cfg_rotation config)) MODEL_POSITIONS ∧
  map (scale_at s) (objects s) =
    map (λ config, Some (uniform (cfg_scale config))) MODEL_POSITIONS ∧
  map (λ g, children <$> objs s !! g) (objects s) = [Some [3]; Some [7]; Some [11]] ∧
  map (scale_at s) [3; 7; 11] =
    map (λ config, Some (uniform (cfg_scale config))) MODEL_POSITIONS ∧
  map (world_scale everywhere s) (objects s) =
    [uniform 3%float; uniform 3%float; uniform 3%float] ∧
  map (world_scale everywhere s) [3; 7; 11] =
    [uniform 9%float; uniform 9%float; uniform 9%float] ∧
  name <$> objs s !! 4 = Some "Body" ∧
  scale_at s 4 = Some (uniform 0.5%float) ∧
  world_scale everywhere s 4 = uniform 4.5%float ∧
  map cfg_scale MODEL_POSITIONS = [3%float; 3%float; 3%float].
Proof. cbv zeta. by vm_compute. Qed.

(** ** The cast of the render loop *)

(** The cast of the render loop is empty. *)
Lemma flat_cast_empty s ray :
  crosses_geometry s ray → intersectObjects s (objects s) false ray = [].
Proof.
  intros Hray. unfold intersectObjects.
  induction ray as [|h ray IH]; [done|].
  rewrite filter_cons_False.
  - apply IH. intros x Hx. apply Hray. by apply list_elem_of_further.
  - intros Hin%bool_decide_eq_true. by apply (Hray h (list_elem_of_here _ _)).
Qed.

Lemma animate_idle s :
  hoveredObject s = None →
  hoveredObject (animate [] s) = None ∧ vecs (animate [] s) = vecs s ∧
  tweens (animate [] s) = tweens s ∧ objs (animate [] s) = objs s.
Proof. intros Hh. unfold animate, console_log. cbv zeta. by rewrite Hh. Qed.

(** Without a target, and with frames whose cast is empty, the render
    loop never gets one. *)
Lemma step_hoveredObject now e s :
  heap_inv s → hoveredObject s = None →
  (∀ intersects, e = Frame intersects → intersects = []) →
  hoveredObject (step now e s) = None.
Proof.
  intros Hinv Hh Hframe.
  destruct e as [index scene|index|hits|b hits|h|leaving| |hits|k v|k]; cbn [step].
  - unfold onLoad. cbv zeta.
    set (s0 := set_loadedCount _ (set_models _ s)).
    assert (Hinv0 : heap_inv s0) by (eapply quiet_inv; [done | by apply quiet_same]).
    destruct (decide (loadedCount s0 = length MODEL_PATHS)); [|done].
    by rewrite (sc_hoveredObject _ _ (createCarousel_controls (models s0) s0 Hinv0)).
  - done.
  - unfold_handlers. by repeat case_match.
  - unfold_handlers. by repeat case_match.
  - unfold_handlers. by repeat case_match.
  - unfold_handlers. by repeat case_match.
  - unfold onBlur. by rewrite Hh.
  - rewrite (Hframe hits eq_refl). by apply animate_idle.
  - unfold_handlers. by repeat case_match.
  - unfold_handlers. by repeat case_match.
Qed.

Lemma run_hoveredObject tr : ∀ s,
  heap_inv s → hoveredObject s = None → program_frames tr s →
  hoveredObject (run tr s) = None.
Proof.
  induction tr as [|[now e] tr IH]; intros s Hinv Hh Hp; [done|].
  destruct Hp as [Hframe Hrest]. cbn [run]. apply IH; [by apply step_inv | | done].
  apply step_hoveredObject; [done | done |].
  intros hits ->. destruct (Hframe hits eq_refl) as (ray & Hray & ->).
  by apply flat_cast_empty.
Qed.

Lemma reachable_hoveredObject tr :
  program_frames tr init → hoveredObject (run tr init) = None.
Proof. apply run_hoveredObject; [apply init_inv | done]. Qed.




Lemma hovered_frame_program : program_frames hovered_frame init.
Proof.
  unfold hovered_frame, all_loaded. cbn [app program_frames].
  repeat (split; [intros hits Heq; discriminate Heq|]).
  split; [|exact I].
  intros hits Heq. injection Heq as <-. exists [4]. split.
  - intros h Hh. apply list_elem_of_singleton in Hh. subst h.
    apply (bool_decide_eq_false_1 (4 ∈ _)). vm_compute. reflexivity.
  - vm_compute. reflexivity.
Qed.


(** * Properties of the handlers *)

(** ** The ancestor walk and the pick *)

Lemma find_root_walk s fuel : ∀ obj r, find_root fuel s obj = Some r → walk s obj r.
Proof.
  induction fuel as [|fuel IH]; intros obj r Hf; [done|].
  cbn [find_root] in Hf.
  destruct (objs s !! obj) as [o|] eqn:Ho; [|done].
  destruct (originalPosition (userData o)) as [a|] eqn:Ha.
  - injection Hf as <-. eapply walk_stop; [done|]. by rewrite Ha.
  - destruct (parent o) as [p|] eqn:Hp; [|done].
    eapply walk_up; [done..|]. by apply IH.
Qed.

Lemma walk_find_root s obj r :
  heap_inv s → walk s obj r → find_root (length (objs s)) s obj = Some r.
Proof.
  intros Hinv Hw. induction Hw as [obj o Ho [a Ha]|obj o p r Ho Hn Hp Hw IH].
  - pose proof (lookup_lt_Some _ _ _ Ho) as Hlt.
    destruct (length (objs s)) as [|n]; [lia|]. cbn [find_root]. by rewrite Ho, Ha.
  - pose proof (lookup_lt_Some _ _ _ Ho) as Hlt.
    pose proof (inv_parent _ Hinv obj o p Ho Hp) as Hpo.
    rewrite (find_root_fuel s Hinv p (length (objs s))) in IH by lia.
    destruct (length (objs s)) as [|n] eqn:Hlen; [lia|]. cbn [find_root].
    rewrite Ho, Hn, Hp.
    by rewrite (find_root_fuel s Hinv p n) by lia.
Qed.

Lemma walk_tagged s obj r :
  walk s obj r → ∃ o, objs s !! r = Some o ∧ is_Some (originalPosition (userData o)).
Proof. induction 1; [by eexists | done]. Qed.

Lemma pick_model_tagged s hits r :
  pick_model s hits = Some r →
  ∃ o, objs s !! r = Some o ∧ is_Some (originalPosition (userData o)).
Proof.
  induction hits as [|obj rest IH]; [done|]. cbn [pick_model].
  destruct (find_root _ s obj) as [m|] eqn:Hf; [|done].
  intros [= <-]. by eapply walk_tagged, find_root_walk.
Qed.

(** X1: in every reachable state the bounded ancestor walk of
    [handleHover] loses nothing to its bound: started at [obj] with as
    much fuel as there are nodes, it returns [r] exactly when following
    parent links from [obj] through untagged nodes ends at the tagged node
    [r]. *)
Theorem ancestor_walk_finds_root tr obj r :
  let s := run tr init in
  find_root (length (objs s)) s obj = Some r ↔ walk s obj r.
Proof.
  cbv zeta. split; [apply find_root_walk | apply walk_find_root, reachable_inv].
Qed.

(** X2: in every reachable state the pick of [handleHover] is the tagged
    root of the first intersected object that lies under one; intersected
    objects before it have no tagged ancestor. *)
Theorem pick_model_first_rooted tr hits r :
  let s := run tr init in
  pick_model s hits = Some r ↔
  ∃ before obj after,
    hits = before ++ obj :: after ∧ walk s obj r ∧
    ∀ x, x ∈ before → ∀ r', ¬ walk s x r'.
Proof.
  cbv zeta. set (s := run tr init).
  assert (Hinv : heap_inv s) by apply reachable_inv.
  induction hits as [|h rest IH].
  - split; [done|]. intros (before & obj & after & Heq & _). by destruct before.
  - cbn [pick_model]. destruct (find_root _ s h) as [m|] eqn:Hf.
    + split.
      * intros [= <-]. exists [], h, rest. split; [done|].
        split; [by eapply find_root_walk|]. intros x Hx. by apply elem_of_nil in Hx.
      * intros (before & obj & after & Heq & Hw & Hnone).
        destruct before as [|b before].
        -- injection Heq as -> ->. apply (walk_find_root _ _ _ Hinv) in Hw. congruence.
        -- injection Heq as -> ->. exfalso.
           apply (Hnone b (list_elem_of_here _ _) m). by eapply find_root_walk.
    + rewrite IH. split.
      * intros (before & obj & after & -> & Hw & Hnone).
        exists (h :: before), obj, after. split; [done|]. split; [done|].
        intros x [->|Hx]%elem_of_cons; [|by apply Hnone].
        intros r' Hw'. apply (walk_find_root _ _ _ Hinv) in Hw'. congruence.
      * intros (before & obj & after & Heq & Hw & Hnone).
        destruct before as [|b before].
        -- injection Heq as -> ->. apply (walk_find_root _ _ _ Hinv) in Hw. congruence.
        -- injection Heq as -> ->. exists before, obj, after. split; [done|].
           split; [done|]. intros x Hx. apply Hnone. by apply list_elem_of_further.
Qed.

(** ** The hover target follows the pick *)

Lemma handleHover_current intersects s :
  currentHoveredModel (handleHover intersects s) = pick_model s intersects.
Proof.
  unfold handleHover.
  destruct intersects as [|first rest].
  - cbn [pick_model]. destruct (currentHoveredModel s) as [c|] eqn:Hc; [|done].
    unfold unhover. by proj_simpl.
  - destruct (pick_model s (first :: rest)) as [model|] eqn:Hpick.
    + destruct (decide (currentHoveredModel s = Some model)) as [Heq|Hne]; [done|].
      cbv zeta. unfold gsap_to_scale, update_obj. proj_simpl.
      repeat case_match; reflexivity.
    + destruct (currentHoveredModel s) as [c|] eqn:Hc; [|done].
      unfold unhover. by proj_simpl.
Qed.

Lemma handleHover_same intersects s :
  pick_model s intersects = currentHoveredModel s → handleHover intersects s = s.
Proof.
  intros Heq. unfold handleHover. rewrite Heq.
  destruct intersects as [|first rest].
  - cbn [pick_model] in Heq. by rewrite <- Heq.
  - destruct (currentHoveredModel s) as [c|] eqn:Hc; [|done].
    by rewrite decide_True.
Qed.

Lemma handleHover_cursor intersects s :
  pick_model s intersects ≠ currentHoveredModel s →
  pointerCursor (handleHover intersects s) =
    match pick_model s intersects with Some _ => true | None => false end.
Proof.
  intros Hne. unfold handleHover.
  destruct intersects as [|first rest].
  - cbn [pick_model] in *. destruct (currentHoveredModel s) as [c|] eqn:Hc; [|done].
    unfold unhover. by proj_simpl.
  - destruct (pick_model s (first :: rest)) as [model|] eqn:Hpick.
    + rewrite decide_False by done.
      cbv zeta. unfold gsap_to_scale, update_obj. proj_simpl.
      repeat case_match; reflexivity.
    + destruct (currentHoveredModel s) as [c|] eqn:Hc; [|done].
      unfold unhover. by proj_simpl.
Qed.

(** X3: after a mouse move the hover target is exactly the pick computed
    in the state before it.  When the pick is the current target the
    handler changes nothing at all (no tween is requested again); when it
    differs, the pointer cursor is on exactly when there is a pick. *)
Theorem handleHover_tracks_pick intersects s :
  let s' := handleHover intersects s in
  let target := pick_model s intersects in
  currentHoveredModel s' = target ∧
  (target = currentHoveredModel s → s' = s) ∧
  (target ≠ currentHoveredModel s →
     pointerCursor s' = match target with Some _ => true | None => false end).
Proof.
  cbv zeta. split_and!.
  - apply handleHover_current.
  - apply handleHover_same.
  - apply handleHover_cursor.
Qed.

(** ** The scene graph *)

(** Every handler but the loader's leaves the nodes as they are, or sets
    the [userData.name] of one. *)
Lemma step_objs now e s :
  (∀ index scene, e ≠ Loaded index scene) →
  objs (step now e s) = objs s ∨
  ∃ model nm, objs (step now e s) = alter (with_userData (ud_name nm)) model (objs s).
Proof.
  intros Hne. destruct e; cbn [step]; try (by left).
  1: by destruct (Hne index scene).
  all: unfold_handlers; repeat case_match;
    first [ by left | right; by eexists _, _ ].
Qed.

Lemma alter_name_lookup nm model (O : list Object3D) id o' :
  alter (with_userData (ud_name nm)) model O !! id = Some o' →
  ∃ o, O !! id = Some o ∧ children o' = children o ∧ parent o' = parent o ∧
       originalPosition (userData o') = originalPosition (userData o).
Proof.
  destruct (decide (id = model)) as [->|Hne].
  - rewrite list_lookup_alter_eq. destruct (O !! model) as [o|]; [|done].
    intros [= <-]. by exists o.
  - rewrite list_lookup_alter_ne by done. intros Ho. by exists o'.
Qed.

Lemma step_nodes now e s id o' :
  (∀ index scene, e ≠ Loaded index scene) →
  objs (step now e s) !! id = Some o' →
  ∃ o, objs s !! id = Some o ∧ children o' = children o ∧ parent o' = parent o ∧
       originalPosition (userData o') = originalPosition (userData o).
Proof.
  intros Hne Ho'. destruct (step_objs now e s Hne) as [Heq|(model & nm & Heq)];
    rewrite Heq in Ho'.
  - by exists o'.
  - by eapply alter_name_lookup.
Qed.

Lemma step_nodes_fwd now e s id o :
  (∀ index scene, e ≠ Loaded index scene) →
  objs s !! id = Some o →
  ∃ o', objs (step now e s) !! id = Some o' ∧ children o' = children o ∧
        parent o' = parent o.
Proof.
  intros Hne Ho. destruct (step_objs now e s Hne) as [Heq|(model & nm & Heq)];
    rewrite Heq.
  - by exists o.
  - destruct (decide (id = model)) as [->|Hn].
    + rewrite list_lookup_alter_eq, Ho. by eexists.
    + rewrite list_lookup_alter_ne by done. by exists o.
Qed.

Lemma step_graph now e s :
  (∀ index scene, e ≠ Loaded index scene) → graph_inv s → graph_inv (step now e s).
Proof.
  intros Hne [Hch Hpar Htag]. split; rewrite (step_objects now e s Hne).
  - destruct (objs s !! carousel) as [o|] eqn:Ho; [|done].
    destruct (step_nodes_fwd now e s carousel o Hne Ho) as (o' & -> & Hc & _).
    cbn in *. by rewrite Hc.
  - intros g Hg. specialize (Hpar g Hg).
    destruct (objs s !! g) as [o|] eqn:Ho; [|done].
    destruct (step_nodes_fwd now e s g o Hne Ho) as (o' & -> & _ & Hp).
    cbn in *. by rewrite Hp.
  - intros id o' Ho' Ht.
    destruct (step_nodes now e s id o' Hne Ho') as (o & Ho & _ & _ & Hop).
    apply (Htag id o Ho). by rewrite <- Hop.
Qed.

Lemma instance_state_graph i k config p r cs s :
  heap_inv s → graph_inv s → graph_inv (instance_state i k config p r cs s).
Proof.
  intros Hinv [Hch Hpar Htag].
  destruct (instance_state_inv i k config p r cs s Hinv) as [_ [Hnodes _]].
  destruct (instance_state_group i k config p r cs s) as (Hg & Hm & _).
  pose proof (inv_carousel _ Hinv) as Hcar.
  split; rewrite instance_state_objects.
  - unfold instance_state. cbv zeta.
    change (objs (with_heap ?V ?O _)) with O.
    rewrite lookup_app_l by (by rewrite length_alter).
    rewrite list_lookup_alter_eq.
    destruct (objs s !! carousel) as [o|]; [|done].
    cbn in Hch. injection Hch as Hch. cbn. by rewrite Hch.
  - intros g [Hin| ->%list_elem_of_singleton]%elem_of_app.
    + specialize (Hpar g Hin). destruct (objs s !! g) as [o|] eqn:Ho; [|done].
      destruct (Hnodes _ _ Ho) as (o' & -> & Hk). cbn in *.
      by rewrite (kept_parent _ _ Hk).
    + by rewrite Hg.
  - intros id o' Ho' Ht. apply elem_of_app.
    destruct (decide (id < length (objs s))) as [Hlt|Hge].
    + left. destruct (lookup_lt_is_Some_2 _ _ Hlt) as [o Ho].
      destruct (Hnodes _ _ Ho) as (o'' & Ho'' & Hk).
      assert (o'' = o') as -> by congruence.
      apply (Htag id o Ho). by rewrite <- (kept_originalPosition _ _ Hk).
    + right. apply list_elem_of_singleton.
      destruct (decide (id = length (objs s))) as [->|Hne]; [done|]. exfalso.
      destruct (decide (id = length (objs s) + 1)) as [->|Hne'].
      * rewrite Hm in Ho'. injection Ho' as <-. by destruct Ht.
      * revert Ho'. unfold instance_state. cbv zeta.
        change (objs (with_heap ?V ?O _)) with O.
        rewrite lookup_app_r by (rewrite length_alter; lia).
        rewrite length_alter.
        destruct (id - length (objs s)) as [|[|j]] eqn:Hj; [lia|lia|].
        cbn [lookup list_lookup]. intros Hkid.
        destruct (clone_children_shape (length (objs s) + 1) cs
                    (S (length (objs s) + 1)) (length (vecs s) + 6)
                    (Nat.lt_succ_diag_r _)) as [_ Hshape].
        destruct (Hshape _ _ Hkid) as (Hu & _).
        rewrite Hu in Ht. by destruct Ht.
Qed.

Lemma thrown_state_graph nm ud s :
  heap_inv s → graph_inv s →
  graph_inv (with_heap (vecs s ++ [zero3; zero3; one3])
              (objs s ++ [mkObject3D nm None []
                            (length (vecs s)) (length (vecs s) + 1) (length (vecs s) + 2)
                            (mkUserData ud None None None)]) s).
Proof.
  intros Hinv [Hch Hpar Htag]. pose proof (inv_carousel _ Hinv) as Hcar.
  split; change (objs (with_heap ?V ?O _)) with O; rewrite ?objects_heap.
  - by rewrite lookup_app_l.
  - intros g Hg. specialize (Hpar g Hg).
    destruct (objs s !! g) as [o|] eqn:Ho; [|done].
    by rewrite (lookup_app_l_Some _ _ _ _ Ho).
  - intros id o' Ho' Ht. apply lookup_app_Some in Ho' as [Ho'|[_ Ho']].
    + by apply (Htag id o').
    + destruct (id - length (objs s)) as [|j]; [|done].
      injection Ho' as <-. by destruct Ht.
Qed.

Lemma createCarousel_loop_graph templates configs : ∀ i s,
  heap_inv s → graph_inv s →
  graph_inv (state_of (createCarousel_loop templates i configs s)).
Proof.
  induction configs as [|config rest IH]; intros i s Hinv Hg; [done|].
  cbn [createCarousel_loop].
  destruct (template_for templates i) as [[k [nm p r sc cs]]|] eqn:Ht.
  - rewrite (create_instance_closed _ _ _ _ _ _ _ _ _ _ (inv_carousel _ Hinv) Ht).
    destruct (instance_state_inv i k config p r cs s Hinv) as [Hinv' _].
    apply IH; [done|]. by apply instance_state_graph.
  - rewrite (create_instance_throws _ _ _ _ Ht). cbn [state_of].
    by apply thrown_state_graph.
Qed.

Lemma step_hover_target now e s c :
  (∀ index scene, e ≠ Loaded index scene) →
  currentHoveredModel (step now e s) = Some c →
  currentHoveredModel s = Some c ∨ ∃ hits, e = MouseMove hits ∧ pick_model s hits = Some c.
Proof.
  intros Hne. destruct e; cbn [step]; try (by left).
  1: by destruct (Hne index scene).
  1: { rewrite handleHover_current. intros Hp. right. by eexists. }
  all: unfold_handlers; repeat case_match; proj_simpl; intros Hc; left; congruence.
Qed.

Lemma step_scene now e s : heap_inv s → scene_inv s → scene_inv (step now e s).
Proof.
  intros Hinv [Hg Hh Hu].
  destruct e as [index scene| | | | | | | | |].
  1: { cbn [step]. unfold onLoad. cbv zeta.
       set (s0 := set_loadedCount _ (set_models _ s)).
       assert (Hq : quiet s s0) by (by apply quiet_same).
       assert (Hinv0 : heap_inv s0) by (by eapply quiet_inv).
       destruct (decide (loadedCount s0 = length MODEL_PATHS)) as [Heq|Hneq].
       - assert (Hnil : objects s = []).
         { apply Hu. subst s0. revert Heq. proj_simpl. cbn. lia. }
         pose proof (createCarousel_controls (models s0) s0 Hinv0) as Hctl.
         split.
         + unfold createCarousel.
           apply createCarousel_loop_graph.
           * eapply quiet_inv; [done | by apply quiet_same].
           * destruct Hg as [Hch Hpar Htag]. split; proj_simpl; unfold console_log; proj_simpl.
             -- by rewrite <- Hnil.
             -- intros g Hin. by apply elem_of_nil in Hin.
             -- intros id o Ho Ht. rewrite <- Hnil. by eapply Htag.
         + intros c Hc. rewrite (sc_currentHoveredModel _ _ Hctl) in Hc.
           apply Hh in Hc. rewrite Hnil in Hc. by apply elem_of_nil in Hc.
         + rewrite (sc_loadedCount _ _ Hctl), Heq. lia.
       - split; [by destruct Hg | done |].
         subst s0. proj_simpl. intros Hlt. apply Hu. lia. }
  all: match goal with |- scene_inv (step ?n ?e _) =>
         assert (Hne : ∀ index scene, e ≠ Loaded index scene) by done;
         split; [ by apply step_graph
                | intros c Hc; rewrite (step_objects n e s Hne)
                | rewrite (step_objects n e s Hne), (step_other_loadedCount n e s Hne); done ];
         destruct (step_hover_target n e s c Hne Hc) as [Hold|(hits & _ & Hp)];
         [ by apply Hh
         | destruct (pick_model_tagged s hits c Hp) as (o & Ho & Ht);
           by apply (gi_tagged _ Hg c o) ]
       end.
Qed.

Lemma init_scene : scene_inv init.
Proof.
  split; [split|..]; try done.
  - intros g Hg. by apply elem_of_nil in Hg.
  - intros [|[|id]] o Ho Ht; simplify_eq/=; by destruct Ht.
Qed.

Lemma reachable_scene tr : scene_inv (run tr init).
Proof.
  assert (Hgen : ∀ s, heap_inv s → scene_inv s → scene_inv (run tr s)).
  { induction tr as [|[now e] tr IH]; intros s Hheap Hinv; [done|].
    cbn [run]. apply IH; [by apply step_inv | by apply step_scene]. }
  apply Hgen; [apply init_inv | apply init_scene].
Qed.

(** X4: in every reachable state the children of the carousel root are
    the entries of [objects], in the same order, every entry has the
    carousel root as parent, and a node carries the [originalPosition] tag
    exactly when it is an entry of [objects]. *)
Theorem carousel_children_are_objects tr :
  let s := run tr init in
  children <$> objs s !! carousel = Some (objects s) ∧
  (∀ g, g ∈ objects s → parent <$> objs s !! g = Some (Some carousel)) ∧
  (∀ id o, objs s !! id = Some o →
           is_Some (originalPosition (userData o)) ↔ id ∈ objects s).
Proof.
  cbv zeta. destruct (reachable_scene tr) as [[Hch Hpar Htag] _ _].
  split_and!; [done | done |].
  intros id o Ho. split; [by apply Htag|].
  intros [i Hi]%list_elem_of_lookup.
  destruct (reachable_instances tr i id Hi) as (config & o' & a & b & _ & Ho' & Hud & _).
  assert (o' = o) as -> by congruence. by rewrite Hud.
Qed.

(** X5: in every reachable state the hover target of [handleHover], when
    there is one, is an entry of [objects]: an instance whose [userData]
    holds the name of its configuration entry and the original scale
    [MODEL_SCALE]. *)
Theorem hover_target_is_instance tr c :
  let s := run tr init in
  currentHoveredModel s = Some c →
  ∃ i config o,
    objects s !! i = Some c ∧ MODEL_POSITIONS !! i = Some config ∧
    objs s !! c = Some o ∧
    userData_name (userData o) = Some (cfg_name config) ∧
    originalScale (userData o) = Some MODEL_SCALE.
Proof.
  cbv zeta. intros Hc.
  destruct (reachable_scene tr) as [_ Hh _].
  destruct (proj1 (list_elem_of_lookup _ _) (Hh c Hc)) as [i Hi].
  destruct (reachable_instances tr i c Hi) as (config & o & a & b & Hcfg & Ho & Hud & _).
  exists i, config, o. rewrite Hud. cbn.
  split_and!; try done. f_equal. by eapply config_scale.
Qed.

Lemma hover_target_is_instance_witness :
  currentHoveredModel (run (all_loaded ++ [(40%Z, MouseMove [4])]) init) = Some 2 ∧
  ∃ i config, objects (run (all_loaded ++ [(40%Z, MouseMove [4])]) init) !! i = Some 2 ∧
              MODEL_POSITIONS !! i = Some config.
Proof.
  split; [reflexivity|].
  destruct (hover_target_is_instance (all_loaded ++ [(40%Z, MouseMove [4])]) 2 eq_refl)
    as (i & config & o & Hi & Hcfg & _).
  exists i, config. split; [exact Hi | exact Hcfg].
Defined.

(** ** Navigation targets *)

Lemma onLoad_location index scene s :
  heap_inv s → location (onLoad index scene s) = location s.
Proof.
  intros Hinv. unfold onLoad. cbv zeta.
  set (s0 := set_loadedCount _ (set_models _ s)).
  assert (Hinv0 : heap_inv s0) by (eapply quiet_inv; [done | by apply quiet_same]).
  destruct (decide (loadedCount s0 = length MODEL_PATHS)); [|done].
  by rewrite (sc_location _ _ (createCarousel_controls (models s0) s0 Hinv0)).
Qed.

Lemma onMouseClick_location now b s :
  location (onMouseClick now b s) = location s ∨
  ∃ c o, currentHoveredModel s = Some c ∧ objs s !! c = Some o ∧
         location (onMouseClick now b s) = Some (html_of (pageName_of (modelName_of s o))).
Proof.
  unfold onMouseClick, onModelClick, clearTimeout, setTimeout. cbv zeta.
  repeat case_match; try (by left).
  all: right; proj_simpl;
    match goal with
    | Hc : currentHoveredModel _ = Some ?c, Ho : objs _ !! ?c = Some ?o |- _ =>
        exists c, o; cbn in Hc, Ho; split_and!; [congruence | congruence | reflexivity]
    end.
Qed.

Lemma step_location now e s :
  heap_inv s →
  location (step now e s) = location s ∨
  ∃ c o, currentHoveredModel s = Some c ∧ objs s !! c = Some o ∧
         location (step now e s) = Some (html_of (pageName_of (modelName_of s o))).
Proof.
  intros Hinv. destruct e; cbn [step]; try (by left).
  - left. by apply onLoad_location.
  - left. unfold_handlers. by repeat case_match.
  - destruct (onWindowClick_frame now intersects (onMouseClick now onContactButton s))
      as (_ & _ & _ & _ & -> & _).
    apply onMouseClick_location.
  - left. unfold_handlers. by repeat case_match.
  - left. unfold_handlers. by repeat case_match.
  - left. unfold_handlers. by repeat case_match.
  - left. unfold_handlers. by repeat case_match.
  - left. unfold_handlers. by repeat case_match.
  - left. unfold_handlers. by repeat case_match.
Qed.

Lemma instance_page s i c o :
  instance_ok s i c → objs s !! c = Some o →
  ∃ page, page ∈ ["LI1-new"; "Shinkansen-new"; "Kid-Synth-new"] ∧
          html_of (pageName_of (modelName_of s o)) = HrefText (page +:+ ".html").
Proof.
  intros (config & o' & a & b & Hcfg & Ho' & Hud & _) Ho.
  assert (o' = o) as -> by congruence.
  assert (Hname : modelName_of s o = cfg_name config).
  { unfold modelName_of. cbv zeta. rewrite Hud. cbn [userData_name JS.or_str].
    pose proof (config_name_truthy i config Hcfg) as Ht. cbn in Ht. by rewrite Ht. }
  rewrite Hname.
  rewrite (pageName_of_spec _ (config_page i config Hcfg)).
  exists (spec_page (cfg_name config)). split; [|done].
  destruct i as [|[|[|i]]]; cbn in Hcfg; [injection Hcfg as <- ..|done].
  all: match goal with
       | |- ?p ∈ _ => let v := eval vm_compute in p in change p with v
       end.
  all: rewrite !elem_of_cons; auto.
Qed.

Lemma run_nav tr : ∀ s,
  heap_inv s → scene_inv s → instances_ok s → nav_ok s → nav_ok (run tr s).
Proof.
  induction tr as [|[now e] tr IH]; intros s Hinv Hsc Hok Hnav; [done|].
  cbn [run]. apply IH.
  - by apply step_inv.
  - by apply step_scene.
  - by apply step_instances.
  - destruct (step_location now e s Hinv) as [Heq|(c & o & Hc & Ho & Hloc)].
    + unfold nav_ok. by rewrite Heq.
    + right. destruct (proj1 (list_elem_of_lookup _ _) (si_hover _ Hsc c Hc)) as [i Hi].
      destruct (instance_page s i c o (Hok i c Hi) Ho) as (page & Hin & Hp).
      exists page. split; [done|]. by rewrite Hloc, Hp.
Qed.

(** X6: whatever events occur, the location is never assigned anything
    but one of the three mapped pages: the [index] default of
    [onModelClick] and its fallback to a child's name are never used. *)
Theorem navigation_only_to_mapped_pages tr :
  location (run tr init) = None ∨
  ∃ page, page ∈ ["LI1-new"; "Shinkansen-new"; "Kid-Synth-new"] ∧
          location (run tr init) = Some (HrefText (page +:+ ".html")).
Proof.
  apply (run_nav tr init); [apply init_inv | apply init_scene | done | by left].
Qed.

(** ** The order of the loads *)

Lemma onLoad_pending index scene s :
  S (loadedCount s) ≠ length MODEL_PATHS →
  onLoad index scene s = after_load index scene s.
Proof. intros Hne. unfold onLoad. cbv zeta. proj_simpl. by rewrite decide_False. Qed.

Lemma onLoad_last index scene s :
  S (loadedCount s) = length MODEL_PATHS →
  onLoad index scene s =
    state_of (createCarousel (models (after_load index scene s)) (after_load index scene s)).
Proof. intros Heq. unfold onLoad. cbv zeta. proj_simpl. by rewrite decide_True. Qed.

Lemma three_loads (asset : nat → Template) a b c ta tb tc :
  run [(ta, Loaded a (asset a)); (tb, Loaded b (asset b)); (tc, Loaded c (asset c))] init =
  let s3 := after_load c (asset c) (after_load b (asset b) (after_load a (asset a) init)) in
  state_of (createCarousel (models s3) s3).
Proof.
  cbn [run step]. cbv zeta.
  rewrite (onLoad_pending a) by (cbn; lia).
  rewrite (onLoad_pending b) by (cbn; lia).
  by rewrite (onLoad_last c) by (cbn; lia).
Qed.

(** X7: the order in which the three loads complete does not matter: the
    asset of path [i] is stored in slot [i], so every order of completion
    leaves the state that the order 0, 1, 2 leaves. *)
Theorem load_order_irrelevant (asset : nat → Template) a b c ta tb tc t0 t1 t2 :
  NoDup [a; b; c] → a < 3 → b < 3 → c < 3 →
  run [(ta, Loaded a (asset a)); (tb, Loaded b (asset b)); (tc, Loaded c (asset c))] init =
  run [(t0, Loaded 0 (asset 0)); (t1, Loaded 1 (asset 1)); (t2, Loaded 2 (asset 2))] init.
Proof.
  intros Hnd Ha Hb Hc. rewrite !three_loads. cbv zeta.
  assert (Heq : after_load c (asset c) (after_load b (asset b) (after_load a (asset a) init)) =
                after_load 2 (asset 2) (after_load 1 (asset 1) (after_load 0 (asset 0) init))).
  { apply NoDup_cons in Hnd as [Hab Hnd]. apply NoDup_cons in Hnd as [Hbc _].
    rewrite !elem_of_cons in Hab. rewrite !elem_of_cons in Hbc.
    destruct a as [|[|[|a]]]; [..|lia];
    destruct b as [|[|[|b]]]; try lia; try (exfalso; apply Hab; auto; fail);
    destruct c as [|[|[|c]]]; try lia; try (exfalso; apply Hab; auto; fail);
      try (exfalso; apply Hbc; auto; fail).
    all: vm_compute; reflexivity. }
  by rewrite Heq.
Qed.

Lemma load_order_irrelevant_witness :
  run [(5%Z, Loaded 2 cube); (6%Z, Loaded 0 cube); (9%Z, Loaded 1 cube)] init =
  run [(1%Z, Loaded 0 cube); (2%Z, Loaded 1 cube); (3%Z, Loaded 2 cube)] init.
Proof.
  apply (load_order_irrelevant (λ _, cube) 2 0 1 5 6 9 1 2 3); [|lia..].
  repeat (apply NoDup_cons; split; [rewrite ?elem_of_cons; intros Hin;
    repeat (destruct Hin as [Hin|Hin]; [done|]); by apply elem_of_nil in Hin|]).
  apply NoDup_nil_2.
Defined.

(** ** A missing template *)

Lemma createCarousel_loop_throws templates configs : ∀ i0 i s,
  heap_inv s →
  (i0 ≤ i)%nat → i < i0 + length configs →
  (∀ j, (i0 ≤ j)%nat → j < i → is_Some (template_for templates j)) →
  template_for templates i = None →
  ∃ s' orphan,
    createCarousel_loop templates i0 configs s = Thrown s' ∧
    length (objects s') = length (objects s) + (i - i0) ∧
    last (objs s') = Some orphan ∧
    name orphan = "carousel-item-" +:+ pretty i ∧
    parent orphan = None ∧ children orphan = [] ∧
    originalPosition (userData orphan) = None.
Proof.
  induction configs as [|config rest IH]; intros i0 i s Hinv Hle Hlt Hall Hnone.
  - cbn in Hlt. lia.
  - cbn [createCarousel_loop].
    destruct (decide (i0 = i)) as [->|Hne].
    + rewrite (create_instance_throws _ _ _ _ Hnone).
      eexists _, _. split; [reflexivity|].
      change (objs (with_heap ?V ?O _)) with O. rewrite objects_heap, last_snoc.
      split_and!; try reflexivity. lia.
    + destruct (Hall i0) as [[k [nm p r sc cs]] Ht]; [lia | lia |].
      rewrite (create_instance_closed _ _ _ _ _ _ _ _ _ _ (inv_carousel _ Hinv) Ht).
      destruct (instance_state_inv i0 k config p r cs s Hinv) as [Hinv' _].
      destruct (IH (S i0) i _ Hinv') as (s' & orphan & Hs' & Hlen & Hrest);
        [lia | cbn in Hlt; lia | intros j ? ?; apply Hall; lia | done |].
      exists s', orphan. split; [done|]. split; [|done].
      rewrite Hlen, instance_state_objects, length_app. cbn. lia.
Qed.

(** X8: when the template array has no element at the index computed for
    slot [i] (a hole, or an empty array, for which the index is [NaN]) and
    has one for every slot before, [createCarousel] throws at slot [i]:
    [objects] holds the [i] instances built so far, and the group created
    for slot [i] is left behind unattached, without parent, children or
    tag. *)
Theorem createCarousel_throws_at_missing_template tr templates i :
  i < length MODEL_POSITIONS →
  (∀ j, j < i → is_Some (template_for templates j)) →
  template_for templates i = None →
  ∃ s' orphan,
    createCarousel templates (run tr init) = Thrown s' ∧
    length (objects s') = i ∧
    last (objs s') = Some orphan ∧
    name orphan = "carousel-item-" +:+ pretty i ∧
    parent orphan = None ∧ children orphan = [] ∧
    originalPosition (userData orphan) = None.
Proof.
  intros Hlt Hall Hnone. unfold createCarousel.
  set (s0 := set_objects [] (console_log "Creating carousel with models:" (run tr init))).
  destruct (createCarousel_loop_throws templates MODEL_POSITIONS 0 i s0)
    as (s' & orphan & Hs' & Hlen & Hrest); try done.
  - eapply quiet_inv; [apply reachable_inv | by apply quiet_same].
  - lia.
  - intros j _ Hj. by apply Hall.
  - exists s', orphan. split; [done|]. split; [|done].
    rewrite Hlen. subst s0. proj_simpl. cbn. lia.
Qed.

Lemma createCarousel_throws_at_missing_template_witness :
  ∃ s', createCarousel [] (run all_loaded init) = Thrown s' ∧ length (objects s') = 0.
Proof.
  destruct (createCarousel_throws_at_missing_template all_loaded [] 0)
    as (s' & orphan & Hs' & Hlen & _).
  - cbn. lia.
  - intros j Hj. lia.
  - reflexivity.
  - exists s'. split; [exact Hs' | exact Hlen].
Defined.

(** ** The click dispatcher *)

(** X9: in every reachable state the click dispatcher has counted at most
    one click, the number of pending timers equals the count, and the
    timer handle is set exactly when a click is counted; it is then the
    handle of the only pending timer. *)
Theorem click_dispatcher_invariant tr :
  let s := run tr init in
  (clickCount s ≤ 1)%nat ∧
  length (timers s) = clickCount s ∧
  (clickTimer s = None ↔ clickCount s = 0) ∧
  (∀ h, clickTimer s = Some h → ∃ due, timers s = [(h, due)]).
Proof.
  cbv zeta.
  destruct (reachable_click_inv tr) as [(Hc & Ht & Htm)|(Hc & h & due & Ht & Htm)];
    rewrite Hc, Ht, Htm.
  - split_and!; [lia | done | done | done].
  - split_and!; [lia | done | split; [done | lia] |].
    intros h' [= <-]. by exists due.
Qed.

(** ** A click that expires *)

Lemma fire_timer_due now h due s :
  timers s = [(h, due)] →
  fire_timer now h s =
    if decide (due ≤ now)%Z then clickTimer_fired (clearTimeout (Some h) s) else s.
Proof.
  intros Htm. unfold fire_timer. rewrite Htm. cbn [list_find].
  cbn. by rewrite decide_True.
Qed.

(** X10: a single click whose timer fires at or after 300 ms leaves the
    dispatcher idle and the location untouched, and the click after it,
    whatever it hits and whatever is hovered, does not navigate.  Before
    300 ms have passed the timer does not fire. *)
Theorem expired_click_starts_over tr now1 now hits1 :
  let s := run tr init in
  clickCount s = 0 →
  (now1 + 300 ≤ now)%Z →
  let s1 := step now1 (Click false hits1) s in
  let s2 := step now (Timeout (nextTimer s)) s1 in
  clickCount s1 = 1 ∧ clickTimer s1 = Some (nextTimer s) ∧
  clickCount s2 = 0 ∧ clickTimer s2 = None ∧ timers s2 = [] ∧
  location s2 = location s ∧
  (∀ now2 onContactButton hits2,
     location (step now2 (Click onContactButton hits2) s2) = location s) ∧
  (∀ early, (early < now1 + 300)%Z → step early (Timeout (nextTimer s)) s1 = s1).
Proof.
  intros s Hc Hlate s1 s2.
  destruct (reachable_click_inv tr) as [(_ & Ht & Htm)|(Hc1 & _)];
    [|fold s in Hc1; congruence].
  fold s in Ht, Htm.
  destruct (onMouseClick_first now1 s Hc Ht Htm) as (Hc1 & Ht1 & Htm1 & Hl1 & _).
  destruct (onWindowClick_frame now1 hits1 (onMouseClick now1 false s))
    as (Hwc & Hwt & Hwtm & _ & Hwl & _).
  assert (Hs1 : clickCount s1 = 1 ∧ clickTimer s1 = Some (nextTimer s) ∧
                timers s1 = [(nextTimer s, (now1 + 300)%Z)] ∧ location s1 = location s).
  { subst s1. cbn [step]. rewrite Hwc, Hwt, Hwtm, Hwl. done. }
  destruct Hs1 as (Hc1' & Ht1' & Htm1' & Hl1').
  assert (Hs2 : clickCount s2 = 0 ∧ clickTimer s2 = None ∧ timers s2 = [] ∧
                location s2 = location s).
  { subst s2. cbn [step]. rewrite (fire_timer_due _ _ _ _ Htm1').
    rewrite decide_True by done.
    unfold clickTimer_fired, clearTimeout. proj_simpl. rewrite Htm1'.
    split_and!; [done | done | | done].
    rewrite filter_cons_False; [done|]. cbn. by intros []. }
  destruct Hs2 as (Hc2 & Ht2 & Htm2 & Hl2).
  split_and!; try done.
  - intros now2 b hits2. cbn [step].
    destruct (onWindowClick_frame now2 hits2 (onMouseClick now2 b s2))
      as (_ & _ & _ & _ & -> & _).
    destruct b; [done|].
    destruct (onMouseClick_first now2 s2 Hc2 Ht2 Htm2) as (_ & _ & _ & -> & _). done.
  - intros early Hearly. subst s1. cbn [step].
    change (onWindowClick now1 hits1 (onMouseClick now1 false s)) with (step now1 (Click false hits1) s).
    rewrite (fire_timer_due _ _ _ _ Htm1'). by rewrite decide_False by lia.
Qed.

Lemma expired_click_starts_over_witness :
  let s := run (all_loaded ++ [(40%Z, MouseMove [4])]) init in
  let s2 := step 1300 (Timeout (nextTimer s)) (step 1000 (Click false [4]) s) in
  currentHoveredModel s2 = Some 2 ∧
  location (step 1400 (Click false [4]) s2) = None.
Proof.
  cbv zeta. split; [reflexivity|].
  pose proof (expired_click_starts_over (all_loaded ++ [(40%Z, MouseMove [4])])
                1000 1300 [4] eq_refl) as Hexp.
  cbv zeta in Hexp. destruct Hexp as (_ & _ & _ & _ & _ & _ & Hnext & _); [lia|].
  etransitivity; [apply Hnext | reflexivity].
Defined.

(** ** Leaving the window *)

Lemma reachable_hovered tr c :
  currentHoveredModel (run tr init) = Some c →
  ∃ o, objs (run tr init) !! c = Some o ∧
       originalScale (userData o) = Some MODEL_SCALE ∧
       scale o < length (vecs (run tr init)).
Proof.
  intros Hc.
  destruct (reachable_scene tr) as [_ Hh _].
  destruct (proj1 (list_elem_of_lookup _ _) (Hh c Hc)) as [i Hi].
  destruct (reachable_instances tr i c Hi) as (config & o & a & b & Hcfg & Ho & Hud & _).
  exists o. split; [done|]. split.
  - rewrite Hud. cbn. f_equal. by eapply config_scale.
  - apply (inv_live _ (reachable_inv tr) c o); [done|]. right. by right.
Qed.

(** X11: when the mouse leaves the window while an instance is the hover
    target, a tween of its scale to the original 3 is requested and the
    instance stays the hover target; when that tween completes the
    instance's scale is (3, 3, 3) and the hover target is cleared, while
    the pointer cursor class is left as it was.  A [mouseout] towards an
    element of the page does nothing. *)
Theorem mouseout_round_trip tr now now' model :
  let s := run tr init in
  currentHoveredModel s = Some model →
  let s1 := step now (MouseOut true) s in
  let s2 := step now' (TweenComplete (length (tweens s))) s1 in
  ∃ o, objs s !! model = Some o ∧
    currentHoveredModel s1 = Some model ∧
    vecs s1 = vecs s ∧
    tweens s1 = tweens s ++
      [mkTween (scale o) (Some 3%float) (Some 3%float) (Some 3%float) 0.3%float
         (Some "power2.out") true] ∧
    vecs s2 !! scale o = Some (mkVector3 3%float 3%float 3%float) ∧
    currentHoveredModel s2 = None ∧
    pointerCursor s2 = pointerCursor s ∧
    step now (MouseOut false) s = s.
Proof.
  intros s Hc s1 s2.
  destruct (reachable_hovered tr model Hc) as (o & Ho & Hos & Hlt).
  fold s in Ho, Hlt. exists o.
  assert (Hs1 : s1 = set_tweens (tweens s ++
            [mkTween (scale o) (Some 3%float) (Some 3%float) (Some 3%float) 0.3%float
               (Some "power2.out") true]) s).
  { subst s1. cbn [step]. unfold onMouseOut, gsap_to_scale, userData_of.
    rewrite Hc, Ho, Hos. reflexivity. }
  assert (Hs2 : vecs s2 !! scale o = Some (mkVector3 3%float 3%float 3%float) ∧
                currentHoveredModel s2 = None ∧ pointerCursor s2 = pointerCursor s).
  { subst s2. cbn [step]. unfold tween_complete. rewrite Hs1. proj_simpl.
    rewrite list_lookup_middle by done.
    cbn [tw_target tw_x tw_y tw_z tw_onComplete default]. unfold vec_set. proj_simpl.
    split_and!; try done. by rewrite list_lookup_insert_eq. }
  destruct Hs2 as (Hv & Hn & Hp).
  split_and!; try done; by rewrite Hs1.
Qed.

Lemma mouseout_round_trip_witness :
  let s := run (all_loaded ++ [(40%Z, MouseMove [4]);
                               (60%Z, TweenComplete 0)]) init in
  let s2 := step 400 (TweenComplete (length (tweens s))) (step 80 (MouseOut true) s) in
  currentHoveredModel s = Some 2 ∧
  vecs s !! 8 = Some (mkVector3 3.3000000000000003%float 3.3000000000000003%float
                                3.3000000000000003%float) ∧
  vecs s2 !! 8 = Some (mkVector3 3%float 3%float 3%float).
Proof.
  cbv zeta. split; [reflexivity|]. split; [reflexivity|].
  pose proof (mouseout_round_trip (all_loaded ++ [(40%Z, MouseMove [4]);
                                                  (60%Z, TweenComplete 0)])
                80 400 2 eq_refl) as Hout.
  cbv zeta in Hout. destruct Hout as (o & Ho & _ & _ & _ & Hv & _).
  vm_compute in Ho. injection Ho as <-. exact Hv.
Defined.

(** ** Losing focus *)

(** Blur with nothing to reset. *)
Lemma onBlur_idle (s : State) :
  (hoveredObject s ≫= λ h, objs s !! h ≫= λ o : Object3D, head (children o)) = None →
  onBlur s = s.
Proof.
  unfold onBlur. destruct (hoveredObject s) as [h|]; [|done]. cbn [mbind option_bind].
  by intros ->.
Qed.

(** X12: the render loop never has a target in a state the program
    reaches, so the [blur] listener changes nothing there; in any state it
    does nothing without a target, or with a target without children. *)
Theorem blur_never_acts tr now :
  program_frames tr init →
  let s := run tr init in
  hoveredObject s = None ∧
  step now Blur s = s ∧
  (∀ t : State,
     (hoveredObject t ≫= λ h, objs t !! h ≫= λ oh : Object3D, head (children oh)) = None →
     onBlur t = t).
Proof.
  intros Hp. cbv zeta.
  pose proof (reachable_hoveredObject tr Hp) as Hh.
  split_and!; [done | | apply onBlur_idle].
  cbn [step]. apply onBlur_idle. by rewrite Hh.
Qed.

Lemma blur_never_acts_witness :
  program_frames hovered_frame init ∧
  step 60 Blur (run hovered_frame init) = run hovered_frame init.
Proof.
  split; [exact hovered_frame_program|].
  destruct (blur_never_acts hovered_frame 60 hovered_frame_program) as (_ & Hb & _).
  exact Hb.
Defined.

(** ** The tweens requested *)

Lemma step_tweens now e s :
  heap_inv s →
  ∃ new, tweens (step now e s) = tweens s ++ new ∧
         ∀ tw, tw ∈ new →
           tw_x tw = tw_y tw ∧ tw_y tw = tw_z tw ∧ tw_duration tw = 0.3%float.
Proof.
  intros Hinv.
  assert (Hsame : ∀ t, tweens t = tweens s →
            ∃ new, tweens t = tweens s ++ new ∧
                   ∀ tw, tw ∈ new →
                     tw_x tw = tw_y tw ∧ tw_y tw = tw_z tw ∧ tw_duration tw = 0.3%float).
  { intros t Ht. exists []. rewrite app_nil_r. split; [done|].
    intros tw Htw. by apply elem_of_nil in Htw. }
  destruct e; cbn [step]; try (by apply Hsame).
  - apply Hsame. unfold onLoad. cbv zeta.
    set (s0 := set_loadedCount _ (set_models _ s)).
    assert (Hinv0 : heap_inv s0) by (eapply quiet_inv; [done | by apply quiet_same]).
    destruct (decide (loadedCount s0 = length MODEL_PATHS)); [|done].
    by rewrite (sc_tweens _ _ (createCarousel_controls (models s0) s0 Hinv0)).
  - unfold_handlers. repeat case_match; proj_simpl.
    all: first
      [ by apply Hsame
      | eexists [_]; split; [reflexivity|];
        intros tw ->%list_elem_of_singleton; done
      | eexists [_; _]; split; [by rewrite <- app_assoc|];
        intros tw [->| ->%list_elem_of_singleton]%elem_of_cons; done ].
  - apply Hsame. destruct (onWindowClick_heap now intersects (onMouseClick now onContactButton s))
      as (_ & _ & ->). apply onMouseClick_heap.
  - apply Hsame. apply fire_timer_heap.
  - unfold_handlers. repeat case_match; proj_simpl.
    all: first
      [ by apply Hsame
      | eexists [_]; split; [reflexivity|];
        intros tw ->%list_elem_of_singleton; done ].
  - unfold_handlers. repeat case_match; proj_simpl.
    all: first
      [ by apply Hsame
      | eexists [_]; split; [reflexivity|];
        intros tw ->%list_elem_of_singleton; done ].
  - apply Hsame. unfold_handlers. by repeat case_match.
  - apply Hsame. unfold_handlers. by repeat case_match.
  - apply Hsame. unfold_handlers. by repeat case_match.
Qed.

Lemma run_tweens tr : ∀ s, heap_inv s →
  (∀ tw, tw ∈ tweens s →
     tw_x tw = tw_y tw ∧ tw_y tw = tw_z tw ∧ tw_duration tw = 0.3%float) →
  ∀ tw, tw ∈ tweens (run tr s) →
     tw_x tw = tw_y tw ∧ tw_y tw = tw_z tw ∧ tw_duration tw = 0.3%float.
Proof.
  induction tr as [|[now e] tr IH]; intros s Hinv Hold; [done|].
  cbn [run]. apply IH; [by apply step_inv|].
  destruct (step_tweens now e s Hinv) as (new & -> & Hnew).
  intros tw [?|?]%elem_of_app; [by apply Hold | by apply Hnew].
Qed.

(** X13: every tween the script ever requests lasts 0.3 s, has the same
    end value for [x], [y] and [z], and animates the scale object of a
    node of the scene. *)
Theorem tweens_scale_uniformly tr tw :
  let s := run tr init in
  tw ∈ tweens s →
  tw_x tw = tw_y tw ∧ tw_y tw = tw_z tw ∧ tw_duration tw = 0.3%float ∧
  ∃ id o, objs s !! id = Some o ∧ tw_target tw = scale o.
Proof.
  cbv zeta. intros Htw.
  destruct (run_tweens tr init init_inv) with (tw := tw) as (Hxy & Hyz & Hd).
  - intros tw' Hin. by apply elem_of_nil in Hin.
  - done.
  - split_and!; [done | done | done |]. by apply (inv_tweens _ (reachable_inv tr)).
Qed.

Lemma tweens_scale_uniformly_witness :
  let tw := mkTween 8 (Some 3.3000000000000003%float) (Some 3.3000000000000003%float)
              (Some 3.3000000000000003%float) 0.3%float (Some "power2.out") false in
  tweens (run (all_loaded ++ [(40%Z, MouseMove [4])]) init) = [tw] ∧
  ∃ id o, objs (run (all_loaded ++ [(40%Z, MouseMove [4])]) init) !! id = Some o ∧
          8 = scale o.
Proof.
  cbv zeta.
  assert (Heq : tweens (run (all_loaded ++ [(40%Z, MouseMove [4])]) init) =
            [mkTween 8 (Some 3.3000000000000003%float) (Some 3.3000000000000003%float)
               (Some 3.3000000000000003%float) 0.3%float (Some "power2.out") false])
    by reflexivity.
  split; [exact Heq|].
  destruct (tweens_scale_uniformly (all_loaded ++ [(40%Z, MouseMove [4])])
              (mkTween 8 (Some 3.3000000000000003%float) (Some 3.3000000000000003%float)
                 (Some 3.3000000000000003%float) 0.3%float (Some "power2.out") false))
    as (_ & _ & _ & Ht).
  - cbv zeta. rewrite Heq. apply list_elem_of_here.
  - exact Ht.
Defined.

(** ** The end of a drag *)

Lemma compare_zero_opp d :
  PrimFloat.compare d 0%float = FEq → PrimFloat.eqb (PrimFloat.opp d) 0%float = true.
Proof.
  rewrite FloatAxioms.compare_spec, FloatAxioms.eqb_spec, FloatAxioms.opp_spec.
  change (FloatOps.Prim2SF 0%float) with (SpecFloat.S754_zero false).
  destruct (FloatOps.Prim2SF d) as [sg|sg| |sg m e]; cbn; try done; destruct sg; done.
Qed.

Lemma compare_nan_opp d :
  PrimFloat.compare d 0%float = FNotComparable →
  PrimFloat.is_nan (PrimFloat.mul 2.0%float (PrimFloat.opp d)) = true ∧
  PrimFloat.eqb (PrimFloat.opp d) 0%float = false.
Proof.
  unfold PrimFloat.is_nan.
  rewrite FloatAxioms.compare_spec, !FloatAxioms.eqb_spec, FloatAxioms.mul_spec, FloatAxioms.opp_spec.
  change (FloatOps.Prim2SF 0%float) with (SpecFloat.S754_zero false).
  destruct (FloatOps.Prim2SF d) as [sg|sg| |sg m e]; cbn; try done; destruct sg; done.
Qed.

(** X14: when a drag of the orbit controls ends, dragging is off, the
    auto-rotation speed is twice the rotation direction, and the direction
    is never zero: it is -1 when the azimuthal angle grew, 1 when it
    shrank and 1 when it did not change; an angle difference of [NaN]
    gives the speed [NaN]. *)
Theorem drag_end_sets_rotation angle_start angle_end c :
  let c' := onControlsEnd angle_end (onControlsStart angle_start c) in
  let moved := PrimFloat.compare (PrimFloat.sub angle_end angle_start) 0%float in
  isDragging (onControlsStart angle_start c) = true ∧
  isDragging c' = false ∧
  autoRotateSpeed c' = PrimFloat.mul 2.0%float (rotationDirection c') ∧
  PrimFloat.eqb (rotationDirection c') 0%float = false ∧
  (moved = FGt → rotationDirection c' = (-1)%float ∧ autoRotateSpeed c' = (-2)%float) ∧
  (moved = FLt → rotationDirection c' = 1%float ∧ autoRotateSpeed c' = 2%float) ∧
  (moved = FEq → rotationDirection c' = 1%float ∧ autoRotateSpeed c' = 2%float) ∧
  (moved = FNotComparable → PrimFloat.is_nan (autoRotateSpeed c') = true).
Proof.
  cbv zeta. unfold onControlsEnd, onControlsStart, Math_sign. cbv zeta.
  cbn [isDragging autoRotateSpeed rotationDirection lastAzimuthalAngle].
  set (d := PrimFloat.sub angle_end angle_start).
  split_and!; try done.
  - destruct (PrimFloat.compare d 0%float) eqn:Hcmp; try done.
    + by rewrite (compare_zero_opp d Hcmp).
    + by destruct (PrimFloat.eqb (PrimFloat.opp d) 0%float) eqn:Hz.
  - intros ->. done.
  - intros ->. done.
  - intros Hcmp. rewrite Hcmp. by rewrite (compare_zero_opp d Hcmp).
  - intros Hcmp. rewrite Hcmp. destruct (compare_nan_opp d Hcmp) as [Hn ->]. done.
Qed.

(** ** Rapid clicks on the time stamp listener *)

Lemma default_last_cons {A} (d d' x : A) l :
  default d (last (x :: l)) = default d' (last (x :: l)).
Proof. revert x. induction l as [|y l IH]; intros x; [done|]. apply (IH y). Qed.

(** X15: the time stamp listener opens one window for every click whose
    ray hits and that comes less than 300 ms after the hit before it,
    with no limit on their number and on the contact button too; the last
    click time is that of the last such click. *)
Theorem rapid_clicks_open_windows clicks : ∀ s,
  rapid_hits (lastClickTime s) clicks →
  openedWindows (run clicks s) = openedWindows s + length clicks ∧
  lastClickTime (run clicks s) = default (lastClickTime s) (last clicks.*1).
Proof.
  induction clicks as [|[now e] rest IH]; intros s Hrapid.
  - cbn. split; [lia | done].
  - destruct Hrapid as (Hlt & (b & first & more & ->) & Hrest).
    cbn [run step].
    set (s1 := onWindowClick now (first :: more) (onMouseClick now b s)).
    destruct (onMouseClick_frame now b s) as (Ht & Hw & _).
    destruct (onWindowClick_hit now first more (onMouseClick now b s)) as [Htime Hopen].
    fold s1 in Htime, Hopen. rewrite Ht, Hw, decide_True in Hopen by done.
    destruct (IH s1) as [IHw IHt]; [by rewrite Htime|].
    rewrite IHw, IHt, Hopen, Htime. split; [cbn; lia|].
    destruct rest as [|[now' e'] rest]; [done|].
    cbn [fmap list_fmap fst last]. apply default_last_cons.
Qed.

Lemma rapid_clicks_open_windows_witness :
  let s := step 1700000000000 (Click false [4]) (run all_loaded init) in
  openedWindows s = 0 ∧
  openedWindows (run [(1700000000100%Z, Click false [4]);
                      (1700000000200%Z, Click false [4]);
                      (1700000000300%Z, Click false [4])] s) = 3.
Proof.
  cbv zeta. split; [reflexivity|].
  destruct (rapid_clicks_open_windows
              [(1700000000100%Z, Click false [4]);
               (1700000000200%Z, Click false [4]);
               (1700000000300%Z, Click false [4])]
              (step 1700000000000 (Click false [4]) (run all_loaded init))) as [Hw _].
  - cbn [rapid_hits]. split_and!; try done; by eexists _, _, _.
  - etransitivity; [exact Hw | reflexivity].
Defined.

(** X17: clicks and click timers never touch the scene: the nodes, the
    xyz-objects, the tweens, [objects], both hover targets and the pointer
    cursor are left as they are. *)
Theorem clicks_leave_scene_alone now e s :
  is_click e = true ∨ (∃ h, e = Timeout h) →
  let s' := step now e s in
  objs s' = objs s ∧ vecs s' = vecs s ∧ tweens s' = tweens s ∧ objects s' = objects s ∧
  currentHoveredModel s' = currentHoveredModel s ∧ hoveredObject s' = hoveredObject s ∧
  pointerCursor s' = pointerCursor s.
Proof.
  intros [Hclick|[h ->]]; cbv zeta.
  - destruct e; try done. cbn [step].
    unfold_handlers. repeat case_match; by split_and!.
  - cbn [step]. unfold_handlers. repeat case_match; by split_and!.
Qed.

Lemma clicks_leave_scene_alone_witness :
  let s := run (all_loaded ++ [(40%Z, MouseMove [4]); (1000%Z, Click false [4])]) init in
  location (step 1100 (Click false [4]) s) = Some (HrefText "LI1-new.html") ∧
  currentHoveredModel (step 1100 (Click false [4]) s) = currentHoveredModel s.
Proof.
  cbv zeta. split; [reflexivity|].
  destruct (clicks_leave_scene_alone 1100 (Click false [4])
              (run (all_loaded ++ [(40%Z, MouseMove [4]); (1000%Z, Click false [4])]) init))
    as (_ & _ & _ & _ & Hc & _).
  - by left.
  - exact Hc.
Defined.

(** ** createCarousel is entered once *)

Lemma created_message (i : nat) :
  "Created model " +:+ pretty i +:+ " at position:" ≠ "Creating carousel with models:".
Proof. cbn. discriminate. Qed.

Lemma createCarousel_loop_console templates configs : ∀ i s,
  heap_inv s →
  ∃ msgs, console (state_of (createCarousel_loop templates i configs s)) = console s ++ msgs ∧
          filter (λ msg, msg = "Creating carousel with models:") msgs = [].
Proof.
  induction configs as [|config rest IH]; intros i s Hinv.
  - exists []. by rewrite app_nil_r.
  - cbn [createCarousel_loop].
    destruct (template_for templates i) as [[k [nm p r sc cs]]|] eqn:Ht.
    + rewrite (create_instance_closed _ _ _ _ _ _ _ _ _ _ (inv_carousel _ Hinv) Ht).
      destruct (instance_state_inv i k config p r cs s Hinv) as [Hinv' _].
      destruct (IH (S i) _ Hinv') as (msgs & -> & Hnone).
      exists (("Created model " +:+ pretty i +:+ " at position:") :: msgs).
      split.
      * unfold instance_state. cbv zeta.
        change (console (with_heap _ _ ?t)) with (console t).
        unfold console_log. proj_simpl. by rewrite <- app_assoc.
      * rewrite filter_cons_False by apply created_message. done.
    + rewrite (create_instance_throws _ _ _ _ Ht). cbn [state_of].
      exists []. by rewrite app_nil_r.
Qed.

Lemma carousel_calls_app s msgs t :
  console t = console s ++ msgs →
  carousel_calls t =
    carousel_calls s + length (filter (λ msg, msg = "Creating carousel with models:") msgs).
Proof. intros Hc. unfold carousel_calls. by rewrite Hc, filter_app, length_app. Qed.

Lemma onLoad_calls index scene s :
  heap_inv s →
  loadedCount (onLoad index scene s) = S (loadedCount s) ∧
  carousel_calls (onLoad index scene s) =
    carousel_calls s + (if decide (S (loadedCount s) = length MODEL_PATHS) then 1 else 0).
Proof.
  intros Hinv. unfold onLoad. cbv zeta.
  set (s0 := set_loadedCount _ (set_models _ s)).
  assert (Hinv0 : heap_inv s0) by (eapply quiet_inv; [done | by apply quiet_same]).
  change (loadedCount s0) with (S (loadedCount s)).
  destruct (decide (S (loadedCount s) = length MODEL_PATHS)) as [Heq|Hne].
  - split; [by rewrite (sc_loadedCount _ _ (createCarousel_controls (models s0) s0 Hinv0))|].
    unfold createCarousel.
    set (s1 := set_objects [] (console_log _ s0)).
    destruct (createCarousel_loop_console (models s0) MODEL_POSITIONS 0 s1) as (msgs & Hc & Hn).
    { eapply quiet_inv; [done | by apply quiet_same]. }
    rewrite (carousel_calls_app s ("Creating carousel with models:" :: msgs)).
    + rewrite ?decide_True by done.
      rewrite filter_cons_True by done. cbn [length]. rewrite Hn. cbn. lia.
    + rewrite Hc. subst s1 s0. unfold console_log. proj_simpl. by rewrite <- app_assoc.
  - split; [done|]. rewrite ?decide_False by done.
    unfold carousel_calls. subst s0. proj_simpl. by rewrite Nat.add_0_r.
Qed.

Lemma step_calls now e s :
  (∀ index scene, e ≠ Loaded index scene) →
  carousel_calls (step now e s) = carousel_calls s.
Proof.
  intros Hne. destruct (step_other_console now e s Hne) as [Hc|Hc].
  - unfold carousel_calls. by rewrite Hc.
  - rewrite (carousel_calls_app s ["FPS:"]) by done.
    rewrite filter_cons_False by done. cbn. lia.
Qed.

Lemma loaded_or_not e :
  (∃ index scene, e = Loaded index scene) ∨ (∀ index scene, e ≠ Loaded index scene).
Proof. destruct e; try (by right); left; by eexists _, _. Qed.

(** X18: for every sequence of events, the load counter is the number of
    completion callbacks run so far, [createCarousel] has been entered
    once if there were at least three of them and not at all otherwise,
    and [objects] is empty before the third. *)
Theorem carousel_built_at_third_callback tr :
  let s := run tr init in
  loadedCount s = length (loads tr) ∧
  carousel_calls s = (if decide (length MODEL_PATHS ≤ length (loads tr))%nat then 1 else 0) ∧
  (length (loads tr) < length MODEL_PATHS → objects s = []).
Proof.
  cbv zeta. induction tr as [|[now e] tr IH] using rev_ind.
  - split_and!; done.
  - rewrite run_app, loads_app, length_app. cbn [run].
    destruct IH as (Hcount & Hcalls & Hobj).
    pose proof (reachable_inv tr) as Hinv.
    destruct (loaded_or_not e) as [(index & scene & ->)|Hne'].
    + cbn [step loads length].
      destruct (onLoad_calls index scene (run tr init) Hinv) as (-> & ->).
      rewrite Hcount, Hcalls. split_and!; [lia | | ].
      * cbn. repeat case_decide; lia.
      * intros Hlt. unfold onLoad. cbv zeta. rewrite decide_False.
        -- proj_simpl. apply Hobj. lia.
        -- proj_simpl. rewrite Hcount. cbn in *. lia.
    + rewrite (step_other_loadedCount now e _ Hne'), (step_calls now e _ Hne'),
        (step_objects now e _ Hne').
      assert (Hl : loads [(now, e)] = []) by (destruct e; try done; by destruct (Hne' index scene)).
      rewrite Hl. cbn [length]. rewrite Nat.add_0_r. done.
Qed.

(** ** No xyz-object is shared *)

Lemma step_quiet now e s :
  (∀ index scene, e ≠ Loaded index scene) → heap_inv s → quiet s (step now e s).
Proof.
  intros Hne Hinv.
  destruct e as [index scene|index|hits|b hits|h|leaving| |hits|k v|k]; cbn [step].
  - by destruct (Hne index scene).
  - apply quiet_refl.
  - apply quiet_handleHover.
  - eapply quiet_trans.
    + apply quiet_same; apply (onMouseClick_heap now b s).
    + apply quiet_same; apply onWindowClick_heap.
  - apply quiet_same; apply fire_timer_heap.
  - apply quiet_onMouseOut.
  - apply quiet_onBlur.
  - apply quiet_animate.
  - by apply quiet_tween_update.
  - by apply quiet_tween_complete.
Qed.

Lemma quiet_cells s s' : quiet s s' → cells_inv s → cells_inv s'.
Proof.
  intros Hq [Hb Ho Hor Horr Hoo]. split.
  - intros id o' Hid. destruct (quiet_nodes_back _ _ _ _ Hq Hid) as (o & Ho' & Hk).
    rewrite (kept_position _ _ Hk), (kept_rotation _ _ Hk), (kept_scale _ _ Hk). by eapply Hb.
  - intros id id' o1' o2' H1 H2 Hlt.
    destruct (quiet_nodes_back _ _ _ _ Hq H1) as (o1 & Ho1 & Hk1).
    destruct (quiet_nodes_back _ _ _ _ Hq H2) as (o2 & Ho2 & Hk2).
    rewrite (kept_scale _ _ Hk1), (kept_position _ _ Hk2).
    by apply (Ho id id' o1 o2).
  - intros id o' p Hid Hp. destruct (quiet_nodes_back _ _ _ _ Hq Hid) as (o & Ho' & Hk).
    rewrite (kept_originalPosition _ _ Hk) in Hp.
    rewrite (kept_originalRotation _ _ Hk), (kept_scale _ _ Hk). by apply (Hor id o).
  - intros id o' r Hid Hr. destruct (quiet_nodes_back _ _ _ _ Hq Hid) as (o & Ho' & Hk).
    rewrite (kept_originalRotation _ _ Hk) in Hr.
    rewrite (kept_originalPosition _ _ Hk). by apply (Horr id o r).
  - intros id id' o1' o2' p H1 H2 Hlt Hp Ht.
    destruct (quiet_nodes_back _ _ _ _ Hq H1) as (o1 & Ho1 & Hk1).
    destruct (quiet_nodes_back _ _ _ _ Hq H2) as (o2 & Ho2 & Hk2).
    rewrite (kept_originalPosition _ _ Hk1) in Hp.
    rewrite (kept_originalPosition _ _ Hk2) in Ht.
    rewrite (kept_position _ _ Hk2). by apply (Hoo id id' o1 o2).
Qed.

(** The nodes of the state a loop iteration leaves: an older node, kept;
    the group; the model root; or a node of the cloned children. *)
Lemma instance_state_lookup i k config p r cs s id o' :
  heap_inv s →
  objs (instance_state i k config p r cs s) !! id = Some o' →
  let g := length (objs s) in
  let a := length (vecs s) in
  let kids := clone_children (g + 1) cs (S (g + 1)) (a + 6) in
  (id < g ∧ ∃ o, objs s !! id = Some o ∧ node_kept o o') ∨
  (id = g ∧ o' = group_node i config g a (length kids.2.2)) ∨
  (id = g + 1 ∧ o' = model_node i k config g a kids.1) ∨
  (∃ j, id = g + 2 + j ∧ kids.2.1 !! j = Some o').
Proof.
  intros Hinv Ho'. cbv zeta.
  destruct (instance_state_inv i k config p r cs s Hinv) as [_ [Hnodes _]].
  destruct (instance_state_group i k config p r cs s) as (Hg & Hm & _).
  destruct (decide (id < length (objs s))) as [Hlt|Hge].
  - left. split; [done|]. destruct (lookup_lt_is_Some_2 _ _ Hlt) as [o Ho].
    destruct (Hnodes _ _ Ho) as (o'' & Ho'' & Hk). exists o. split; [done|]. congruence.
  - right. destruct (decide (id = length (objs s))) as [->|Hne].
    { left. split; [done|]. congruence. }
    right. destruct (decide (id = length (objs s) + 1)) as [->|Hne'].
    { left. split; [done|]. congruence. }
    right. exists (id - length (objs s) - 2). split; [lia|].
    revert Ho'. unfold instance_state. cbv zeta.
    change (objs (with_heap ?V ?O _)) with O.
    rewrite lookup_app_r by (rewrite length_alter; lia).
    rewrite length_alter.
    destruct (id - length (objs s)) as [|[|j]] eqn:Hj; [lia|lia|].
    cbn [lookup list_lookup]. intros Hkid.
    by replace (S (S j) - 2) with j by lia.
Qed.

Lemma instance_state_cells i k config p r cs s :
  heap_inv s → cells_inv s → cells_inv (instance_state i k config p r cs s).
Proof.
  intros Hinv [Hb Ho Hor Horr Hoo].
  set (g := length (objs s)). set (a := length (vecs s)).
  destruct (clone_children_shape (g + 1) cs (S (g + 1)) (a + 6)
              (Nat.lt_succ_diag_r _)) as [Hlen Hshape].
  set (kids := clone_children (g + 1) cs (S (g + 1)) (a + 6)) in *.
  set (L1 := length kids.2.1) in *. set (L2 := length kids.2.2) in *.
  assert (Hfacts : ∀ id o', objs (instance_state i k config p r cs s) !! id = Some o' →
    rotation o' = position o' + 1 ∧ scale o' = position o' + 2 ∧
    ((id < g ∧ scale o' < a ∧
        (∀ b, is_original o' b → b < a) ∧
        ∃ o, objs s !! id = Some o ∧ node_kept o o') ∨
     (g ≤ id ∧ a + 3 * (id - g) = position o' ∧
        (id = g ∧ originalPosition (userData o') = Some (a + 6 + L2 + 2) ∧
           originalRotation (userData o') = Some (a + 6 + L2 + 3) ∨
         g < id ∧ id ≤ g + 1 + L1 ∧
           originalPosition (userData o') = None ∧
           originalRotation (userData o') = None)))%nat).
  { intros id o' Ho'.
    destruct (instance_state_lookup i k config p r cs s id o' Hinv Ho')
      as [(Hlt & o & Hold & Hk)|[(-> & ->)|[(-> & ->)|(j & -> & Hj)]]].
    - destruct (Hb id o Hold) as [Hr Hs].
      rewrite (kept_position _ _ Hk), (kept_rotation _ _ Hk), (kept_scale _ _ Hk).
      split_and!; [done | done |]. left. split_and!; [done | | |by exists o].
      + apply (inv_live _ Hinv id o _ Hold). right. by right.
      + intros b Hob. apply (inv_orig _ Hinv id o _ Hold).
        by apply (node_kept_original o o').
    - cbn. split_and!; [done | done |]. right. split_and!; [lia | lia |].
      left. by split_and!.
    - cbn. split_and!; [lia | lia |]. right. split_and!; [lia | lia |].
      right. split_and!; [lia | lia | done | done].
    - destruct (Hshape _ _ Hj) as (Hu & Hp & Hr & Hs & _).
      pose proof (lookup_lt_Some _ _ _ Hj) as Hjl. change (j < L1) in Hjl.
      rewrite Hu, Hp, Hr, Hs. cbn. split_and!; [lia | lia |]. right.
      split_and!; [lia | lia |]. right. split_and!; [lia | lia | done | done]. }
  split.
  - intros id o' Hid. destruct (Hfacts id o' Hid) as (? & ? & _). done.
  - intros id id' o1 o2 H1 H2 Hlt.
    destruct (Hfacts id o1 H1) as (Hr1 & Hs1 & [(Hl1 & Ha1 & _ & o1' & Hold1 & Hk1)|(Hg1 & Hp1 & _)]);
    destruct (Hfacts id' o2 H2) as (Hr2 & Hs2 & [(Hl2 & Ha2 & _ & o2' & Hold2 & Hk2)|(Hg2 & Hp2 & _)]).
    + rewrite (kept_scale _ _ Hk1), (kept_position _ _ Hk2).
      by apply (Ho id id' o1' o2').
    + lia.
    + lia.
    + lia.
  - intros id o' q Hid Hq.
    destruct (Hfacts id o' Hid) as (Hr & Hs & [(Hl & Ha & _ & o & Hold & Hk)|(Hg & Hp & [(-> & Hop & Hor')|(_ & _ & Hop & _)])]).
    + rewrite (kept_originalPosition _ _ Hk) in Hq.
      rewrite (kept_originalRotation _ _ Hk), (kept_scale _ _ Hk). by apply (Hor id o).
    + rewrite Hop in Hq. injection Hq as <-. rewrite Hor'. split; [f_equal; lia | lia].
    + congruence.
  - intros id o' q Hid Hq.
    destruct (Hfacts id o' Hid) as (_ & _ & [(Hl & Ha & _ & o & Hold & Hk)|(Hg & Hp & [(-> & Hop & _)|(_ & _ & _ & Hor')])]).
    + rewrite (kept_originalRotation _ _ Hk) in Hq.
      rewrite (kept_originalPosition _ _ Hk). by apply (Horr id o q).
    + by rewrite Hop.
    + congruence.
  - intros id id' o1 o2 q H1 H2 Hlt Hq Ht.
    destruct (Hfacts id o1 H1) as (Hr1 & Hs1 & [(Hl1 & Ha1 & Hob1 & o1' & Hold1 & Hk1)|(Hg1 & Hp1 & [(-> & Hop1 & _)|(_ & _ & Hop1 & _)])]);
    destruct (Hfacts id' o2 H2) as (Hr2 & Hs2 & [(Hl2 & Ha2 & _ & o2' & Hold2 & Hk2)|(Hg2 & Hp2 & [(-> & Hop2 & _)|(_ & _ & Hop2 & _)])]);
      try lia; try (rewrite Hop2 in Ht; by destruct Ht); try congruence.
    + rewrite (kept_originalPosition _ _ Hk1) in Hq.
      rewrite (kept_originalPosition _ _ Hk2) in Ht.
      rewrite (kept_position _ _ Hk2). by apply (Hoo id id' o1' o2').
    + destruct (Hor id o1' q Hold1) as [Hrot _].
      { by rewrite <- (kept_originalPosition _ _ Hk1). }
      assert (q + 1 < a); [|lia].
      apply Hob1. right. by rewrite (kept_originalRotation _ _ Hk1).
Qed.

Lemma thrown_state_cells nm ud s :
  heap_inv s → cells_inv s →
  cells_inv (with_heap (vecs s ++ [zero3; zero3; one3])
              (objs s ++ [mkObject3D nm None []
                            (length (vecs s)) (length (vecs s) + 1) (length (vecs s) + 2)
                            (mkUserData ud None None None)]) s).
Proof.
  intros Hinv [Hb Ho Hor Horr Hoo].
  assert (Hcase : ∀ id o', (objs s ++ [mkObject3D nm None []
                            (length (vecs s)) (length (vecs s) + 1) (length (vecs s) + 2)
                            (mkUserData ud None None None)]) !! id = Some o' →
            objs s !! id = Some o' ∨
            id = length (objs s) ∧
            o' = mkObject3D nm None []
                   (length (vecs s)) (length (vecs s) + 1) (length (vecs s) + 2)
                   (mkUserData ud None None None)).
  { intros id o' [Hold|[Hge Hnew]]%lookup_app_Some; [by left|]. right.
    destruct (id - length (objs s)) as [|j] eqn:Hj; [|done].
    injection Hnew as <-. split; [lia | done]. }
  split; change (objs (with_heap ?V ?O _)) with O.
  - intros id o' [Hold|[-> ->]]%Hcase; [by apply (Hb id) | done].
  - intros id id' o1 o2 [H1|[-> ->]]%Hcase [H2|[-> ->]]%Hcase Hlt.
    + by apply (Ho id id' o1 o2).
    + cbn. apply (inv_live _ Hinv id o1 _ H1). right. by right.
    + apply lookup_lt_Some in H2. lia.
    + lia.
  - intros id o' q [Hold|[-> ->]]%Hcase Hq; [by apply (Hor id) | done].
  - intros id o' q [Hold|[-> ->]]%Hcase Hq; [by apply (Horr id o' q) | done].
  - intros id id' o1 o2 q [H1|[-> ->]]%Hcase [H2|[-> ->]]%Hcase Hlt Hq Ht;
      [by apply (Hoo id id' o1 o2) | by destruct Ht | done | done].
Qed.

Lemma createCarousel_loop_cells templates configs : ∀ i s,
  heap_inv s → cells_inv s →
  cells_inv (state_of (createCarousel_loop templates i configs s)).
Proof.
  induction configs as [|config rest IH]; intros i s Hinv Hc; [done|].
  cbn [createCarousel_loop].
  destruct (template_for templates i) as [[k [nm p r sc cs]]|] eqn:Ht.
  - rewrite (create_instance_closed _ _ _ _ _ _ _ _ _ _ (inv_carousel _ Hinv) Ht).
    destruct (instance_state_inv i k config p r cs s Hinv) as [Hinv' _].
    apply IH; [done|]. by apply instance_state_cells.
  - rewrite (create_instance_throws _ _ _ _ Ht). cbn [state_of].
    by apply thrown_state_cells.
Qed.

Lemma step_cells now e s : heap_inv s → cells_inv s → cells_inv (step now e s).
Proof.
  intros Hinv Hc. destruct (loaded_or_not e) as [(index & scene & ->)|Hne].
  - cbn [step]. unfold onLoad. cbv zeta.
    set (s0 := set_loadedCount _ (set_models _ s)).
    assert (Hq : quiet s s0) by (by apply quiet_same).
    destruct (decide (loadedCount s0 = length MODEL_PATHS)).
    + unfold createCarousel. apply createCarousel_loop_cells.
      * eapply quiet_inv; [done | by apply quiet_same].
      * eapply quiet_cells; [|done]. by apply quiet_same.
    + by eapply quiet_cells.
  - eapply quiet_cells; [|done]. by apply step_quiet.
Qed.

Lemma init_cells : cells_inv init.
Proof.
  split.
  - intros [|[|id]] o Hid; by simplify_eq/=.
  - intros [|[|id]] [|[|id']] o o' Hid Hid' Hlt; simplify_eq/=; lia.
  - intros [|[|id]] o p Hid Hp; by simplify_eq/=.
  - intros [|[|id]] o p Hid Hp; by simplify_eq/=.
  - intros [|[|id]] [|[|id']] o o' p Hid Hid' Hlt Hp; by simplify_eq/=.
Qed.

Lemma reachable_cells tr : cells_inv (run tr init).
Proof.
  assert (Hgen : ∀ s, heap_inv s → cells_inv s → cells_inv (run tr s)).
  { induction tr as [|[now e] tr IH]; intros s Hheap Hinv; [done|].
    cbn [run]. apply IH; [by apply step_inv | by apply step_cells]. }
  apply Hgen; [apply init_inv | apply init_cells].
Qed.

(** X19: in every reachable state no xyz-object is shared: the position,
    rotation and scale objects of a node are three different objects, no
    two nodes share one, the stored original position and rotation of a
    node are different objects, and no two nodes share a stored
    original. *)
Theorem transforms_never_alias tr :
  let s := run tr init in
  (∀ id o, objs s !! id = Some o →
     position o ≠ rotation o ∧ rotation o ≠ scale o ∧ position o ≠ scale o) ∧
  (∀ id id' o o' a, objs s !! id = Some o → objs s !! id' = Some o' →
     is_live o a → is_live o' a → id = id') ∧
  (∀ id o p r, objs s !! id = Some o →
     originalPosition (userData o) = Some p → originalRotation (userData o) = Some r →
     p ≠ r) ∧
  (∀ id id' o o' a, objs s !! id = Some o → objs s !! id' = Some o' →
     is_original o a → is_original o' a → id = id').
Proof.
  cbv zeta. destruct (reachable_cells tr) as [Hb Ho Hor Horr Hoo].
  split_and!.
  - intros id o Hid. destruct (Hb id o Hid). lia.
  - intros id id' o o' a Hid Hid' Ha Ha'.
    destruct (Hb id o Hid) as [Hr Hs]. destruct (Hb id' o' Hid') as [Hr' Hs'].
    destruct (Nat.lt_trichotomy id id') as [Hlt|[Heq|Hgt]]; [|done|].
    + pose proof (Ho id id' o o' Hid Hid' Hlt).
      destruct Ha as [-> | [-> | ->] ], Ha' as [Ha' | [Ha' | Ha'] ]; lia.
    + pose proof (Ho id' id o' o Hid' Hid Hgt).
      destruct Ha as [-> | [-> | ->] ], Ha' as [Ha' | [Ha' | Ha'] ]; lia.
  - intros id o p r Hid Hp Hr. destruct (Hor id o p Hid Hp) as [Hr' _].
    rewrite Hr' in Hr. injection Hr as <-. lia.
  - intros id id' o o' a Hid Hid' Ha Ha'.
    assert (Hpair : ∀ i n b, objs (run tr init) !! i = Some n → is_original n b →
              ∃ q, originalPosition (userData n) = Some q ∧ (b = q ∨ b = q + 1) ∧
                   position n < q).
    { intros i n b Hn [Hq|Hq].
      - exists b. destruct (Hor i n b Hn Hq) as [_ Hlt]. destruct (Hb i n Hn). 
        split_and!; [done | by left | lia].
      - destruct (Horr i n b Hn Hq) as [q Hq'].
        destruct (Hor i n q Hn Hq') as [Hr Hlt]. destruct (Hb i n Hn).
        exists q. split_and!; [done | right; congruence | lia]. }
    destruct (Hpair id o a Hid Ha) as (q & Hq & Haq & Hpq).
    destruct (Hpair id' o' a Hid' Ha') as (q' & Hq' & Haq' & Hpq').
    destruct (Nat.lt_trichotomy id id') as [Hlt|[Heq|Hgt]]; [|done|].
    + assert (q + 1 < position o') by (apply (Hoo id id' o o'); by rewrite ?Hq').
      lia.
    + assert (q' + 1 < position o) by (apply (Hoo id' id o' o); by rewrite ?Hq).
      lia.
Qed.
